(** * Funnel Finder: the discovery / classification / funnel pipeline

    A shallow embedding of [funnel-finder/src/lib/{url,robots,sitemap,crawl}.ts]
    and the properties of the specification that are checked against it.

    Conventions of the embedding.
    - A JavaScript string is a [string] (its UTF-8 bytes); the pathnames,
      hosts and query strings the code inspects are ASCII.
    - A function that can throw returns an [option]: [None] is the
      exception.  A function that returns [null] is documented as such.
    - A [while] loop whose termination is not structural carries a fuel
      argument and returns a [run]: [Timeout] means the fuel ran out, and
      the termination lemmas show which fuel is enough.
    - The host classes ([URL], [URLSearchParams]) are an interface,
      [UrlApi]; what the proofs need of them is the class [UrlLaws].
      [RefUrl] is a reference implementation used to run the code. *)

From Stdlib Require Import Ascii QArith Qround Qminmax Sorted.
From stdpp Require Import base option list gmap strings pretty.

Local Open Scope Z_scope.

(** ** JavaScript string methods *)

Module JsString.

(** [s.startsWith(p)] *)
Fixpoint startsWith (s p : string) {struct p} : bool :=
  match p, s with
  | EmptyString, _ => true
  | String _ _, EmptyString => false
  | String a p', String b s' => bool_decide (a = b) && startsWith s' p'
  end.

(** [s.includes(sub)] *)
Fixpoint includes (s sub : string) : bool :=
  startsWith s sub ||
  match s with
  | EmptyString => false
  | String _ s' => includes s' sub
  end.

(** [s.endsWith(suf)] *)
Definition endsWith (s suf : string) : bool :=
  startsWith (String.rev s) (String.rev suf).

Definition lower_ascii (c : ascii) : ascii :=
  let n := N_of_ascii c in
  if ((65 <=? n) && (n <=? 90))%N then ascii_of_N (n + 32) else c.

(** [s.toLowerCase()], on ASCII text *)
Fixpoint toLowerCase (s : string) : string :=
  match s with
  | EmptyString => EmptyString
  | String c s' => String (lower_ascii c) (toLowerCase s')
  end.

Fixpoint trimStart (s : string) : string :=
  match s with
  | EmptyString => EmptyString
  | String c s' => if Ascii.is_space c then trimStart s' else s
  end.

(** [s.trim()], for the ASCII white space characters *)
Definition trim (s : string) : string :=
  String.rev (trimStart (String.rev (trimStart s))).

(** [parts.join(sep)] *)
Fixpoint join (sep : string) (parts : list string) : string :=
  match parts with
  | [] => ""
  | [x] => x
  | x :: rest => x +:+ sep +:+ join sep rest
  end.

(** [s || d]: the empty string is falsy *)
Definition or_else (s d : string) : string :=
  if bool_decide (s = "") then d else s.

(** [s.split(c)], cut at the first [c]: [s.split(c)[0]], and the other
    pieces joined by [c] again when there are any. *)
Fixpoint split_on (c : ascii) (s : string) : string * option string :=
  match s with
  | EmptyString => (EmptyString, None)
  | String a s' =>
      if bool_decide (a = c) then (EmptyString, Some s')
      else let r := split_on c s' in (String a r.1, r.2)
  end.

(** [s.split(/\r?\n/)] *)
Fixpoint split_lines (s : string) : list string :=
  match s with
  | EmptyString => [EmptyString]
  | String c s' =>
      if bool_decide (c = "010"%char) then EmptyString :: split_lines s'
      else if bool_decide (c = "013"%char) && startsWith s' (String "010" EmptyString)
      then split_lines s'
      else
        match split_lines s' with
        | l :: ls => String c l :: ls
        | [] => [String c EmptyString]
        end
  end.

End JsString.

(** ** The host [URL] class *)

(** The part of the WHATWG [URL] and [URLSearchParams] classes the sources
    use.  [URL_new s] is [new URL(s)] and [URL_new_base h b] is
    [new URL(h, b)]; both throw on unparsable input.  [searchParams] is the
    list of decoded name/value pairs of the query, and
    [searchParams_update l] is the "update steps" of [URLSearchParams]: the
    list becomes [l] and the query of the URL its serialisation. *)
Class UrlApi := {
  url : Type;
  URL_new : string → option url;
  URL_new_base : string → string → option url;
  protocol : url → string;
  host : url → string;
  pathname : url → string;
  searchParams : url → list (string * string);
  searchParams_update : list (string * string) → url → url;
  clear_hash : url → url;
  toString : url → string;
}.

Section Url.
Context `{UrlApi}.

(** [u.searchParams.delete(k)]: remove every pair named [k], then update. *)
Definition searchParams_delete (k : string) (u : url) : url :=
  searchParams_update
    (filter (λ kv : string * string, kv.1 ≠ k) (searchParams u)) u.

(** The URL objects a program can hold. *)
Inductive url_obj : url → Prop :=
| obj_new s u : URL_new s = Some u → url_obj u
| obj_new_base h b u : URL_new_base h b = Some u → url_obj u
| obj_update l u : url_obj u → url_obj (searchParams_update l u)
| obj_clear_hash u : url_obj u → url_obj (clear_hash u).

(** *** url.ts *)

Definition normalizeUrl (input : string) : option string :=
  let trimmed := JsString.trim input in
  if bool_decide (trimmed = "") then None
  else
    let lower := JsString.toLowerCase trimmed in
    let withProto :=
      if JsString.startsWith lower "http://" || JsString.startsWith lower "https://"
      then trimmed else "https://" +:+ trimmed in
    u ← URL_new withProto;
    Some (toString (clear_hash u)).

Definition sameOrigin (a b : string) : option bool :=
  ua ← URL_new a;
  ub ← URL_new b;
  Some (bool_decide (protocol ua = protocol ub) && bool_decide (host ua = host ub)).

(** Returns [null] ([None]) for the targets that are not pages; it never
    throws. *)
Definition toAbsoluteUrl (base href : string) : option string :=
  let h := JsString.trim href in
  if bool_decide (h = "") then None
  else if JsString.startsWith h "#" then None
  else if JsString.startsWith h "mailto:" || JsString.startsWith h "tel:"
          || JsString.startsWith h "javascript:" then None
  else
    match URL_new_base h base with
    | Some abs => Some (toString (clear_hash abs))
    | None => None
    end.

Definition utmKeys : list string :=
  [ "utm_source"; "utm_medium"; "utm_campaign"; "utm_term"; "utm_content";
    "gclid"; "fbclid"; "msclkid"; "ttclid"; "twclid"; "li_fat_id"; "wbraid"; "gbraid" ].

Definition stripUtm (s : string) : option string :=
  u ← URL_new s;
  Some (toString (foldl (λ u k, searchParams_delete k u) u utmKeys)).

End Url.

(** ** What the code needs of the URL class *)

(** The contract of the URL Standard the proofs about tracking parameters
    rest on: the parameter list of a URL object is the one it was last
    updated with, and parsing the serialisation of a URL object gives the
    object back. *)
Class UrlLaws `{UrlApi} : Prop := {
  searchParams_update_get l u : searchParams (searchParams_update l u) = l;
  searchParams_update_update l l' u :
    searchParams_update l' (searchParams_update l u) = searchParams_update l' u;
  URL_new_toString u : url_obj u → URL_new (toString u) = Some u;
}.

(** ** Results of loops *)

(** What running a piece of code gives: a value, an exception, or no
    answer within the fuel. *)
Inductive run (A : Type) : Type :=
| Done (a : A)
| Raise
| Timeout.
Arguments Done {A} a.
Arguments Raise {A}.
Arguments Timeout {A}.

#[global] Instance run_ret : MRet run := @Done.
#[global] Instance run_bind : MBind run := λ A B f m,
  match m with
  | Done a => f a
  | Raise => Raise
  | Timeout => Timeout
  end.

#[global] Instance run_fmap : FMap run := λ A B f m,
  match m with
  | Done a => Done (f a)
  | Raise => Raise
  | Timeout => Timeout
  end.

(** A call that can throw, inside a loop. *)
Definition attempt {A} (o : option A) : run A :=
  match o with
  | Some a => Done a
  | None => Raise
  end.

(** ** Arrays and sets *)

(** [arr.sort(cmp)], which is stable: [x] goes before the first [y] it
    does not have to follow. *)
Section Sort.
Context {A : Type} (cmp : A → A → Z).

Fixpoint sort_insert (x : A) (l : list A) : list A :=
  match l with
  | [] => [x]
  | y :: l' => if cmp x y <=? 0 then x :: y :: l' else y :: sort_insert x l'
  end.

Definition Array_sort (l : list A) : list A := foldr sort_insert [] l.
End Sort.

(** [Array.from(new Set(l))]: the first occurrence of each element, in
    order. *)
Fixpoint dedupe_from (seen : gset string) (l : list string) : list string :=
  match l with
  | [] => []
  | x :: l' =>
      if bool_decide (x ∈ seen) then dedupe_from seen l'
      else x :: dedupe_from ({[x]} ∪ seen) l'
  end.
Definition Array_from_Set (l : list string) : list string := dedupe_from ∅ l.

(** ** robots.ts *)

Record RobotsRules := { sitemaps : list string; disallow : list string }.

(** The variables of the loop of [parseRobots]. *)
Record robots_state := {
  inStarGroup : bool;
  rs_sitemaps : list string;
  rs_disallow : list string;
}.

Section Robots.
Context `{UrlApi}.

(** The body of [for (const raw of lines)]. *)
Definition parseRobots_line (robotsUrl : string) (st : robots_state) (raw : string)
    : robots_state :=
  let line := JsString.trim (JsString.split_on "#" raw).1 in
  if bool_decide (line = "") then st
  else
    let kv := JsString.split_on ":" line in
    let key := JsString.toLowerCase (JsString.trim kv.1) in
    let value := JsString.trim (default "" kv.2) in
    if bool_decide (key = "user-agent") then
      {| inStarGroup := bool_decide (value = "*");
         rs_sitemaps := rs_sitemaps st; rs_disallow := rs_disallow st |}
    else if bool_decide (key = "sitemap") then
      match URL_new_base value robotsUrl with
      | Some u =>
          {| inStarGroup := inStarGroup st;
             rs_sitemaps := rs_sitemaps st ++ [toString u]; rs_disallow := rs_disallow st |}
      | None => st
      end
    else if inStarGroup st && bool_decide (key = "disallow") then
      if bool_decide (value = "") then st
      else
        {| inStarGroup := inStarGroup st;
           rs_sitemaps := rs_sitemaps st; rs_disallow := rs_disallow st ++ [value] |}
    else st.

Definition parseRobots (txt robotsUrl : string) : RobotsRules :=
  let st := foldl (parseRobots_line robotsUrl)
              {| inStarGroup := false; rs_sitemaps := []; rs_disallow := [] |}
              (JsString.split_lines txt) in
  {| sitemaps := Array_from_Set (rs_sitemaps st); disallow := rs_disallow st |}.

(** [fetch robotsUrl] is the body of the answer, [None] when the request
    fails or the answer is not [ok]. *)
Definition fetchRobots (fetch : string → option string) (baseUrl : string)
    : option RobotsRules :=
  base ← URL_new baseUrl;
  let robotsUrl := protocol base +:+ "//" +:+ host base +:+ "/robots.txt" in
  match fetch robotsUrl with
  | Some text => Some (parseRobots text robotsUrl)
  | None => Some {| sitemaps := []; disallow := [] |}
  end.

Fixpoint disallow_loop (path : string) (ds : list string) : bool :=
  match ds with
  | [] => true
  | dis :: ds' =>
      if bool_decide (dis = "") then disallow_loop path ds'
      else if JsString.startsWith path dis then false
      else disallow_loop path ds'
  end.

Definition isAllowedByRobots (baseUrl : string) (rules : RobotsRules)
    (candidateUrl : string) : option bool :=
  so ← sameOrigin baseUrl candidateUrl;
  if negb so then Some false
  else
    u ← URL_new candidateUrl;
    let path := JsString.or_else (pathname u) "/" in
    Some (disallow_loop path (disallow rules)).

End Robots.



(** ** crawl.ts: pages, funnels, heuristics *)

Record PageFinding := {
  pf_url : string;
  finalUrl : string;
  status : Z;
  score : Z;
  reasons : list string;
  title : option string;
  ctaLinks : list string;
  allOutLinks : list string;
}.

Record FunnelPath := {
  landing : string;
  steps : list string;
  conversion : string;
  confidence : Z;
}.

Definition EXCLUDE_KEYWORDS : list string :=
  [ "faq"; "faqs"; "blog"; "posts"; "article"; "news";
    "privacy"; "terms"; "legal"; "policy"; "cookies";
    "contact"; "about"; "team"; "careers"; "jobs"; "support"; "help";
    "refund"; "returns"; "shipping"; "track-order";
    "documentation"; "docs"; "knowledge-base" ].

Definition ASSET_EXTENSIONS : list string :=
  [ "png"; "jpg"; "jpeg"; "gif"; "webp"; "svg"; "ico"; "css"; "js"; "map";
    "pdf"; "zip"; "mp4"; "mov"; "webm" ].

Definition CONVERSION_HINTS : list string :=
  [ "checkout"; "order"; "pay"; "cart"; "thank"; "success"; "confirm"; "complete" ].

(** The ad-like threshold of [runFunnelFinder] and [buildFunnels]. *)
Definition AD_LIKE_THRESHOLD : Z := 18.
Definition MAX_AD_LIKE : nat := 250.

(** [Math.round]: the nearest integer, halves upwards. *)
Definition Math_round (q : Q) : Z := Qfloor (q + (1 # 2))%Q.

(** The state of the breadth-first search of [buildFunnels]. *)
Record bfs_state := {
  bfs_queue : list string;
  bfs_visited : gset string;
  bfs_parent : gmap string (option string);
  bfs_depth : gmap string nat;
}.

Definition maxSteps : nat := 5.

(** The separator of the dedupe key, as the source file has it. *)
Definition KEY_SEP : string := "â†’".

Section Funnels.
Context `{UrlApi}.

Definition looksExcluded (s : string) : option bool :=
  u ← URL_new s;
  let path := JsString.toLowerCase (JsString.or_else (pathname u) "/") in
  if existsb (λ e, JsString.endsWith path ("." +:+ e)) ASSET_EXTENSIONS then Some true
  else if existsb (λ k, JsString.includes path ("/" +:+ k)
                        || JsString.includes path ("-" +:+ k)
                        || JsString.includes path (k +:+ "-")) EXCLUDE_KEYWORDS
  then Some true
  else Some false.

Definition isProbablyConversion (s : string) : option bool :=
  u ← URL_new s;
  let p := JsString.toLowerCase (pathname u) in
  Some (existsb (λ h, JsString.includes p h) CONVERSION_HINTS).

(** [new Map(adPages.map(p => [p.finalUrl, p]))]: a later page with the
    same final URL replaces an earlier one. *)
Definition make_byUrl (adPages : list PageFinding) : gmap string PageFinding :=
  foldl (λ m p, <[finalUrl p := p]> m) ∅ adPages.

Definition out_edges (byUrl : gmap string PageFinding) (p : PageFinding) : list string :=
  let ctas := filter (λ l, is_Some (byUrl !! l)) (ctaLinks p) in
  let others := filter (λ l, is_Some (byUrl !! l) ∧ l ∉ ctas) (allOutLinks p) in
  ctas ++ others.

Definition make_adj (byUrl : gmap string PageFinding) (adPages : list PageFinding)
    : gmap string (list string) :=
  foldl (λ m p, <[finalUrl p := out_edges byUrl p]> m) ∅ adPages.

Section Search.
Variable adj : gmap string (list string).
Variable start : string.

Definition bfs_init : bfs_state :=
  {| bfs_queue := [start];
     bfs_visited := {[start]};
     bfs_parent := {[start := None]};
     bfs_depth := {[start := 0%nat]} |}.

(** The body of [for (const nxt of adj.get(cur) || [])]. *)
Definition bfs_visit (cur : string) (d : nat) (st : bfs_state) (nxt : string) : bfs_state :=
  if bool_decide (nxt ∈ bfs_visited st) then st
  else
    {| bfs_queue := bfs_queue st ++ [nxt];
       bfs_visited := {[nxt]} ∪ bfs_visited st;
       bfs_parent := <[nxt := Some cur]> (bfs_parent st);
       bfs_depth := <[nxt := S d]> (bfs_depth st) |}.

Definition bfs_shift (rest : list string) (st : bfs_state) : bfs_state :=
  {| bfs_queue := rest;
     bfs_visited := bfs_visited st;
     bfs_parent := bfs_parent st;
     bfs_depth := bfs_depth st |}.

(** [while (queue.length) { ... }]: the result is [foundConv] and the
    state the loop ends in. *)
Fixpoint bfs_loop (fuel : nat) (st : bfs_state) : run (option string * bfs_state) :=
  match fuel with
  | O => Timeout
  | S fuel' =>
      match bfs_queue st with
      | [] => Done (None, st)
      | cur :: rest =>
          let st := bfs_shift rest st in
          let d := default 0%nat (bfs_depth st !! cur) in
          if bool_decide (maxSteps < d)%nat then bfs_loop fuel' st
          else
            c ← (if bool_decide (cur ≠ start) then attempt (isProbablyConversion cur)
                 else Done false);
            if c : bool then Done (Some cur, st)
            else bfs_loop fuel' (foldl (bfs_visit cur d) st (default [] (adj !! cur)))
      end
  end.

(** [parent.get(cur) || null] *)
Definition parent_of (parent : gmap string (option string)) (cur : string) : option string :=
  match parent !! cur with
  | Some (Some p) => if bool_decide (p = "") then None else Some p
  | _ => None
  end.

(** [while (cur && cur !== start.finalUrl) { steps.push(cur); ... }] *)
Fixpoint walk_parents (fuel : nat) (parent : gmap string (option string))
    (cur : option string) (acc : list string) : run (list string) :=
  match fuel with
  | O => Timeout
  | S fuel' =>
      match cur with
      | Some c =>
          if bool_decide (c ≠ "") && bool_decide (c ≠ start)
          then walk_parents fuel' parent (parent_of parent c) (acc ++ [c])
          else Done acc
      | None => Done acc
      end
  end.
(** The breadth-first order of the search: the nodes the loop takes
    from the queue within the step budget, when it is left to run
    until the queue is empty. *)
Fixpoint bfs_order (fuel : nat) (st : bfs_state) : run (list string) :=
  match fuel with
  | O => Timeout
  | S fuel' =>
      match bfs_queue st with
      | [] => Done []
      | cur :: rest =>
          let st := bfs_shift rest st in
          let d := default 0%nat (bfs_depth st !! cur) in
          if bool_decide (maxSteps < d)%nat then bfs_order fuel' st
          else
            order ← bfs_order fuel' (foldl (bfs_visit cur d) st (default [] (adj !! cur)));
            Done (cur :: order)
      end
  end.

(** [nodes] follows edges of [adj] from [from]. *)
Fixpoint is_path (from : string) (nodes : list string) : Prop :=
  match nodes with
  | [] => True
  | n :: rest => n ∈ default [] (adj !! from) ∧ is_path n rest
  end.
End Search.

(** The confidence before [Math.round].  The numbers are exact here; the
    double-precision ones of the program round to the same integer, the
    scores being integers and the bonus one of 10, 5, 10/3, 2.5 and 2. *)
Definition confidence_of (startScore : Z) (convPage : option PageFinding) (nsteps : nat) : Q :=
  Qmin 100
    (inject_Z (startScore * 2)
     + inject_Z (match convPage with Some p => score p | None => 0 end)
     + (if bool_decide (nsteps = 0%nat) then 0 else 10 / inject_Z (Z.of_nat nsteps)))%Q.

(** The body of [for (const start of adPages)]: [None] is [continue].
    The search runs for at most [S n] rounds, the walk back along the
    parents for at most [S (S maxSteps)]. *)
Definition funnel_from (n : nat) (byUrl : gmap string PageFinding)
    (adj : gmap string (list string)) (start : PageFinding) : run (option FunnelPath) :=
  if bool_decide (score start < AD_LIKE_THRESHOLD) then Done None
  else
    conv ← attempt (isProbablyConversion (finalUrl start));
    if conv : bool then Done None
    else
      r ← bfs_loop adj (finalUrl start) (S n) (bfs_init (finalUrl start));
      match r.1 with
      | None => Done None
      | Some foundConv =>
          if bool_decide (foundConv = "") then Done None
          else
            path ← walk_parents (finalUrl start) (S (S maxSteps))
                     (bfs_parent r.2) (Some foundConv) [];
            let steps := reverse path in
            Done (Some {| landing := finalUrl start;
                          steps := steps;
                          conversion := foundConv;
                          confidence :=
                            Math_round (confidence_of (score start) (byUrl !! foundConv)
                                          (length steps)) |})
      end.

Fixpoint funnels_loop (n : nat) (byUrl : gmap string PageFinding)
    (adj : gmap string (list string)) (starts : list PageFinding)
    (funnels : list FunnelPath) : run (list FunnelPath) :=
  match starts with
  | [] => Done funnels
  | start :: rest =>
      r ← funnel_from n byUrl adj start;
      funnels_loop n byUrl adj rest
        (match r with Some f => funnels ++ [f] | None => funnels end)
  end.

Definition funnel_key (f : FunnelPath) : string :=
  landing f +:+ KEY_SEP +:+ conversion f.

(** [.filter(f => { if (seen.has(key)) return false; seen.add(key); return true; })] *)
Fixpoint dedupe_funnels (seen : gset string) (l : list FunnelPath) : list FunnelPath :=
  match l with
  | [] => []
  | f :: l' =>
      if bool_decide (funnel_key f ∈ seen) then dedupe_funnels seen l'
      else f :: dedupe_funnels ({[funnel_key f]} ∪ seen) l'
  end.

(** The fuel [n] of the searches is the number of pages: a search takes a
    node from the queue at most once and every node is a page
    ([buildFunnels_total]). *)
Definition buildFunnels (adPages : list PageFinding) : run (list FunnelPath) :=
  let byUrl := make_byUrl adPages in
  let adj := make_adj byUrl adPages in
  funnels ← funnels_loop (length adPages) byUrl adj adPages [];
  Done (dedupe_funnels ∅
          (Array_sort (λ a b, confidence b - confidence a) funnels)).

(** *** formatOutputText *)

Definition funnel_line (f : FunnelPath) : string :=
  let chain := JsString.join " -> " (landing f :: steps f) in
  "- [" +:+ pretty (confidence f) +:+ "] " +:+ chain.

Definition page_line (p : PageFinding) : string :=
  "- (" +:+ pretty (score p) +:+ ") " +:+ finalUrl p.

Definition output_lines (baseUrl : string) (adLikePages : list PageFinding)
    (funnels : list FunnelPath) : list string :=
  [ "# Funnel Finder Output"; "Base: " +:+ baseUrl; "";
    "## Funnels (landing -> ... -> conversion)" ]
  ++ (if bool_decide (funnels = []) then ["(none found)"] else funnel_line <$> funnels)
  ++ [ ""; "## Ad-like Pages (best candidates for ads)" ]
  ++ (if bool_decide (adLikePages = []) then ["(none)"] else page_line <$> adLikePages).

Definition formatOutputText (baseUrl : string) (adLikePages : list PageFinding)
    (funnels : list FunnelPath) : string :=
  JsString.join (String "010" "") (output_lines baseUrl adLikePages funnels).

(** *** runFunnelFinder, from the checked pages on (steps 5 to 7) *)

Definition classify (checked : list PageFinding) : list PageFinding :=
  let valid := Array_sort (λ a b, score b - score a) checked in
  take MAX_AD_LIKE (filter (λ p, AD_LIKE_THRESHOLD ≤ score p) valid).

Definition report (baseUrl : string) (checked : list PageFinding)
    : run (list PageFinding * list FunnelPath * string) :=
  let adLikePages := classify checked in
  funnels ← buildFunnels adLikePages;
  Done (adLikePages, funnels, formatOutputText baseUrl adLikePages funnels).

End Funnels.

(** ** crawl.ts: scoring and checking a page *)

Definition FUNNEL_URL_HINTS : list string :=
  [ "lp"; "landing"; "offer"; "vsl"; "webinar"; "quiz";
    "apply"; "book"; "call"; "schedule";
    "pricing"; "checkout"; "order"; "pay"; "cart";
    "thank"; "success"; "confirm"; "complete" ].

Definition CTA_TEXT_HINTS : list string :=
  [ "book"; "apply"; "get started"; "start"; "sign up"; "join";
    "buy"; "purchase"; "continue"; "checkout"; "pay"; "claim"; "reserve"; "submit" ].

Definition TRACKING_HINTS : list string :=
  [ "googletagmanager.com"; "gtm-"; "gtag("; "google-analytics.com";
    "fbq("; "connect.facebook.net"; "pixel"; "tiktok"; "snaptr("; "linkedin"; "bing" ].

(** What [scorePage] reads of the document [cheerio.load(html)] gives.
    [doc_elements] are the elements that match
    [a[href], button, input[type='submit']], in document order, each with
    its tag name, text and the attributes the code reads ([None] for an
    attribute that is not there); the elements of [a[href]] are those of
    them with the tag [a].  [doc_title] is [$("title").first().text()],
    [doc_forms] is [$("form").length] and [doc_robots] the [content] of
    [meta[name='robots']]. *)
Record element := {
  tagName : string;
  el_text : string;
  el_class : option string;
  el_role : option string;
  el_href : option string;
}.

Record document := {
  doc_title : string;
  doc_forms : nat;
  doc_robots : option string;
  doc_elements : list element;
}.

(** What [scorePage] returns. *)
Record Scored := {
  s_score : Z;
  s_reasons : list string;
  s_title : string;
  s_ctaLinks : list string;
  s_allOutLinks : list string;
}.

(** What [fetchStatus] returns; it does not throw. *)
Record StatusResult := {
  st_status : Z;
  st_finalUrl : string;
  st_contentType : option string;
}.

(** A loop whose body can throw. *)
Fixpoint each {A B} (f : B → A → option B) (b : B) (l : list A) : option B :=
  match l with
  | [] => Some b
  | x :: l' => b' ← f b x; each f b' l'
  end.

(** [l.filter(f)] for an [f] that can throw. *)
Fixpoint filter_throwing {A} (f : A → option bool) (l : list A) : option (list A) :=
  match l with
  | [] => Some []
  | x :: l' =>
      keep ← f x;
      rest ← filter_throwing f l';
      Some (if keep : bool then x :: rest else rest)
  end.

Section Score.
Context `{UrlApi}.

(** [cheerio.load] *)
Variable cheerio_load : string → document.

Definition buttonish (el : element) : bool :=
  let cls := JsString.toLowerCase (default "" (el_class el)) in
  let role := JsString.toLowerCase (default "" (el_role el)) in
  bool_decide (role = "button") || JsString.includes cls "btn"
  || JsString.includes cls "button" || JsString.includes cls "cta".

Definition isCtaText (el : element) : bool :=
  let txt := JsString.toLowerCase (JsString.trim (el_text el)) in
  negb (bool_decide (txt = ""))
  && existsb (λ h, JsString.includes txt h) CTA_TEXT_HINTS.

(** The callback of the first [each], on the links added to [ctaLinksSet]
    and [ctaHits]. *)
Definition cta_step (url : string) (acc : list string * nat) (el : element)
    : option (list string * nat) :=
  if bool_decide (tagName el = "a") then
    match toAbsoluteUrl url (default "" (el_href el)) with
    | Some abs =>
        if negb (bool_decide (abs = "")) && buttonish el then
          hit ← (if isCtaText el then Some true else isProbablyConversion abs);
          if hit : bool then
            norm ← stripUtm abs;
            Some (acc.1 ++ [norm], S acc.2)
          else Some acc
        else Some acc
    | None => Some acc
    end
  else if isCtaText el then Some (acc.1, S acc.2)
  else Some acc.

(** The callback of the second [each], on the links added to
    [allOutLinksSet]. *)
Definition out_step (url : string) (acc : list string) (el : element)
    : option (list string) :=
  match toAbsoluteUrl url (default "" (el_href el)) with
  | Some abs =>
      if bool_decide (abs = "") then Some acc
      else norm ← stripUtm abs; Some (acc ++ [norm])
  | None => Some acc
  end.

Definition scorePage (url html : string) : option Scored :=
  u ← URL_new url;
  let path := JsString.toLowerCase (JsString.or_else (pathname u) "/") in
  let hints := filter (λ hint, JsString.includes path hint = true) FUNNEL_URL_HINTS in
  let doc := cheerio_load html in
  let title := JsString.trim (doc_title doc) in
  let htmlLower := JsString.toLowerCase html in
  let trackingHits :=
    length (filter (λ h, JsString.includes htmlLower h = true) TRACKING_HINTS) in
  let formCount := doc_forms doc in
  let robotsMeta := JsString.toLowerCase (default "" (doc_robots doc)) in
  cta ← each (cta_step url) ([], 0%nat) (doc_elements doc);
  let ctaHits := cta.2 in
  let anchors := filter (λ el, tagName el = "a") (doc_elements doc) in
  let linkCount := length anchors in
  outs ← each (out_step url) [] anchors;
  Some
    {| s_score :=
         8 * Z.of_nat (length hints)
         + (if bool_decide (0 < trackingHits)%nat
            then Z.min 20 (Z.of_nat trackingHits * 6) else 0)
         + (if bool_decide (0 < formCount)%nat
            then Z.min 24 (12 + Z.of_nat formCount * 3) else 0)
         + (if JsString.includes robotsMeta "noindex" then 6 else 0)
         + (if bool_decide (0 < ctaHits)%nat then Z.min 18 (Z.of_nat ctaHits * 6) else 0)
         + (if bool_decide (linkCount ≤ 35)%nat then 6 else 0);
       s_reasons :=
         ((λ hint, "url:" +:+ hint) <$> hints)
         ++ (if bool_decide (0 < trackingHits)%nat
             then ["tracking:" +:+ pretty trackingHits] else [])
         ++ (if bool_decide (0 < formCount)%nat then ["forms:" +:+ pretty formCount] else [])
         ++ (if JsString.includes robotsMeta "noindex" then ["meta:noindex"] else [])
         ++ (if bool_decide (0 < ctaHits)%nat then ["cta:" +:+ pretty ctaHits] else [])
         ++ (if bool_decide (linkCount ≤ 35)%nat then ["lowLinks:" +:+ pretty linkCount] else []);
       s_title := title;
       s_ctaLinks := Array_from_Set cta.1;
       s_allOutLinks := Array_from_Set outs |}.

(** *** runFunnelFinder: the candidates and the check of a page *)

(** Step 3: [candidatesRaw], [candidates] and [excludedSamples]. *)
Definition select_step (acc : list string * list string) (u : string)
    : option (list string * list string) :=
  ex ← looksExcluded u;
  Some (if ex : bool
        then (acc.1, if bool_decide (length acc.2 < 30)%nat then acc.2 ++ [u] else acc.2)
        else (acc.1 ++ [u], acc.2)).

Definition select_candidates (baseUrl : string) (smUrls crawled : list string)
    : option (list string * list string * list string) :=
  stripped ← mapM stripUtm (Array_from_Set (smUrls ++ crawled));
  candidatesRaw ← filter_throwing (sameOrigin baseUrl) stripped;
  sel ← each select_step ([], []) candidatesRaw;
  Some (candidatesRaw, sel.1, sel.2).

(** [fetchStatus], and [fetchHtmlWithFallback] ([None] when it throws).
    The cache of the run keeps the text that was fetched for a final URL;
    the task of a page is modelled with the text the site gives for it. *)
Variable fetchStatus : string → StatusResult.
Variable fetchHtml : string → option string.

Definition internal_links (baseUrl : string) (links : list string) : option (list string) :=
  same ← filter_throwing (sameOrigin baseUrl) links;
  filter_throwing (λ l, negb <$> looksExcluded l) same.

(** Step 4, the task of one candidate: [Some None] is a [return] without
    a page. *)
Definition checkPage (baseUrl : string) (robots : RobotsRules) (url : string)
    : option (option PageFinding) :=
  allowed ← isAllowedByRobots baseUrl robots url;
  if negb allowed then Some None
  else
    let r := fetchStatus url in
    if bool_decide (st_status r = 0) then Some None
    else if bool_decide (400 ≤ st_status r) && bool_decide (st_status r < 600) then Some None
    else if match st_contentType r with
            | Some ct =>
                negb (bool_decide (ct = ""))
                && negb (JsString.includes (JsString.toLowerCase ct) "text/html")
            | None => false
            end
    then Some None
    else
      html ← fetchHtml (st_finalUrl r);
      scored ← scorePage (st_finalUrl r) html;
      allInternalLinks ← internal_links baseUrl (s_allOutLinks scored);
      ctaInternalLinks ← internal_links baseUrl (s_ctaLinks scored);
      Some (Some {| pf_url := url; finalUrl := st_finalUrl r; status := st_status r;
                    score := s_score scored; reasons := s_reasons scored;
                    title := Some (s_title scored);
                    ctaLinks := ctaInternalLinks; allOutLinks := allInternalLinks |}).

End Score.

(** ** sitemap.ts *)

(** What [parseSitemapXml] reads of the object [XMLParser.parse] returns:
    the [loc] of every item of [urlset.url] and of [sitemapindex.sitemap]
    ([None] when it is not a string). *)
Record xml_doc := {
  urlset_url : list (option string);
  sitemapindex_sitemap : list (option string);
}.

Record Parsed := { urls : list string; childSitemaps : list string }.

(** What [discoverSitemapUrls] returns. *)
Record Discovered := { d_urls : list string; foundSitemaps : list string }.

(** The state of the loop of [discoverSitemapUrls]; [sm_fetches] records
    every call of [fetchText], with its URL and whether it gave a text. *)
Record sm_state := {
  sm_queue : list string;
  sm_seen : gset string;
  sm_found : list string;
  sm_urls : list string;
  sm_fetches : list (string * bool);
}.

Definition maxSitemapsToFetch : nat := 20.

Section Sitemap.
Context `{UrlApi}.

(** [parser.parse(xml)] of fast-xml-parser; [None] when it throws. *)
Variable XMLParser_parse : string → option xml_doc.

(** [fetchText(url, headers)] for the [n]-th request of the run: the
    body, or [None] for [null]. *)
Variable fetchText : nat → string → option string.

Definition parseSitemapXml (xml : string) : Parsed :=
  match XMLParser_parse xml with
  | None => {| urls := []; childSitemaps := [] |}
  | Some obj =>
      {| urls := JsString.trim <$> omap id (urlset_url obj);
         childSitemaps := JsString.trim <$> omap id (sitemapindex_sitemap obj) |}
  end.

(** [for (const child of parsed.childSitemaps) if (!seenSm.has(child)) queue.push(child)] *)
Definition enqueue_children (seen : gset string) (queue children : list string) : list string :=
  queue ++ filter (λ child, child ∉ seen) children.

Fixpoint discover_loop (fuel : nat) (st : sm_state) : run sm_state :=
  match fuel with
  | O => Timeout
  | S fuel' =>
      match sm_queue st with
      | [] => Done st
      | sm :: rest =>
          if bool_decide (length (sm_found st) < maxSitemapsToFetch)%nat then
            if bool_decide (sm ∈ sm_seen st)
            then discover_loop fuel'
                   {| sm_queue := rest; sm_seen := sm_seen st; sm_found := sm_found st;
                      sm_urls := sm_urls st; sm_fetches := sm_fetches st |}
            else
              let seen := {[sm]} ∪ sm_seen st in
              match fetchText (length (sm_fetches st)) sm with
              | Some text =>
                  if bool_decide (text = "")
                  then discover_loop fuel'
                         {| sm_queue := rest; sm_seen := seen; sm_found := sm_found st;
                            sm_urls := sm_urls st;
                            sm_fetches := sm_fetches st ++ [(sm, false)] |}
                  else
                    let parsed := parseSitemapXml text in
                    discover_loop fuel'
                      {| sm_queue := enqueue_children seen rest (childSitemaps parsed);
                         sm_seen := seen;
                         sm_found := sm_found st ++ [sm];
                         sm_urls := sm_urls st ++ urls parsed;
                         sm_fetches := sm_fetches st ++ [(sm, true)] |}
              | None =>
                  discover_loop fuel'
                    {| sm_queue := rest; sm_seen := seen; sm_found := sm_found st;
                       sm_urls := sm_urls st;
                       sm_fetches := sm_fetches st ++ [(sm, false)] |}
              end
          else Done st
      end
  end.

Definition sm_init (base : url) (extraSitemaps : list string) : sm_state :=
  let defaults := [protocol base +:+ "//" +:+ host base +:+ "/sitemap.xml"] in
  {| sm_queue := Array_from_Set (defaults ++ extraSitemaps);
     sm_seen := ∅; sm_found := []; sm_urls := []; sm_fetches := [] |}.

(** The result, with the requests that were made. *)
Definition discoverSitemapUrls (fuel : nat) (baseUrl : string) (extraSitemaps : list string)
    : run (Discovered * list (string * bool)) :=
  base ← attempt (URL_new baseUrl);
  st ← discover_loop fuel (sm_init base extraSitemaps);
  Done ({| d_urls := Array_from_Set (sm_urls st);
           foundSitemaps := Array_from_Set (sm_found st) |}, sm_fetches st).

End Sitemap.

(** ** crawl.ts: crawlInternalLinks *)

Record crawl_state := {
  c_queue : list (string * nat);
  c_seen : gset string;
  c_found : list string;
}.

Definition maxQueue : nat := 5000.

(** The budgets [runFunnelFinder] passes to the crawler. *)
Definition MAX_PAGES : nat := 350.
Definition MAX_DEPTH : nat := 4.

Section Crawl.
Context `{UrlApi}.

(** The site: what fetching a URL gives once [n] URLs were emitted, as
    the [href] of the [a[href]] elements of the document, in document
    order; [None] when [fetchHtmlWithFallback] throws.  (A server may
    answer the same URL differently at different times.) *)
Variable fetchLinks : nat → string → option (list string).

Variable base : string.
Variable robots : RobotsRules.
Variables maxPages maxDepth : nat.

(** The callback of [$("a[href]").each(...)], on the queue and the seen
    set. *)
Definition crawl_link (pageUrl : string) (depth : nat)
    (acc : list (string * nat) * gset string) (href : string)
    : run (list (string * nat) * gset string) :=
  match toAbsoluteUrl pageUrl href with
  | None => Done acc
  | Some abs =>
      if bool_decide (abs = "") then Done acc
      else
      so ← attempt (sameOrigin base abs);
      if negb so then Done acc
      else
        norm ← attempt (stripUtm abs);
        if bool_decide (norm ∈ acc.2) then Done acc
        else
          let seen := {[norm]} ∪ acc.2 in
          ex ← attempt (looksExcluded norm);
          if ex : bool then Done (acc.1, seen)
          else Done (acc.1 ++ [(norm, S depth)], seen)
  end.

Fixpoint crawl_links (pageUrl : string) (depth : nat)
    (acc : list (string * nat) * gset string) (hrefs : list string)
    : run (list (string * nat) * gset string) :=
  match hrefs with
  | [] => Done acc
  | href :: rest =>
      acc' ← crawl_link pageUrl depth acc href;
      crawl_links pageUrl depth acc' rest
  end.

Fixpoint crawl_loop (fuel : nat) (st : crawl_state) : run (list string) :=
  match fuel with
  | O => Timeout
  | S fuel' =>
      match c_queue st with
      | [] => Done (c_found st)
      | (u, depth) :: rest =>
          if bool_decide (length (c_found st) < maxPages)%nat
             && bool_decide (length (c_queue st) < maxQueue)%nat
          then
            allowed ← attempt (isAllowedByRobots base robots u);
            if negb allowed
            then crawl_loop fuel'
                   {| c_queue := rest; c_seen := c_seen st; c_found := c_found st |}
            else
              let found := c_found st ++ [u] in
              if bool_decide (maxDepth ≤ depth)%nat
              then crawl_loop fuel' {| c_queue := rest; c_seen := c_seen st; c_found := found |}
              else
                match fetchLinks (length (c_found st)) u with
                | None =>
                    crawl_loop fuel'
                      {| c_queue := rest; c_seen := c_seen st; c_found := found |}
                | Some hrefs =>
                    acc ← crawl_links u depth (rest, c_seen st) hrefs;
                    crawl_loop fuel'
                      {| c_queue := acc.1; c_seen := acc.2; c_found := found |}
                end
          else Done (c_found st)
      end
  end.

End Crawl.

Definition crawlInternalLinks `{UrlApi} (fetchLinks : nat → string → option (list string))
    (fuel : nat) (seedUrl : string) (robots : RobotsRules) (maxPages maxDepth : nat)
    : run (list string) :=
  base ← attempt (normalizeUrl seedUrl);
  seen0 ← attempt (stripUtm base);
  found ← crawl_loop fetchLinks base robots maxPages maxDepth fuel
             {| c_queue := [(base, 0%nat)]; c_seen := {[seen0]}; c_found := [] |};
  Done (Array_from_Set found).

(** [u] was found on one of [pages]: a link of the page, made absolute, is
    on the origin of [base], becomes [u] without its tracking parameters,
    and [u] is not excluded. *)
Definition linked_from `{UrlApi} (fetchLinks : nat → string → option (list string))
    (base : string) (pages : list string) (u : string) : Prop :=
  ∃ pageUrl i hrefs href abs,
    pageUrl ∈ pages ∧ fetchLinks i pageUrl = Some hrefs ∧ href ∈ hrefs
    ∧ toAbsoluteUrl pageUrl href = Some abs ∧ sameOrigin base abs = Some true
    ∧ stripUtm abs = Some u ∧ looksExcluded u = Some false.

(** ** Invariants and measures of the loops *)

Section SearchSpec.
Context `{UrlApi}.
Variable adj : gmap string (list string).
Variable start : string.
Variable U : gset string.

(** A node the search has expanded: the start, or a node that was found
    not to be a conversion page. *)
Definition expanded (p : string) : Prop :=
  p = start ∨ isProbablyConversion p = Some false.

(** The invariant of the search loop: the visited nodes other than the
    start have a parent that was expanded within the budget, one level
    above them, and an edge from it. *)
Record bfs_inv (st : bfs_state) : Prop := {
  inv_start : start ∈ bfs_visited st;
  inv_depth0 : bfs_depth st !! start = Some 0%nat;
  inv_queue : ∀ n, n ∈ bfs_queue st → n ∈ bfs_visited st;
  inv_univ : bfs_visited st ⊆ U;
  inv_tree : ∀ n, n ∈ bfs_visited st → n ≠ start →
    ∃ p d, bfs_parent st !! n = Some (Some p) ∧ bfs_depth st !! p = Some d ∧
           bfs_depth st !! n = Some (S d) ∧ (d ≤ maxSteps)%nat ∧
           p ∈ bfs_visited st ∧ n ∈ default [] (adj !! p) ∧ expanded p;
}.

(** What decreases at every round of the search loop. *)
Definition bfs_measure (st : bfs_state) : nat :=
  (length (bfs_queue st) + size (U ∖ bfs_visited st))%nat.

(** [back_path n l]: [l] lists [n], its parent, and so on up to a child
    of the start, each an out-edge of the next. *)
Inductive back_path : string → list string → Prop :=
| back_start : back_path start []
| back_step n p rest :
    n ≠ start → n ∈ default [] (adj !! p) → back_path p rest → back_path n (n :: rest).
End SearchSpec.

Section FunnelSpec.
Context `{UrlApi}.
Variable adPages : list PageFinding.

(** What [buildFunnels adPages] guarantees of the funnel it builds from
    the landing candidate [start]. *)
Record funnel_ok (start : PageFinding) (f : FunnelPath) : Prop := {
  ok_landing : landing f = finalUrl start;
  ok_score : AD_LIKE_THRESHOLD ≤ score start;
  ok_not_conv : isProbablyConversion (landing f) = Some false;
  ok_conv : isProbablyConversion (conversion f) = Some true;
  ok_conv_ne : conversion f ≠ landing f;
  ok_path : is_path (make_adj (make_byUrl adPages) adPages) (landing f) (steps f);
  ok_last : ∃ mids, steps f = mids ++ [conversion f];
  ok_length : (length (steps f) ≤ maxSteps)%nat;
  ok_nodes : ∀ u, u ∈ steps f → u ∈ dom (make_byUrl adPages);
  ok_nodup : NoDup (landing f :: steps f);
  ok_first : ∃ order pre post,
    bfs_order (make_adj (make_byUrl adPages) adPages) (S (length adPages))
      (bfs_init (landing f)) = Done order
    ∧ order = pre ++ conversion f :: post
    ∧ ∀ n, n ∈ pre → expanded (landing f) n;
  ok_confidence : ∃ convPage,
    make_byUrl adPages !! conversion f = Some convPage
    ∧ confidence f =
        Math_round (confidence_of (score start) (Some convPage) (length (steps f)));
}.
End FunnelSpec.

Section SearchLevels.
Variable start : string.

(** [depth.get(n) || 0] *)
Definition depth_of (st : bfs_state) (n : string) : nat :=
  default 0%nat (bfs_depth st !! n).

(** The queue holds its nodes in the order of their depths, which are [d]
    or [d + 1]. *)
Definition queue_levels (d : nat) (st : bfs_state) : Prop :=
  (∀ a, a ∈ bfs_queue st → (d ≤ depth_of st a ≤ S d)%nat)
  ∧ ∀ i j a b, (i ≤ j)%nat →
      bfs_queue st !! i = Some a → bfs_queue st !! j = Some b →
      (depth_of st a ≤ depth_of st b)%nat.

(** A node of the path from [start] waits in the queue, at a depth that
    is not more than its place on the path, and no node after it on the
    path has been visited. *)
Definition path_pending (path : list string) (st : bfs_state) : Prop :=
  ∃ l1 a l2,
    start :: path = l1 ++ a :: l2 ∧ a ∈ bfs_queue st
    ∧ (depth_of st a ≤ length l1)%nat ∧ ∀ b, b ∈ l2 → b ∉ bfs_visited st.
End SearchLevels.

(** The number of requests of a log that gave a text. *)
Definition fetch_successes (log : list (string * bool)) : nat :=
  length (filter (λ e, e.2 = true) log).

(** No request follows the [n]-th success: a part of the log that holds
    [n] successes is the whole log. *)
Definition no_fetch_after (n : nat) (log : list (string * bool)) : Prop :=
  ∀ pre post, log = pre ++ post → (n ≤ fetch_successes pre)%nat → post = [].

(** The invariant of the loop of [discoverSitemapUrls]. *)
Definition sm_inv (st : sm_state) : Prop :=
  length (sm_found st) = fetch_successes (sm_fetches st)
  ∧ (length (sm_found st) ≤ maxSitemapsToFetch)%nat
  ∧ no_fetch_after maxSitemapsToFetch (sm_fetches st).

Section SitemapSpec.
Variable XMLParser_parse : string → option xml_doc.
Variable fetchText : nat → string → option string.

(** [u] is a [loc] of a document that one of the first [n] requests of
    the log fetched; [sel] is [urlset_url] or [sitemapindex_sitemap]. *)
Definition listed (sel : xml_doc → list (option string)) (log : list (string * bool))
    (n : nat) (u : string) : Prop :=
  ∃ i sm text doc loc,
    (i < n)%nat ∧ log !! i = Some (sm, true) ∧ fetchText i sm = Some text
    ∧ XMLParser_parse text = Some doc ∧ Some loc ∈ sel doc ∧ u = JsString.trim loc.

(** What the loop keeps of its log, for the sitemaps [known] at the
    start. *)
Record sm_log_inv (known : list string) (st : sm_state) : Prop := {
  log_seen : ∀ e, e ∈ sm_fetches st → e.1 ∈ sm_seen st;
  log_nodup : NoDup (sm_fetches st).*1;
  log_found : sm_found st = (filter (λ e, e.2 = true) (sm_fetches st)).*1;
  log_urls : ∀ u, u ∈ sm_urls st →
    listed urlset_url (sm_fetches st) (length (sm_fetches st)) u;
  log_queue : ∀ q, q ∈ sm_queue st →
    q ∈ known ∨ listed sitemapindex_sitemap (sm_fetches st) (length (sm_fetches st)) q;
  log_requests : ∀ j e, sm_fetches st !! j = Some e →
    e.1 ∈ known ∨ listed sitemapindex_sitemap (sm_fetches st) j e.1;
}.
End SitemapSpec.

(** ** A reference implementation of the URL class *)

(** [RefUrl] implements [UrlApi] for the URLs
    [http(s)://host/path?query#fragment] whose host is made of letters,
    digits, [-] and [.] (no port, no user, no number, no punycode), and
    whose path, query and fragment hold only characters the URL Standard
    leaves as they are (and no dot segment).  On these it follows the URL
    Standard: scheme and host are lower-cased, an empty path is [/], the
    query is parsed and serialised as [application/x-www-form-urlencoded],
    where decoding a text as UTF-8 is the identity on the bytes.  Any other
    input is rejected. *)
Module Ref.

Fixpoint all_chars (P : ascii → bool) (s : string) : bool :=
  match s with
  | EmptyString => true
  | String a s' => P a && all_chars P s'
  end.

Definition is_digit (a : ascii) : bool :=
  let n := N_of_ascii a in ((48 <=? n) && (n <=? 57))%N.
Definition is_lower (a : ascii) : bool :=
  let n := N_of_ascii a in ((97 <=? n) && (n <=? 122))%N.
Definition is_upper (a : ascii) : bool :=
  let n := N_of_ascii a in ((65 <=? n) && (n <=? 90))%N.
Definition is_alnum (a : ascii) : bool := is_digit a || is_lower a || is_upper a.

Definition one_of (cs : string) (a : ascii) : bool :=
  JsString.includes cs (String a "").

Definition scheme_char (a : ascii) : bool := is_alnum a || one_of "+-." a.
Definition host_char (a : ascii) : bool := is_digit a || is_lower a || one_of "-." a.
Definition path_char (a : ascii) : bool := is_alnum a || one_of "/-._~!$&'()*+,;=:@%" a.
Definition query_char (a : ascii) : bool := is_alnum a || one_of "/-._~!$&()*+,;=:@%?" a.
Definition fragment_char (a : ascii) : bool := is_alnum a || one_of "/-._~!$&'()*+,;=:@%?" a.

(** The last character of [s] is in [P]. *)
Fixpoint ends_in (P : ascii → bool) (s : string) : bool :=
  match s with
  | EmptyString => false
  | String a EmptyString => P a
  | String _ s' => ends_in P s'
  end.

(** A host name that the URL Standard only lower-cases: not a number, no
    punycode label. *)
Definition host_ok (h : string) : bool :=
  all_chars host_char h && ends_in is_lower h
  && negb (JsString.includes h "0x") && negb (JsString.includes h "xn--").

(** A path that the URL Standard leaves as it is: no dot segment, plain or
    percent-encoded. *)
Definition path_ok (p : string) : bool :=
  all_chars path_char p && negb (JsString.includes p "/.")
  && negb (JsString.includes (JsString.toLowerCase p) "%2e").

(** *** application/x-www-form-urlencoded *)

Definition hex_digit (n : N) : ascii :=
  if (n <? 10)%N then ascii_of_N (48 + n) else ascii_of_N (55 + n).

Definition hex_value (a : ascii) : option N :=
  let n := N_of_ascii a in
  if is_digit a then Some (n - 48)%N
  else if ((65 <=? n) && (n <=? 70))%N then Some (n - 55)%N
  else if ((97 <=? n) && (n <=? 102))%N then Some (n - 87)%N
  else None.

Definition form_safe (a : ascii) : bool := is_alnum a || one_of "*-._" a.

Fixpoint form_encode (s : string) : string :=
  match s with
  | EmptyString => EmptyString
  | String a s' =>
      if form_safe a then String a (form_encode s')
      else if bool_decide (a = " "%char) then String "+" (form_encode s')
      else
        let n := N_of_ascii a in
        String "%" (String (hex_digit (n / 16)) (String (hex_digit (n mod 16)) (form_encode s')))
  end.

Fixpoint form_decode (s : string) : string :=
  match s with
  | EmptyString => EmptyString
  | String a s' =>
      if bool_decide (a = "+"%char) then String " " (form_decode s')
      else if bool_decide (a = "%"%char) then
        match s' with
        | String h (String l s'') =>
            match hex_value h, hex_value l with
            | Some x, Some y => String (ascii_of_N (16 * x + y)) (form_decode s'')
            | _, _ => String a (form_decode s')
            end
        | _ => String a (form_decode s')
        end
      else String a (form_decode s')
  end.

Definition serialize_params (l : list (string * string)) : string :=
  JsString.join "&" ((λ kv, form_encode kv.1 +:+ "=" +:+ form_encode kv.2) <$> l).

(** The pieces between the [&] of a query, from the left. *)
Fixpoint query_pieces (fuel : nat) (q : string) : list string :=
  match fuel with
  | O => []
  | S fuel' =>
      match JsString.split_on "&" q with
      | (piece, Some rest) => piece :: query_pieces fuel' rest
      | (piece, None) => [piece]
      end
  end.

Definition parse_piece (piece : string) : string * string :=
  let r := JsString.split_on "=" piece in
  (form_decode r.1, form_decode (default "" r.2)).

Definition parse_query (q : string) : list (string * string) :=
  parse_piece <$> filter (λ p, p ≠ "") (query_pieces (S (String.length q)) q).

(** *** URL records *)

Record ref_url := {
  r_scheme : string;
  r_host : string;
  r_path : string;
  r_query : option string;
  r_fragment : option string;
  r_params : list (string * string);
}.

(** [strip_prefix p s] is what follows [p] in [s]. *)
Fixpoint strip_prefix (p s : string) : option string :=
  match p, s with
  | EmptyString, _ => Some s
  | String _ _, EmptyString => None
  | String a p', String b s' => if bool_decide (a = b) then strip_prefix p' s' else None
  end.

Definition parse (s : string) : option ref_url :=
  let '(s1, frag) := JsString.split_on "#" s in
  let '(s2, query) := JsString.split_on "?" s1 in
  let '(scheme, after) := JsString.split_on ":" s2 in
  match after ≫= strip_prefix "//" with
  | Some rest =>
      let scheme := JsString.toLowerCase scheme in
      let '(auth, path) := JsString.split_on "/" rest in
      let host := JsString.toLowerCase auth in
      let path := "/" +:+ default "" path in
      if (bool_decide (scheme = "http") || bool_decide (scheme = "https"))
         && host_ok host && path_ok path
         && all_chars query_char (default "" query)
         && all_chars fragment_char (default "" frag)
      then Some {| r_scheme := scheme; r_host := host; r_path := path;
                   r_query := query; r_fragment := frag;
                   r_params := parse_query (default "" query) |}
      else None
  | None => None
  end.

Definition serialize (u : ref_url) : string :=
  r_scheme u +:+ "://" +:+ r_host u +:+ r_path u
  +:+ match r_query u with Some q => "?" +:+ q | None => "" end
  +:+ match r_fragment u with Some f => "#" +:+ f | None => "" end.

Definition update (l : list (string * string)) (u : ref_url) : ref_url :=
  let q := serialize_params l in
  {| r_scheme := r_scheme u; r_host := r_host u; r_path := r_path u;
     r_query := if bool_decide (q = "") then None else Some q;
     r_fragment := r_fragment u;
     r_params := l |}.

Definition drop_fragment (u : ref_url) : ref_url :=
  {| r_scheme := r_scheme u; r_host := r_host u; r_path := r_path u;
     r_query := r_query u; r_fragment := None; r_params := r_params u |}.

(** The directory of a path: up to its last [/]. *)
Fixpoint dirname (p : string) : string :=
  match p with
  | EmptyString => EmptyString
  | String a p' =>
      if JsString.includes p' "/" then String a (dirname p')
      else if bool_decide (a = "/"%char) then "/" else EmptyString
  end.

Definition has_scheme (h : string) : bool :=
  match JsString.split_on ":" h with
  | (pre, Some _) => negb (bool_decide (pre = "")) && all_chars scheme_char pre
  | _ => false
  end.

(** [new URL(h, b)]: [h] absolute, or relative to the parsed [b]. *)
Definition parse_base (h b : string) : option ref_url :=
  if has_scheme h then parse h
  else
    ub ← parse b;
    let origin := r_scheme ub +:+ "://" +:+ r_host ub in
    if JsString.startsWith h "//" then parse (r_scheme ub +:+ ":" +:+ h)
    else if JsString.startsWith h "/" then parse (origin +:+ h)
    else if bool_decide (h = "") then Some (drop_fragment ub)
    else if JsString.startsWith h "?" then parse (origin +:+ r_path ub +:+ h)
    else if JsString.startsWith h "#"
    then parse (origin +:+ r_path ub
                +:+ match r_query ub with Some q => "?" +:+ q | None => "" end +:+ h)
    else parse (origin +:+ dirname (r_path ub) +:+ h).

End Ref.

#[global] Instance RefUrl : UrlApi := {|
  url := Ref.ref_url;
  URL_new := Ref.parse;
  URL_new_base := Ref.parse_base;
  protocol u := Ref.r_scheme u +:+ ":";
  host := Ref.r_host;
  pathname := Ref.r_path;
  searchParams := Ref.r_params;
  searchParams_update := Ref.update;
  clear_hash := Ref.drop_fragment;
  toString := Ref.serialize;
|}.

Module RefSpec.
Import Ref.

(** The records [Ref.parse] builds and [Ref.update] keeps. *)
Record wf (u : ref_url) : Prop := {
  wf_scheme : r_scheme u = "http" ∨ r_scheme u = "https";
  wf_host : host_ok (r_host u) = true;
  wf_path : ∃ p, r_path u = String "/" p ∧ path_ok (r_path u) = true;
  wf_query : all_chars query_char (default "" (r_query u)) = true;
  wf_fragment : all_chars fragment_char (default "" (r_fragment u)) = true;
  wf_params : r_params u = parse_query (default "" (r_query u));
}.
End RefSpec.

(** [c] does not occur in [s]. *)
Definition no_char (c : ascii) (s : string) : bool :=
  Ref.all_chars (λ a, negb (bool_decide (a = c))) s.

(** A string of ASCII characters, as the serialisation of a URL is. *)
Definition ascii_only (s : string) : bool :=
  Ref.all_chars (λ a, (N_of_ascii a <? 128)%N) s.

(** ** A small site, to run the code on *)

Definition example_page (u : string) (sc : Z) (cta outs : list string) : PageFinding :=
  {| pf_url := u; finalUrl := u; status := 200; score := sc; reasons := [];
     title := None; ctaLinks := cta; allOutLinks := outs |}.

Definition ex_home : string := "https://shop.example/".
Definition ex_offer : string := "https://shop.example/offer".
Definition ex_plan : string := "https://shop.example/plan".
Definition ex_checkout : string := "https://shop.example/checkout".

(** [/offer] links to [/plan], which links to [/checkout]; the home page
    scores below the threshold. *)
Definition example_checked : list PageFinding :=
  [ example_page ex_home 6 [] [ex_offer];
    example_page ex_offer 30 [ex_plan] [ex_plan; ex_home];
    example_page ex_plan 20 [] [ex_checkout; ex_offer];
    example_page ex_checkout 25 [] [] ].

Definition example_pages : list PageFinding := classify example_checked.

Definition example_funnel : FunnelPath :=
  {| landing := ex_offer; steps := [ex_plan; ex_checkout];
     conversion := ex_checkout; confidence := 90 |}.

Definition example_funnel_direct : FunnelPath :=
  {| landing := ex_plan; steps := [ex_checkout];
     conversion := ex_checkout; confidence := 75 |}.

(** A hostile sitemap server: every document is an index of two further
    sitemaps. *)
Definition endless_index (text : string) : option xml_doc :=
  Some {| urlset_url := [];
          sitemapindex_sitemap := [Some (text +:+ "a"); Some (text +:+ "b")] |}.

(** The site of the crawler's stress test: a complete graph, every page of
    which links to all [n] pages. *)
Definition complete_graph_links (n : nat) : list string :=
  (λ i : nat, "/p" +:+ pretty i) <$> seq 0 n.

Definition complete_site (n : nat) : nat → string → option (list string) :=
  λ _ _, Some (complete_graph_links n).

(** A site with a sitemap index of three entries: a sitemap of pages (one
    of them named twice), an entry without [loc], and a sitemap that is
    missing. *)
Definition example_sitemap_fetch : nat → string → option string :=
  λ _ u,
    if bool_decide (u = "https://shop.example/sitemap.xml") then Some "index"
    else if bool_decide (u = "https://shop.example/sm-pages.xml") then Some "pages"
    else None.

Definition example_sitemap_parse (text : string) : option xml_doc :=
  if bool_decide (text = "index") then
    Some {| urlset_url := [];
            sitemapindex_sitemap :=
              [ Some " https://shop.example/sm-pages.xml "; None;
                Some "https://shop.example/sm-missing.xml" ] |}
  else if bool_decide (text = "pages") then
    Some {| urlset_url :=
              [ Some "https://shop.example/offer"; Some "https://shop.example/offer ";
                Some "https://shop.example/checkout" ];
            sitemapindex_sitemap := [] |}
  else None.

Definition example_discovered : Discovered :=
  {| d_urls := ["https://shop.example/offer"; "https://shop.example/checkout"];
     foundSitemaps := ["https://shop.example/sitemap.xml"; "https://shop.example/sm-pages.xml"] |}.

Definition example_sitemap_log : list (string * bool) :=
  [ ("https://shop.example/sitemap.xml", true);
    ("https://shop.example/sm-pages.xml", true);
    ("https://shop.example/sm-missing.xml", false) ].

(** A landing page with a form, a script of a tag manager and three
    elements: a button-like link to the checkout page with tracking
    parameters, a plain link to the same page, and a submit button. *)
Definition example_html : string :=
  "<title> Offer </title><script src=//www.googletagmanager.com/gtm.js></script>".

Definition example_document (html : string) : document :=
  {| doc_title := " Offer ";
     doc_forms := 1;
     doc_robots := None;
     doc_elements :=
       [ {| tagName := "a"; el_text := " Buy now "; el_class := Some "Btn primary";
            el_role := None; el_href := Some "/checkout?utm_source=lp" |};
         {| tagName := "a"; el_text := "the plan"; el_class := None;
            el_role := None; el_href := Some "checkout#pay" |};
         {| tagName := "button"; el_text := "Submit"; el_class := None;
            el_role := None; el_href := None |} ] |}.

Definition example_scored : Scored :=
  {| s_score := 8 + 6 + 15 + 12 + 6;
     s_reasons := ["url:offer"; "tracking:1"; "forms:1"; "cta:2"; "lowLinks:2"];
     s_title := "Offer";
     s_ctaLinks := [ex_checkout];
     s_allOutLinks := [ex_checkout] |}.

Definition example_status (url : string) : StatusResult :=
  {| st_status := 200; st_finalUrl := url; st_contentType := Some "Text/HTML; charset=utf-8" |}.

Definition no_rules : RobotsRules := {| sitemaps := []; disallow := [] |}.

(** A site of two pages, whose text is their URL: the offer page has a
    form and a button-like link to the checkout page, the checkout page a
    form. *)
Definition example_site_document (html : string) : document :=
  {| doc_title := html;
     doc_forms := 1;
     doc_robots := None;
     doc_elements :=
       if bool_decide (html = ex_offer)
       then [ {| tagName := "a"; el_text := "Buy now"; el_class := Some "btn";
                 el_role := None; el_href := Some "/checkout?gclid=1" |} ]
       else [] |}.

Definition example_site_check (url : string) : option (option PageFinding) :=
  checkPage (H := RefUrl) example_site_document example_status (λ u, Some u)
    ex_home no_rules url.

Definition example_site_checked : list PageFinding :=
  omap (λ url, default None (example_site_check url)) [ex_offer; ex_checkout].

(** A robots.txt with a comment, an empty [Disallow] and a group for
    another agent. *)
Definition example_robots_txt : string :=
  JsString.join (String "010" "")
    [ "User-Agent: *" +:+ String "013" "";
      "Disallow: /admin # private";
      "Disallow:";
      "Sitemap: https://shop.example/sm.xml";
      "";
      "User-agent: otherbot";
      "Disallow: /offer" ].

(** A URL with tracking parameters, and what [new URL] makes of it. *)
Definition tracked_url : string :=
  "https://Shop.example/a/b?utm_source=x&b=1%202&c+d=e&gclid=9#top".

Definition tracked_url_object : Ref.ref_url :=
  {| Ref.r_scheme := "https"; Ref.r_host := "shop.example"; Ref.r_path := "/a/b";
     Ref.r_query := Some "utm_source=x&b=1%202&c+d=e&gclid=9";
     Ref.r_fragment := Some "top";
     Ref.r_params := [("utm_source", "x"); ("b", "1 2"); ("c d", "e"); ("gclid", "9")] |}.

(** * Properties *)

(** ** Strings *)

Lemma startsWith_spec (s p : string) :
  JsString.startsWith s p = true ↔ ∃ rest, s = p +:+ rest.
Proof.
  revert s. induction p as [|a p IH]; intros s; simpl.
  - split; [intros _; exists s; reflexivity | done].
  - destruct s as [|b s].
    + split; [done | intros [rest Hr]; discriminate Hr].
    + rewrite andb_true_iff, bool_decide_eq_true, IH. split.
      * intros [-> [rest ->]]. by exists rest.
      * intros [rest Hr]. injection Hr as -> ->. eauto.
Qed.

(** ** robots.ts *)

Section RobotsFacts.
Context `{UrlApi}.

Lemma disallow_loop_false (path : string) (ds : list string) :
  disallow_loop path ds = false ↔
  ∃ dis, dis ∈ ds ∧ dis ≠ "" ∧ ∃ rest, path = dis +:+ rest.
Proof.
  induction ds as [|d ds IH]; simpl.
  - split; [done | intros (dis & Hin & _); by apply elem_of_nil in Hin].
  - case_bool_decide as Hd.
    + rewrite IH. split.
      * intros (dis & Hin & Hne & Hp). exists dis. split; [by right | done].
      * intros (dis & Hin & Hne & Hp). apply elem_of_cons in Hin as [-> | Hin]; [done |].
        by exists dis.
    + destruct (JsString.startsWith path d) eqn:Hs.
      * split; [intros _ | done]. exists d. split; [by left |]. split; [done |].
        by apply startsWith_spec.
      * rewrite IH. split.
        -- intros (dis & Hin & Hne & Hp). exists dis. split; [by right | done].
        -- intros (dis & Hin & Hne & Hp). apply elem_of_cons in Hin as [-> | Hin].
           ++ apply startsWith_spec in Hp. congruence.
           ++ by exists dis.
Qed.

(** [parseRobots] records no empty [Disallow] value. *)
Lemma parseRobots_line_nonempty (robotsUrl raw : string) (st : robots_state) :
  (∀ dis, dis ∈ rs_disallow st → dis ≠ "") →
  ∀ dis, dis ∈ rs_disallow (parseRobots_line robotsUrl st raw) → dis ≠ "".
Proof.
  intros Hst dis. unfold parseRobots_line.
  case_bool_decide; [apply Hst |].
  case_bool_decide; [apply Hst |].
  case_bool_decide; [destruct (URL_new_base _ _); apply Hst |].
  destruct (inStarGroup st && _); [| apply Hst].
  case_bool_decide as Hv; [apply Hst |]. simpl.
  intros [Hin | ->%list_elem_of_singleton]%elem_of_app; [by apply Hst | done].
Qed.

Lemma parseRobots_nonempty (txt robotsUrl : string) (dis : string) :
  dis ∈ disallow (parseRobots txt robotsUrl) → dis ≠ "".
Proof.
  unfold parseRobots. simpl.
  generalize (JsString.split_lines txt) as lines.
  assert (∀ d, d ∈ rs_disallow {| inStarGroup := false; rs_sitemaps := [];
                                  rs_disallow := [] |} → d ≠ "") as Hst
    by (intros d Hd; by apply elem_of_nil in Hd).
  revert Hst. generalize {| inStarGroup := false; rs_sitemaps := []; rs_disallow := [] |}.
  intros st Hst lines. revert st Hst dis.
  induction lines as [|raw lines IH]; intros st Hst dis; simpl; [apply Hst |].
  apply IH. by apply parseRobots_line_nonempty.
Qed.

Lemma fetchRobots_nonempty (fetch : string → option string) (baseUrl : string)
    (rules : RobotsRules) (dis : string) :
  fetchRobots fetch baseUrl = Some rules → dis ∈ disallow rules → dis ≠ "".
Proof.
  unfold fetchRobots. destruct (URL_new baseUrl) as [base|]; simpl; [| done].
  destruct (fetch _) as [text|]; intros [= <-].
  - apply parseRobots_nonempty.
  - simpl. intros Hd. by apply elem_of_nil in Hd.
Qed.

Lemma parseRobots_run :
  parseRobots (H := RefUrl) example_robots_txt "https://shop.example/robots.txt"
  = {| sitemaps := ["https://shop.example/sm.xml"]; disallow := ["/admin"] |}.
Proof. vm_compute. reflexivity. Qed.

(** For the rules [fetchRobots] gives, the entries that count are all the
    recorded ones. *)
Lemma disallow_loop_fetched (fetch : string → option string) (baseUrl path : string)
    (rules : RobotsRules) :
  fetchRobots fetch baseUrl = Some rules →
  disallow_loop path (disallow rules) = false ↔
  ∃ dis, dis ∈ disallow rules ∧ ∃ rest, path = dis +:+ rest.
Proof.
  intros Hf. rewrite disallow_loop_false. split.
  - intros (dis & Hin & _ & Hp). eauto.
  - intros (dis & Hin & Hp). exists dis. split_and!; [done | | done].
    by eapply fetchRobots_nonempty.
Qed.

End RobotsFacts.

(** C7 (as amended).  For parsable [baseUrl] and [candidateUrl],
    [isAllowedByRobots] returns [false] when the candidate is off-origin,
    whatever the rules; for a same-origin candidate it returns [false]
    exactly when the candidate's path ([/] for an empty pathname) has a
    non-empty recorded disallow entry as a string prefix. *)
Theorem isAllowedByRobots_spec `{UrlApi} (baseUrl candidateUrl : string)
    (rules : RobotsRules) (ub uc : url) :
  URL_new baseUrl = Some ub →
  URL_new candidateUrl = Some uc →
  (¬ (protocol ub = protocol uc ∧ host ub = host uc) →
     isAllowedByRobots baseUrl rules candidateUrl = Some false) ∧
  (protocol ub = protocol uc ∧ host ub = host uc →
     ∃ b, isAllowedByRobots baseUrl rules candidateUrl = Some b ∧
          (b = false ↔
           ∃ dis, dis ∈ disallow rules ∧ dis ≠ "" ∧
                  ∃ rest, JsString.or_else (pathname uc) "/" = dis +:+ rest)).
Proof.
  intros Hb Hc. unfold isAllowedByRobots, sameOrigin. rewrite Hb, Hc. simpl.
  split.
  - intros Hne.
    destruct (bool_decide (protocol ub = protocol uc)) eqn:Hp;
      destruct (bool_decide (host ub = host uc)) eqn:Hh; simpl; try done.
    apply bool_decide_eq_true in Hp, Hh. by destruct Hne.
  - intros [Hp Hh].
    rewrite !bool_decide_eq_true_2 by done. simpl.
    eexists. split; [done |]. apply disallow_loop_false.
Qed.

(** The claim C7 as it is written fails on an empty disallow entry: the
    candidate is same-origin and its path starts with the recorded entry
    [""], yet the answer is [true]. *)
Lemma isAllowedByRobots_empty_entry :
  let rules := {| sitemaps := []; disallow := [""] |} in
  sameOrigin "https://shop.example/" "https://shop.example/admin" = Some true ∧
  (∃ dis rest, dis ∈ disallow rules ∧ "/admin" = dis +:+ rest) ∧
  (pathname <$> URL_new "https://shop.example/admin") = Some "/admin" ∧
  isAllowedByRobots "https://shop.example/" rules "https://shop.example/admin" = Some true.
Proof.
  simpl. split; [reflexivity |]. split; [| split; reflexivity].
  exists "", "/admin". split; [by left | reflexivity].
Qed.

Lemma isAllowedByRobots_spec_witness :
  ∃ b, isAllowedByRobots "https://shop.example/"
         {| sitemaps := []; disallow := [""; "/admin"] |} "https://shop.example/admin/x" = Some b ∧
       (b = false ↔
        ∃ dis, dis ∈ [""; "/admin"] ∧ dis ≠ "" ∧ ∃ rest, "/admin/x" = dis +:+ rest).
Proof.
  apply (isAllowedByRobots_spec (H := RefUrl) "https://shop.example/"
           "https://shop.example/admin/x"
           {| sitemaps := []; disallow := [""; "/admin"] |}
           {| Ref.r_scheme := "https"; Ref.r_host := "shop.example"; Ref.r_path := "/";
              Ref.r_query := None; Ref.r_fragment := None; Ref.r_params := [] |}
           {| Ref.r_scheme := "https"; Ref.r_host := "shop.example"; Ref.r_path := "/admin/x";
              Ref.r_query := None; Ref.r_fragment := None; Ref.r_params := [] |}
           eq_refl eq_refl).
  split; reflexivity.
Defined.

(** ** url.ts: partiality *)

(** C10.  [stripUtm] and [sameOrigin] are partial: on an argument that
    [new URL] rejects each of them throws, and on arguments it accepts each
    of them returns. *)
Theorem stripUtm_sameOrigin_partial `{UrlApi} (s : string) :
  URL_new s = None →
  (stripUtm s = None ∧ ∀ b, sameOrigin s b = None ∧ sameOrigin b s = None) ∧
  (∀ a b, is_Some (URL_new a) → is_Some (URL_new b) →
          is_Some (stripUtm a) ∧ is_Some (sameOrigin a b)).
Proof.
  intros Hs. split; [split |].
  - unfold stripUtm. by rewrite Hs.
  - intros b. unfold sameOrigin. rewrite Hs. simpl. split; [done |].
    by destruct (URL_new b).
  - intros a b [ua Ha] [ub Hub]. unfold stripUtm, sameOrigin.
    rewrite Ha, Hub. simpl. split; eauto.
Qed.

Lemma stripUtm_sameOrigin_partial_witness :
  (stripUtm "" = None ∧ ∀ b, sameOrigin "" b = None ∧ sameOrigin b "" = None) ∧
  (stripUtm "/pricing" = None ∧
   ∀ b, sameOrigin "/pricing" b = None ∧ sameOrigin b "/pricing" = None).
Proof.
  split.
  - exact (proj1 (stripUtm_sameOrigin_partial (H := RefUrl) "" eq_refl)).
  - exact (proj1 (stripUtm_sameOrigin_partial (H := RefUrl) "/pricing" eq_refl)).
Defined.

(** ** Arrays *)

Lemma sort_insert_elem {A} (cmp : A → A → Z) (x y : A) (l : list A) :
  y ∈ sort_insert cmp x l ↔ y = x ∨ y ∈ l.
Proof.
  induction l as [|z l IH]; simpl.
  - rewrite list_elem_of_singleton, elem_of_nil. tauto.
  - destruct (cmp x z <=? 0); rewrite !elem_of_cons; [tauto |].
    rewrite IH. tauto.
Qed.

Lemma Array_sort_elem {A} (cmp : A → A → Z) (y : A) (l : list A) :
  y ∈ Array_sort cmp l ↔ y ∈ l.
Proof.
  unfold Array_sort. induction l as [|x l IH]; simpl; [done |].
  rewrite sort_insert_elem, IH, elem_of_cons. tauto.
Qed.

Lemma dedupe_from_elem (seen : gset string) (l : list string) (x : string) :
  x ∈ dedupe_from seen l ↔ x ∈ l ∧ x ∉ seen.
Proof.
  revert seen. induction l as [|y l IH]; intros seen; simpl.
  - split; [intros Hx | intros [Hx _]]; by apply elem_of_nil in Hx.
  - case_bool_decide as Hy.
    + rewrite IH, elem_of_cons. split; [tauto |].
      intros [[-> | Hx] Hn]; [done | tauto].
    + rewrite !elem_of_cons, IH, not_elem_of_union, elem_of_singleton. split.
      * intros [-> | [Hx [Hne Hn]]]; [tauto | tauto].
      * intros [[-> | Hx] Hn]; [by left |].
        destruct (decide (x = y)) as [-> | Hne]; [by left | right; tauto].
Qed.

Lemma dedupe_from_NoDup (seen : gset string) (l : list string) :
  NoDup (dedupe_from seen l).
Proof.
  revert seen. induction l as [|y l IH]; intros seen; simpl.
  - constructor.
  - case_bool_decide; [apply IH |].
    constructor; [| apply IH]. rewrite dedupe_from_elem, not_elem_of_union, elem_of_singleton.
    tauto.
Qed.

Lemma dedupe_from_length (seen : gset string) (l : list string) :
  (length (dedupe_from seen l) ≤ length l)%nat.
Proof.
  revert seen. induction l as [|y l IH]; intros seen; simpl; [done |].
  case_bool_decide; [specialize (IH seen) | specialize (IH ({[y]} ∪ seen))]; simpl; lia.
Qed.

Section FunnelFacts.
Context `{UrlApi}.

Lemma dedupe_funnels_elem (seen : gset string) (l : list FunnelPath) (f : FunnelPath) :
  f ∈ dedupe_funnels seen l → f ∈ l.
Proof.
  revert seen. induction l as [|g l IH]; intros seen; simpl; [done |].
  case_bool_decide.
  - intros Hf. right. by eapply IH.
  - rewrite !elem_of_cons. intros [-> | Hf]; [by left |]. right. by eapply IH.
Qed.

(** *** The maps of [buildFunnels] *)

Lemma foldl_insert_lookup {V} (key : PageFinding → string) (val : PageFinding → V)
    (l : list PageFinding) (m : gmap string V) (u : string) (v : V) :
  foldl (λ m p, <[key p := val p]> m) m l !! u = Some v →
  m !! u = Some v ∨ ∃ p, p ∈ l ∧ key p = u ∧ val p = v.
Proof.
  revert m. induction l as [|p l IH]; intros m; simpl; [by left |].
  intros Hu. apply IH in Hu as [Hu | (q & Hq & Hk & Hv)].
  - destruct (decide (key p = u)) as [<- | Hne].
    + rewrite lookup_insert_eq in Hu. injection Hu as <-. right. exists p.
      split; [by left | done].
    + rewrite lookup_insert_ne in Hu by done. by left.
  - right. exists q. split; [by right | done].
Qed.

Lemma foldl_insert_is_Some {V} (key : PageFinding → string) (val : PageFinding → V)
    (l : list PageFinding) (m : gmap string V) (u : string) :
  is_Some (m !! u) ∨ (∃ p, p ∈ l ∧ key p = u) →
  is_Some (foldl (λ m p, <[key p := val p]> m) m l !! u).
Proof.
  revert m. induction l as [|p l IH]; intros m; simpl.
  - intros [Hm | (p & Hp & _)]; [done | by apply elem_of_nil in Hp].
  - intros [Hm | (q & Hq & Hk)]; apply IH.
    + left. destruct (decide (key p = u)) as [<- | Hne].
      * rewrite lookup_insert_eq. eauto.
      * by rewrite lookup_insert_ne.
    + apply elem_of_cons in Hq as [-> | Hq].
      * left. rewrite <- Hk, lookup_insert_eq. eauto.
      * right. eauto.
Qed.

Lemma foldl_insert_size {V} (key : PageFinding → string) (val : PageFinding → V)
    (l : list PageFinding) (m : gmap string V) :
  (size (foldl (λ m p, <[key p := val p]> m) m l) ≤ size m + length l)%nat.
Proof.
  revert m. induction l as [|p l IH]; intros m; simpl; [lia |].
  etrans; [apply IH |].
  destruct (m !! key p) as [v|] eqn:Hm.
  - assert (size (<[key p := val p]> m) = size m) as ->; [| lia].
    rewrite <- (insert_id m (key p) v) at 2 by done.
    rewrite <- !size_dom, !dom_insert_L. done.
  - rewrite map_size_insert_None by done. lia.
Qed.

Lemma make_byUrl_lookup (adPages : list PageFinding) (u : string) (p : PageFinding) :
  make_byUrl adPages !! u = Some p → p ∈ adPages ∧ finalUrl p = u.
Proof.
  intros Hu. apply (foldl_insert_lookup finalUrl id) in Hu as [Hu | (q & Hq & Hk & Hv)].
  - by rewrite lookup_empty in Hu.
  - simpl in Hv. by subst.
Qed.

Lemma make_byUrl_page (adPages : list PageFinding) (p : PageFinding) :
  p ∈ adPages → is_Some (make_byUrl adPages !! finalUrl p).
Proof.
  intros Hp. apply (foldl_insert_is_Some finalUrl id). right. eauto.
Qed.

Lemma make_byUrl_size (adPages : list PageFinding) :
  (size (dom (make_byUrl adPages)) ≤ length adPages)%nat.
Proof.
  rewrite size_dom. etrans; [apply (foldl_insert_size finalUrl id) |].
  rewrite map_size_empty. lia.
Qed.

Lemma out_edges_elem (byUrl : gmap string PageFinding) (p : PageFinding) (n : string) :
  n ∈ out_edges byUrl p →
  is_Some (byUrl !! n) ∧ (n ∈ ctaLinks p ∨ n ∈ allOutLinks p).
Proof.
  unfold out_edges. rewrite elem_of_app, !list_elem_of_filter. tauto.
Qed.

Lemma make_adj_lookup (byUrl : gmap string PageFinding) (adPages : list PageFinding)
    (u : string) (l : list string) :
  make_adj byUrl adPages !! u = Some l →
  ∃ p, p ∈ adPages ∧ finalUrl p = u ∧ l = out_edges byUrl p.
Proof.
  intros Hu. apply (foldl_insert_lookup finalUrl (out_edges byUrl)) in Hu
    as [Hu | (q & Hq & Hk & Hv)].
  - by rewrite lookup_empty in Hu.
  - eauto.
Qed.

Lemma make_adj_targets (byUrl : gmap string PageFinding) (adPages : list PageFinding)
    (u n : string) :
  n ∈ default [] (make_adj byUrl adPages !! u) → n ∈ dom byUrl.
Proof.
  destruct (make_adj byUrl adPages !! u) as [l|] eqn:Hu; simpl;
    [| intros Hn; by apply elem_of_nil in Hn].
  apply make_adj_lookup in Hu as (p & _ & _ & ->).
  intros [Hn _]%out_edges_elem. by apply elem_of_dom.
Qed.
End FunnelFacts.

Section BfsFacts.
Context `{UrlApi}.
Variable adj : gmap string (list string).
Variable start : string.
Variable U : gset string.
Hypothesis adj_in_U : ∀ u n, n ∈ default [] (adj !! u) → n ∈ U.
Hypothesis start_in_U : start ∈ U.

#[local] Abbreviation inv := (bfs_inv adj start U).
#[local] Abbreviation visit := (bfs_visit).

Lemma bfs_init_inv : inv (bfs_init start).
Proof.
  split; simpl.
  - by apply elem_of_singleton.
  - by rewrite lookup_singleton_eq.
  - intros n Hn. apply list_elem_of_singleton in Hn as ->. by apply elem_of_singleton.
  - intros n Hn. apply elem_of_singleton in Hn as ->. done.
  - intros n Hn Hne. by apply elem_of_singleton in Hn.
Qed.

Lemma bfs_inv_depth (st : bfs_state) (n : string) :
  inv st → n ∈ bfs_visited st → ∃ d, bfs_depth st !! n = Some d.
Proof.
  intros Hi Hn. destruct (decide (n = start)) as [-> | Hne].
  - exists 0%nat. apply Hi.
  - destruct (inv_tree _ _ _ _ Hi n Hn Hne) as (p & d & _ & _ & Hd & _). eauto.
Qed.

Lemma bfs_shift_inv (st : bfs_state) (cur : string) (rest : list string) :
  inv st → bfs_queue st = cur :: rest →
  inv (bfs_shift rest st) ∧ cur ∈ bfs_visited st.
Proof.
  intros Hi Hq. split.
  - destruct Hi as [? ? Hqueue ? ?]. split; simpl; try done.
    intros n Hn. apply Hqueue. rewrite Hq. by right.
  - apply Hi. rewrite Hq. by left.
Qed.

Lemma bfs_visit_measure (cur : string) (d : nat) (st : bfs_state) (nxt : string) :
  nxt ∈ U → bfs_measure U (visit cur d st nxt) = bfs_measure U st.
Proof.
  intros HU. unfold bfs_visit. case_bool_decide as Hvis; [done |].
  unfold bfs_measure. simpl. rewrite length_app. simpl.
  assert (U ∖ bfs_visited st = {[nxt]} ∪ U ∖ ({[nxt]} ∪ bfs_visited st)) as ->.
  { apply set_eq. intros x.
    rewrite elem_of_union, !elem_of_difference, elem_of_union, elem_of_singleton.
    split.
    - intros [Hx Hnv]. destruct (decide (x = nxt)) as [-> | Hne]; [by left |].
      right. split; [done |]. intros [? | ?]; done.
    - intros [-> | [Hx Hnv]]; [done |].
      split; [done |]. intros ?. apply Hnv. by right. }
  rewrite (size_union {[nxt]} (U ∖ ({[nxt]} ∪ bfs_visited st))).
  - rewrite size_singleton. lia.
  - intros x Hx1 Hx2. apply elem_of_singleton in Hx1 as ->.
    apply elem_of_difference in Hx2 as [_ Hx2]. apply Hx2.
    by apply elem_of_union_l, elem_of_singleton.
Qed.

Lemma bfs_visits_measure (cur : string) (d : nat) (l : list string) (st : bfs_state) :
  (∀ nxt, nxt ∈ l → nxt ∈ U) →
  bfs_measure U (foldl (visit cur d) st l) = bfs_measure U st.
Proof.
  revert st. induction l as [|nxt l IH]; intros st Hl; simpl; [done |].
  rewrite IH by (intros n Hn; apply Hl; by right).
  apply bfs_visit_measure, Hl. by left.
Qed.

Lemma bfs_visit_inv (cur : string) (d : nat) (st : bfs_state) (nxt : string) :
  inv st → cur ∈ bfs_visited st → bfs_depth st !! cur = Some d →
  (d ≤ maxSteps)%nat → expanded start cur → nxt ∈ default [] (adj !! cur) →
  inv (visit cur d st nxt) ∧ cur ∈ bfs_visited (visit cur d st nxt)
  ∧ bfs_depth (visit cur d st nxt) !! cur = Some d.
Proof.
  intros Hi Hcur Hd Hle Hex Hnxt. unfold bfs_visit.
  case_bool_decide as Hvis; [done |].
  assert (nxt ≠ cur) as Hnc by (intros ->; done).
  assert (nxt ≠ start) as Hns by (intros ->; apply Hvis, Hi).
  split; [| split]; simpl.
  - split; simpl.
    + apply elem_of_union_r, Hi.
    + rewrite lookup_insert_ne by done. apply Hi.
    + intros n [Hn | Hn]%elem_of_app.
      * apply elem_of_union_r. by apply Hi.
      * apply list_elem_of_singleton in Hn as ->. by apply elem_of_union_l, elem_of_singleton.
    + intros n [Hn | Hn]%elem_of_union.
      * apply elem_of_singleton in Hn as ->. by eapply adj_in_U.
      * by apply Hi.
    + intros n Hn Hne. destruct (decide (n = nxt)) as [-> | Hnn].
      * exists cur, d. rewrite !lookup_insert_eq, lookup_insert_ne by done.
        repeat split; try done. by apply elem_of_union_r.
      * apply elem_of_union in Hn as [Hn | Hn]; [by apply elem_of_singleton in Hn |].
        destruct (inv_tree _ _ _ _ Hi n Hn Hne) as (p & dp & Hp & Hdp & Hdn & Hl & Hpv & He & Hx).
        exists p, dp. rewrite !lookup_insert_ne by (try done; intros ->; done).
        repeat split; try done. by apply elem_of_union_r.
  - by apply elem_of_union_r.
  - by rewrite lookup_insert_ne.
Qed.

Lemma bfs_visits_inv (cur : string) (d : nat) (l : list string) (st : bfs_state) :
  inv st → cur ∈ bfs_visited st → bfs_depth st !! cur = Some d →
  (d ≤ maxSteps)%nat → expanded start cur →
  (∀ nxt, nxt ∈ l → nxt ∈ default [] (adj !! cur)) →
  inv (foldl (visit cur d) st l).
Proof.
  revert st. induction l as [|nxt l IH]; intros st Hi Hcur Hd Hle Hex Hl; simpl; [done |].
  destruct (bfs_visit_inv cur d st nxt) as (Hi' & Hcur' & Hd'); try done.
  { apply Hl. by left. }
  apply IH; try done. intros n Hn. apply Hl. by right.
Qed.

(** *** The search loop *)

Lemma bfs_loop_found (fuel : nat) (st st' : bfs_state) (c : string) :
  inv st → bfs_loop adj start fuel st = Done (Some c, st') →
  inv st' ∧ c ∈ bfs_visited st' ∧ c ≠ start ∧ isProbablyConversion c = Some true
  ∧ ∃ d, bfs_depth st' !! c = Some d ∧ (d ≤ maxSteps)%nat.
Proof.
  revert st. induction fuel as [|fuel IH]; intros st Hi; simpl; [done |].
  destruct (bfs_queue st) as [|cur rest] eqn:Hq; [done |].
  destruct (bfs_shift_inv st cur rest Hi Hq) as [Hi' Hcur].
  destruct (bfs_inv_depth st cur Hi Hcur) as [d Hd]. rewrite Hd. simpl.
  case_bool_decide as Hmax; [by apply IH |].
  assert (d ≤ maxSteps)%nat as Hle by lia.
  assert (∀ n, n ∈ default [] (adj !! cur) → n ∈ default [] (adj !! cur)) as Hl by done.
  case_bool_decide as Hcs.
  - destruct (isProbablyConversion cur) as [[|]|] eqn:Hconv; simpl; [| | done].
    + intros [= <- <-]. split_and!; try done. by exists d.
    + apply IH. apply bfs_visits_inv; try done. by right.
  - simpl. apply IH. apply bfs_visits_inv; try done. left.
    by destruct (decide (cur = start)).
Qed.

Lemma bfs_loop_total (fuel : nat) (st : bfs_state) :
  (bfs_measure U st < fuel)%nat → bfs_loop adj start fuel st ≠ Timeout.
Proof.
  revert st. induction fuel as [|fuel IH]; intros st Hm; simpl; [lia |].
  destruct (bfs_queue st) as [|cur rest] eqn:Hq; [done |].
  assert (bfs_measure U (bfs_shift rest st) < fuel)%nat as Hm'.
  { unfold bfs_measure in *. rewrite Hq in Hm. simpl in *. lia. }
  case_bool_decide; [by apply IH |].
  assert (bfs_loop adj start fuel
            (foldl (visit cur (default 0%nat (bfs_depth (bfs_shift rest st) !! cur)))
               (bfs_shift rest st) (default [] (adj !! cur))) ≠ Timeout) as Hrec.
  { apply IH. rewrite bfs_visits_measure; [done |]. intros n Hn. by eapply adj_in_U. }
  case_bool_decide; simpl; [| done].
  destruct (isProbablyConversion cur) as [[|]|]; simpl; done.
Qed.

Lemma isProbablyConversion_is_Some (n : string) :
  is_Some (URL_new n) → is_Some (isProbablyConversion n).
Proof. intros [u Hu]. unfold isProbablyConversion. rewrite Hu. by eexists. Qed.

(** When every node is a URL, the search does not throw either. *)
Lemma bfs_loop_returns (fuel : nat) (st : bfs_state) :
  inv st → (bfs_measure U st < fuel)%nat →
  (∀ n, n ∈ U → is_Some (URL_new n)) →
  ∃ r, bfs_loop adj start fuel st = Done r.
Proof.
  intros Hi Hm Hurl. revert st Hi Hm.
  induction fuel as [|fuel IH]; intros st Hi Hm; simpl; [lia |].
  destruct (bfs_queue st) as [|cur rest] eqn:Hq; [by eexists |].
  destruct (bfs_shift_inv st cur rest Hi Hq) as [Hi' Hcur].
  assert (bfs_measure U (bfs_shift rest st) < fuel)%nat as Hm'.
  { unfold bfs_measure in *. rewrite Hq in Hm. simpl in *. lia. }
  destruct (bfs_inv_depth st cur Hi Hcur) as [d Hd]. rewrite Hd. simpl.
  case_bool_decide as Hmax; [by apply IH |].
  assert (expanded start cur →
          ∃ r, bfs_loop adj start fuel
                 (foldl (visit cur d) (bfs_shift rest st) (default [] (adj !! cur))) = Done r)
    as Hrec.
  { intros Hex. apply IH.
    - apply bfs_visits_inv; try done. lia.
    - rewrite bfs_visits_measure; [done |]. intros n Hn. by eapply adj_in_U. }
  destruct (isProbablyConversion_is_Some cur) as [b Hb];
    [by apply Hurl, (inv_univ _ _ _ _ Hi) |].
  case_bool_decide as Hcs; simpl.
  - rewrite Hb. simpl. destruct b; [by eexists |]. apply Hrec. by right.
  - apply Hrec. left. by destruct (decide (cur = start)).
Qed.

Lemma bfs_order_total (fuel : nat) (st : bfs_state) :
  (bfs_measure U st < fuel)%nat → ∃ order, bfs_order adj fuel st = Done order.
Proof.
  revert st. induction fuel as [|fuel IH]; intros st Hm; simpl; [lia |].
  destruct (bfs_queue st) as [|cur rest] eqn:Hq; [by eexists |].
  assert (bfs_measure U (bfs_shift rest st) < fuel)%nat as Hm'.
  { unfold bfs_measure in *. rewrite Hq in Hm. simpl in *. lia. }
  case_bool_decide; [by apply IH |].
  destruct (IH (foldl (visit cur (default 0%nat (bfs_depth (bfs_shift rest st) !! cur)))
                  (bfs_shift rest st) (default [] (adj !! cur)))) as [order Ho].
  { rewrite bfs_visits_measure; [done |]. intros n Hn. by eapply adj_in_U. }
  simpl in Ho. rewrite Ho. simpl. by eexists.
Qed.

(** The search returns the first node of the breadth-first order that
    is not the start and is a conversion page. *)
Lemma bfs_loop_first (fuel : nat) (st st' : bfs_state) (order : list string) (c : string) :
  bfs_order adj fuel st = Done order →
  bfs_loop adj start fuel st = Done (Some c, st') →
  ∃ pre post, order = pre ++ c :: post ∧ ∀ n, n ∈ pre → expanded start n.
Proof.
  revert st order. induction fuel as [|fuel IH]; intros st order; simpl; [done |].
  destruct (bfs_queue st) as [|cur rest] eqn:Hq; [done |].
  case_bool_decide; [by apply IH |].
  destruct (bfs_order adj fuel _) as [order'| |] eqn:Ho; simpl; [| done..].
  intros [= <-].
  assert (expanded start cur →
          bfs_loop adj start fuel
            (foldl (visit cur (default 0%nat (bfs_depth (bfs_shift rest st) !! cur)))
               (bfs_shift rest st) (default [] (adj !! cur))) = Done (Some c, st') →
          ∃ pre post, cur :: order' = pre ++ c :: post ∧ ∀ n, n ∈ pre → expanded start n)
    as Hrec.
  { intros Hex Hl. destruct (IH _ _ Ho Hl) as (pre & post & -> & Hpre).
    exists (cur :: pre), post. split; [done |].
    intros n [-> | Hn]%elem_of_cons; [done | by apply Hpre]. }
  case_bool_decide as Hcs; simpl.
  - destruct (isProbablyConversion cur) as [[|]|] eqn:Hconv; simpl; [| | done].
    + intros [= <- <-]. exists [], order'. split; [done |].
      intros n Hn. by apply elem_of_nil in Hn.
    + apply Hrec. by right.
  - apply Hrec. left. by destruct (decide (cur = start)).
Qed.

(** The search stops at a match: the rest of the queue is left as it is. *)
Lemma bfs_loop_stops (fuel : nat) (st : bfs_state) (cur : string) (rest : list string) :
  bfs_queue st = cur :: rest →
  (default 0%nat (bfs_depth st !! cur) ≤ maxSteps)%nat →
  cur ≠ start → isProbablyConversion cur = Some true →
  bfs_loop adj start (S fuel) st = Done (Some cur, bfs_shift rest st).
Proof.
  intros Hq Hd Hne Hconv. simpl. rewrite Hq. simpl.
  rewrite bool_decide_eq_false_2 by lia.
  rewrite bool_decide_eq_true_2 by done. by rewrite Hconv.
Qed.

(** *** The walk back along the parents *)

Hypothesis no_empty_url : URL_new "" = None.

Lemma expanded_nonempty (p : string) : expanded start p → p ≠ start → p ≠ "".
Proof.
  intros [-> | Hp] Hne; [done |]. intros ->.
  unfold isProbablyConversion in Hp. by rewrite no_empty_url in Hp.
Qed.

Lemma walk_parents_back (st : bfs_state) (d : nat) :
  inv st →
  ∀ (n : string) (fuel : nat) (acc : list string),
    n ∈ bfs_visited st → bfs_depth st !! n = Some d → (n = start ∨ n ≠ "") →
    (d < fuel)%nat →
    ∃ path, walk_parents start fuel (bfs_parent st) (Some n) acc = Done (acc ++ path)
            ∧ length path = d ∧ back_path adj start n path
            ∧ NoDup path
            ∧ ∀ m, m ∈ path →
                m ∈ bfs_visited st ∧ m ≠ start
                ∧ ∃ dm, bfs_depth st !! m = Some dm ∧ (dm ≤ d)%nat.
Proof.
  intros Hi. induction d as [|d IH]; intros n fuel acc Hn Hd Hne Hfuel.
  - assert (n = start) as ->.
    { destruct (decide (n = start)) as [| Hns]; [done |].
      destruct (inv_tree _ _ _ _ Hi n Hn Hns) as (p & dp & _ & _ & Hdn & _). congruence. }
    exists []. destruct fuel as [|fuel]; [lia |]. simpl.
    rewrite (bool_decide_eq_false_2 (start ≠ start)) by (intros ?; done).
    rewrite andb_false_r, app_nil_r.
    split_and!; [done | done | apply back_start | apply NoDup_nil_2 |].
    intros m Hm. by apply elem_of_nil in Hm.
  - assert (n ≠ start) as Hns.
    { intros ->. rewrite (inv_depth0 _ _ _ _ Hi) in Hd. done. }
    assert (n ≠ "") as Hnn by (by destruct Hne).
    destruct (inv_tree _ _ _ _ Hi n Hn Hns) as (p & dp & Hp & Hdp & Hdn & Hl & Hpv & He & Hx).
    assert (dp = d) as -> by congruence.
    destruct fuel as [|fuel]; [lia |]. simpl.
    rewrite !bool_decide_eq_true_2 by done. simpl.
    unfold parent_of. rewrite Hp.
    case_bool_decide as Hpe.
    + (* the parent is the empty string: it is the start *)
      assert (p = start) as Hps.
      { destruct (decide (p = start)) as [| Hps]; [done |].
        by destruct (expanded_nonempty p Hx Hps). }
      assert (d = 0%nat) as ->.
      { rewrite Hps, (inv_depth0 _ _ _ _ Hi) in Hdp. congruence. }
      exists [n]. destruct fuel as [|fuel]; [lia |]. simpl.
      split_and!; [done | done | | apply NoDup_singleton |].
      * apply (back_step _ _ _ p); [done | done |]. rewrite Hps. apply back_start.
      * intros m Hm. apply list_elem_of_singleton in Hm as ->. eauto.
    + destruct (IH p fuel (acc ++ [n])) as (path & Hw & Hlen & Hb & Hnd & Hall); try done.
      { destruct (decide (p = start)); [by left | by right]. }
      { lia. }
      exists (n :: path). rewrite Hw, <- app_assoc. simpl.
      split_and!; [done | by rewrite Hlen | by apply (back_step _ _ _ p) | |].
      * apply NoDup_cons. split; [| done]. intros Hin.
        destruct (Hall n Hin) as (_ & _ & dm & Hdm & Hle). rewrite Hdn in Hdm.
        injection Hdm as <-. lia.
      * intros m [-> | Hm]%elem_of_cons; [eauto |].
        destruct (Hall m Hm) as (? & ? & dm & ? & ?). split_and!; [done | done |].
        exists dm. split; [done | lia].
Qed.

(** From the walk, back to front: a path from the start. *)
Lemma last_cons_default (a b : string) (l : list string) :
  default a (last (b :: l)) = default b (last l).
Proof.
  destruct l as [|c l]; [done |].
  replace (last (b :: c :: l)) with (last (c :: l)) by done.
  destruct (last_is_Some (c :: l)) as [_ [x ->]]; done.
Qed.

Lemma is_path_snoc (from : string) (l : list string) (x : string) :
  is_path adj from (l ++ [x]) ↔
  is_path adj from l ∧ x ∈ default [] (adj !! default from (last l)).
Proof.
  revert from. induction l as [|y l IH]; intros from; [simpl; tauto |].
  rewrite last_cons_default. simpl. rewrite IH. tauto.
Qed.

Lemma back_path_forward (n : string) (path : list string) :
  back_path adj start n path →
  is_path adj start (reverse path) ∧ default start (last (reverse path)) = n.
Proof.
  induction 1 as [|n p rest Hns Hedge Hb [IH1 IH2]]; simpl; [done |].
  rewrite reverse_cons, is_path_snoc, last_snoc, IH2. done.
Qed.
End BfsFacts.

Section BuildFacts.
Context `{UrlApi}.
Hypothesis no_empty_url : URL_new "" = None.
Variable adPages : list PageFinding.

#[local] Arguments bfs_loop : simpl never.
#[local] Arguments bfs_order : simpl never.
#[local] Arguments walk_parents : simpl never.

#[local] Abbreviation byUrl := (make_byUrl adPages).
#[local] Abbreviation adj := (make_adj (make_byUrl adPages) adPages).

Lemma init_measure (start : PageFinding) :
  start ∈ adPages →
  (bfs_measure (dom byUrl) (bfs_init (finalUrl start)) < S (length adPages))%nat.
Proof.
  intros Hs. unfold bfs_measure. simpl.
  pose proof (make_byUrl_size adPages) as Hsize.
  pose proof (subseteq_size (dom byUrl ∖ {[finalUrl start]}) (dom byUrl)) as Hsub.
  assert (size (dom byUrl ∖ {[finalUrl start]}) < size (dom byUrl))%nat; [| lia].
  apply subset_size. split.
  - intros x Hx. by apply elem_of_difference in Hx as [? _].
  - intros Hsubset. assert (finalUrl start ∈ dom byUrl ∖ {[finalUrl start]}) as Hin.
    { apply Hsubset, elem_of_dom, make_byUrl_page, Hs. }
    apply elem_of_difference in Hin as [_ Hin]. apply Hin. by apply elem_of_singleton.
Qed.

Lemma funnel_from_ok (start : PageFinding) (f : FunnelPath) :
  start ∈ adPages →
  funnel_from (length adPages) byUrl adj start = Done (Some f) →
  funnel_ok adPages start f.
Proof.
  intros Hs. unfold funnel_from.
  case_bool_decide as Hscore; [intros [=] |].
  destruct (isProbablyConversion (finalUrl start)) as [[|]|] eqn:Hland; simpl;
    [intros [=] | | intros [=]].
  destruct (bfs_loop adj (finalUrl start) (S (length adPages)) (bfs_init (finalUrl start)))
    as [[[c|] st']| |] eqn:Hloop; simpl; [| intros [=]..].
  case_bool_decide as Hce; [intros [=] |].
  assert (∀ u n, n ∈ default [] (adj !! u) → n ∈ dom byUrl) as HU
    by (intros u n; apply make_adj_targets).
  assert (finalUrl start ∈ dom byUrl) as HsU
    by (apply elem_of_dom, make_byUrl_page, Hs).
  destruct (bfs_loop_found adj (finalUrl start) (dom byUrl) HU _ _ _ _
              (bfs_init_inv adj (finalUrl start) (dom byUrl) HsU) Hloop)
    as (Hi & Hcv & Hcs & Hconv & d & Hd & Hle).
  destruct (walk_parents_back adj (finalUrl start) (dom byUrl) no_empty_url st' d Hi
              c (S (S maxSteps)) [] Hcv Hd) as (path & Hw & Hlen & Hb & Hnd & Hall).
  { by right. }
  { unfold maxSteps in *. lia. }
  rewrite Hw. simpl. intros [= <-].
  destruct (back_path_forward adj (finalUrl start) c path Hb) as [Hpath Hlast].
  destruct (bfs_order_total adj (dom byUrl) HU (S (length adPages))
              (bfs_init (finalUrl start)) (init_measure start Hs)) as [order Ho].
  destruct (bfs_loop_first adj (finalUrl start) _ _ _ _ _ Ho Hloop) as (pre & post & Hord & Hpre).
  split; simpl; try done.
  - lia.
  - inversion Hb as [Heq | n p rest Hne Hedge Hrest Heq1 Heq2]; [congruence |].
    exists (reverse rest). by rewrite reverse_cons.
  - rewrite length_reverse. lia.
  - intros u Hu. rewrite elem_of_reverse in Hu. destruct (Hall u Hu) as (Hv & _).
    by apply (inv_univ _ _ _ _ Hi).
  - apply NoDup_cons. split; [| by rewrite reverse_Permutation].
    rewrite elem_of_reverse. intros Hin. by destruct (Hall _ Hin) as (_ & ? & _).
  - exists order, pre, post. done.
  - destruct (proj1 (elem_of_dom byUrl c)) as [convPage Hcp].
    { by apply (inv_univ _ _ _ _ Hi). }
    exists convPage. by rewrite Hcp.
Qed.

Lemma funnel_from_total (start : PageFinding) :
  start ∈ adPages → funnel_from (length adPages) byUrl adj start ≠ Timeout.
Proof.
  intros Hs. unfold funnel_from.
  case_bool_decide as Hscore; [done |].
  destruct (isProbablyConversion (finalUrl start)) as [[|]|] eqn:Hland; simpl; [done | | done].
  assert (∀ u n, n ∈ default [] (adj !! u) → n ∈ dom byUrl) as HU
    by (intros u n; apply make_adj_targets).
  assert (finalUrl start ∈ dom byUrl) as HsU
    by (apply elem_of_dom, make_byUrl_page, Hs).
  pose proof (bfs_loop_total adj (finalUrl start) (dom byUrl) HU (S (length adPages))
                (bfs_init (finalUrl start)) (init_measure start Hs)) as Htot.
  destruct (bfs_loop adj (finalUrl start) (S (length adPages)) (bfs_init (finalUrl start)))
    as [[[c|] st']| |] eqn:Hloop; simpl; try done.
  case_bool_decide as Hce; [done |].
  destruct (bfs_loop_found adj (finalUrl start) (dom byUrl) HU _ _ _ _
              (bfs_init_inv adj (finalUrl start) (dom byUrl) HsU) Hloop)
    as (Hi & Hcv & Hcs & Hconv & d & Hd & Hle).
  destruct (walk_parents_back adj (finalUrl start) (dom byUrl) no_empty_url st' d Hi
              c (S (S maxSteps)) [] Hcv Hd) as (path & Hw & _).
  { by right. }
  { unfold maxSteps in *. lia. }
  by rewrite Hw.
Qed.

Lemma funnels_loop_elem (starts : list PageFinding) (acc fs : list FunnelPath)
    (f : FunnelPath) :
  funnels_loop (length adPages) byUrl adj starts acc = Done fs → f ∈ fs →
  f ∈ acc ∨ ∃ start, start ∈ starts
                     ∧ funnel_from (length adPages) byUrl adj start = Done (Some f).
Proof.
  revert acc. induction starts as [|start rest IH]; intros acc; simpl.
  - intros [= <-]. by left.
  - destruct (funnel_from (length adPages) byUrl adj start) as [[g|]| |] eqn:Hf;
      simpl; [| | done..]; intros Hloop Hin;
      destruct (IH _ Hloop Hin) as [Hacc | (s & Hs & Hfs)].
    + apply elem_of_app in Hacc as [Hacc | Hg]; [by left |].
      apply list_elem_of_singleton in Hg as ->. right. exists start. split; [by left | done].
    + right. exists s. split; [by right | done].
    + by left.
    + right. exists s. split; [by right | done].
Qed.

Lemma funnels_loop_total (starts : list PageFinding) (acc : list FunnelPath) :
  (∀ s, s ∈ starts → s ∈ adPages) →
  funnels_loop (length adPages) byUrl adj starts acc ≠ Timeout.
Proof.
  revert acc. induction starts as [|start rest IH]; intros acc Hsub; simpl; [done |].
  pose proof (funnel_from_total start (Hsub start ltac:(by left))) as Htot.
  destruct (funnel_from (length adPages) byUrl adj start) as [r| |]; simpl; try done.
  apply IH. intros s Hs. apply Hsub. by right.
Qed.

(** Every funnel [buildFunnels] returns was built from a page of
    [adPages], and has the properties of [funnel_ok]. *)
Lemma buildFunnels_ok (fs : list FunnelPath) (f : FunnelPath) :
  buildFunnels adPages = Done fs → f ∈ fs →
  ∃ start, start ∈ adPages ∧ funnel_ok adPages start f.
Proof.
  unfold buildFunnels.
  destruct (funnels_loop (length adPages) byUrl adj adPages []) as [fs0| |] eqn:Hloop;
    simpl; [| done..].
  intros [= <-] Hf%dedupe_funnels_elem%Array_sort_elem.
  destruct (funnels_loop_elem _ _ _ _ Hloop Hf) as [Hnil | (start & Hs & Hfrom)].
  - by apply elem_of_nil in Hnil.
  - exists start. split; [done |]. by apply funnel_from_ok.
Qed.

(** The loops of [buildFunnels] do not run out of fuel. *)
Lemma buildFunnels_total : buildFunnels adPages ≠ Timeout.
Proof.
  unfold buildFunnels.
  pose proof (funnels_loop_total adPages [] (λ s Hs, Hs)) as Htot.
  by destruct (funnels_loop (length adPages) byUrl adj adPages []).
Qed.

(** *** When every final URL parses, a list of funnels is returned *)

Hypothesis pages_parse : ∀ p, p ∈ adPages → is_Some (URL_new (finalUrl p)).

Lemma funnel_from_returns (start : PageFinding) :
  start ∈ adPages → ∃ r, funnel_from (length adPages) byUrl adj start = Done r.
Proof.
  intros Hs. unfold funnel_from.
  case_bool_decide as Hscore; [by eexists |].
  destruct (isProbablyConversion_is_Some (finalUrl start) (pages_parse start Hs))
    as [b Hb].
  rewrite Hb. simpl. destruct b; [by eexists |].
  assert (∀ u n, n ∈ default [] (adj !! u) → n ∈ dom byUrl) as HU
    by (intros ? n; apply make_adj_targets).
  assert (finalUrl start ∈ dom byUrl) as HsU
    by (apply elem_of_dom, make_byUrl_page, Hs).
  destruct (bfs_loop_returns adj (finalUrl start) (dom byUrl) HU (S (length adPages))
              (bfs_init (finalUrl start))
              (bfs_init_inv adj (finalUrl start) (dom byUrl) HsU)
              (init_measure start Hs)) as [[[c|] st'] Hloop].
  { intros n [p Hp]%elem_of_dom. apply make_byUrl_lookup in Hp as [Hp <-].
    by apply pages_parse. }
  2:{ rewrite Hloop. simpl. by eexists. }
  rewrite Hloop. simpl. case_bool_decide as Hce; [by eexists |].
  destruct (bfs_loop_found adj (finalUrl start) (dom byUrl) HU _ _ _ _
              (bfs_init_inv adj (finalUrl start) (dom byUrl) HsU) Hloop)
    as (Hi & Hcv & Hcs & Hconv & d & Hd & Hle).
  destruct (walk_parents_back adj (finalUrl start) (dom byUrl) no_empty_url st' d Hi
              c (S (S maxSteps)) [] Hcv Hd) as (path & Hw & _).
  { by right. }
  { unfold maxSteps in *. lia. }
  rewrite Hw. simpl. by eexists.
Qed.

Lemma funnels_loop_returns (starts : list PageFinding) (acc : list FunnelPath) :
  (∀ s, s ∈ starts → s ∈ adPages) →
  ∃ fs, funnels_loop (length adPages) byUrl adj starts acc = Done fs.
Proof.
  revert acc. induction starts as [|start rest IH]; intros acc Hsub; simpl; [by eexists |].
  destruct (funnel_from_returns start (Hsub start ltac:(by left))) as [r ->]. simpl.
  apply IH. intros s Hs. apply Hsub. by right.
Qed.

Lemma buildFunnels_returns : ∃ fs, buildFunnels adPages = Done fs.
Proof.
  unfold buildFunnels.
  destruct (funnels_loop_returns adPages [] (λ s Hs, Hs)) as [fs ->]. simpl. by eexists.
Qed.
End BuildFacts.

(** ** The pages [runFunnelFinder] classifies as ad-like *)

Lemma classify_elem (checked : list PageFinding) (p : PageFinding) :
  p ∈ classify checked → p ∈ checked ∧ AD_LIKE_THRESHOLD ≤ score p.
Proof.
  unfold classify. intros Hp%subseteq_take.
  apply list_elem_of_filter in Hp as [Hs Hp]. by apply Array_sort_elem in Hp.
Qed.

(** ** [Math.round] and the confidence *)

Lemma Math_round_inject (z : Z) : Math_round (inject_Z z) = z.
Proof.
  unfold Math_round, Qfloor, Qplus, inject_Z. simpl.
  rewrite Z.mul_1_r. symmetry. apply (Z.div_unique _ _ _ 1); lia.
Qed.

Lemma Math_round_mono (q1 q2 : Q) : (q1 <= q2)%Q → Math_round q1 ≤ Math_round q2.
Proof.
  intros Hq. apply Qfloor_resp_le, Qplus_le_compat; [done | apply Qle_refl].
Qed.

Lemma Math_round_min (a b : Q) :
  Math_round (Qmin a b) = Z.min (Math_round a) (Math_round b).
Proof.
  unfold Math_round. destruct (Qlt_le_dec b a) as [Hlt | Hle].
  - apply Qlt_le_weak in Hlt. rewrite (Q.min_r a b Hlt).
    symmetry. apply Z.min_r. by apply Math_round_mono.
  - rewrite (Q.min_l a b Hle). symmetry. apply Z.min_l. by apply Math_round_mono.
Qed.

Lemma bonus_nonneg (k : Z) : 0 < k → (0 <= 10 / inject_Z k)%Q.
Proof.
  intros Hk. apply Qmult_le_0_compat; [done |].
  apply Qinv_le_0_compat. change (inject_Z 0 <= inject_Z k)%Q.
  rewrite <- Zle_Qle. lia.
Qed.

Lemma confidence_of_steps (ls cs : Z) (conv : PageFinding) (n : nat) :
  score conv = cs →
  Math_round (confidence_of ls (Some conv) (S n)) =
  Z.min 100 (Math_round (inject_Z (2 * ls) + inject_Z cs
                         + 10 / inject_Z (Z.of_nat n + 1))%Q).
Proof.
  intros <-. unfold confidence_of. rewrite Math_round_min.
  rewrite bool_decide_eq_false_2 by done.
  replace (Z.of_nat (S n)) with (Z.of_nat n + 1) by lia.
  by rewrite (Z.mul_comm ls 2).
Qed.

(** ** buildFunnels *)

(** C1 (as amended).  The confidence of a funnel [buildFunnels] returns is
    [min(100, round(2*landingScore + conversionScore + 10/(k+1)))], where
    the scores are those of a landing and a conversion page of [adPages]
    and [k] is the number of intermediate steps of the path: the bonus is
    10 divided by the number of edges of the path, which is [k+1]. *)
Theorem buildFunnels_confidence `{UrlApi} (adPages : list PageFinding)
    (fs : list FunnelPath) (f : FunnelPath) :
  URL_new "" = None →
  buildFunnels adPages = Done fs → f ∈ fs →
  ∃ (start conv : PageFinding) (mids : list string),
    start ∈ adPages ∧ conv ∈ adPages
    ∧ finalUrl start = landing f ∧ finalUrl conv = conversion f
    ∧ steps f = mids ++ [conversion f]
    ∧ is_path (make_adj (make_byUrl adPages) adPages) (landing f) (mids ++ [conversion f])
    ∧ confidence f =
        Z.min 100 (Math_round (inject_Z (2 * score start) + inject_Z (score conv)
                               + 10 / inject_Z (Z.of_nat (length mids) + 1))%Q).
Proof.
  intros Hempty Hb Hf.
  destruct (buildFunnels_ok Hempty adPages fs f Hb Hf) as (start & Hs & Hok).
  destruct (ok_last _ _ _ Hok) as [mids Hmids].
  destruct (ok_confidence _ _ _ Hok) as (conv & Hconv & Hc).
  apply make_byUrl_lookup in Hconv as [Hcin Hcurl].
  exists start, conv, mids. split_and!; try done.
  - symmetry. apply Hok.
  - rewrite <- Hmids. apply Hok.
  - rewrite Hc, Hmids, length_app. simpl.
    replace (length mids + 1)%nat with (S (length mids)) by lia.
    by apply confidence_of_steps.
Qed.

Lemma example_run : buildFunnels example_pages = Done [example_funnel; example_funnel_direct].
Proof. vm_compute. reflexivity. Qed.

Lemma buildFunnels_confidence_witness :
  ∃ (start conv : PageFinding) (mids : list string),
    start ∈ example_pages ∧ conv ∈ example_pages
    ∧ finalUrl start = ex_offer ∧ finalUrl conv = ex_checkout
    ∧ [ex_plan; ex_checkout] = mids ++ [ex_checkout]
    ∧ is_path (make_adj (make_byUrl example_pages) example_pages) ex_offer
        (mids ++ [ex_checkout])
    ∧ 90 = Z.min 100 (Math_round (inject_Z (2 * score start) + inject_Z (score conv)
                                  + 10 / inject_Z (Z.of_nat (length mids) + 1))%Q).
Proof.
  apply (buildFunnels_confidence (H := RefUrl) example_pages
           [example_funnel; example_funnel_direct] example_funnel).
  - reflexivity.
  - vm_compute. reflexivity.
  - apply list_elem_of_here.
Defined.

(** The claim C1 as it is written fails on a funnel with one intermediate
    step: the funnel /offer -> /plan -> /checkout has confidence
    2*30 + 25 + 10/2 = 90, and not 2*30 + 25 + 10/1 = 95. *)
Lemma confidence_one_step_counterexample :
  buildFunnels example_pages = Done [example_funnel; example_funnel_direct]
  ∧ steps example_funnel = [ex_plan] ++ [conversion example_funnel]
  ∧ score <$> (make_byUrl example_pages !! landing example_funnel) = Some 30
  ∧ score <$> (make_byUrl example_pages !! conversion example_funnel) = Some 25
  ∧ confidence example_funnel = 90
  ∧ Z.min 100 (Math_round (inject_Z (2 * 30) + inject_Z 25
                           + 10 / inject_Z (Z.of_nat (length [ex_plan])))%Q) = 95.
Proof.
  split_and!; vm_compute; reflexivity.
Qed.

(** C4.  For a funnel [buildFunnels] returns, [steps] is a path of the
    link graph from the landing page, without repeated node, that ends in
    the conversion page and has at most [maxSteps] = 5 edges; the
    conversion page is the first node of the breadth-first order from the
    landing page that is not the landing page and matches the conversion
    heuristic; and the search loop returns as soon as it takes such a node
    from the queue, leaving the rest of the queue as it is. *)
Theorem buildFunnels_search `{UrlApi} (adPages : list PageFinding)
    (fs : list FunnelPath) (f : FunnelPath) :
  URL_new "" = None →
  buildFunnels adPages = Done fs → f ∈ fs →
  let adj := make_adj (make_byUrl adPages) adPages in
  is_path adj (landing f) (steps f)
  ∧ NoDup (landing f :: steps f)
  ∧ last (steps f) = Some (conversion f)
  ∧ (length (steps f) ≤ 5)%nat
  ∧ (∃ order pre post,
       bfs_order adj (S (length adPages)) (bfs_init (landing f)) = Done order
       ∧ order = pre ++ conversion f :: post
       ∧ conversion f ≠ landing f
       ∧ isProbablyConversion (conversion f) = Some true
       ∧ ∀ n, n ∈ pre → n = landing f ∨ isProbablyConversion n = Some false)
  ∧ (∀ fuel st rest,
       bfs_queue st = conversion f :: rest →
       (default 0%nat (bfs_depth st !! conversion f) ≤ maxSteps)%nat →
       bfs_loop adj (landing f) (S fuel) st = Done (Some (conversion f), bfs_shift rest st)).
Proof.
  intros Hempty Hb Hf adj.
  destruct (buildFunnels_ok Hempty adPages fs f Hb Hf) as (start & Hs & Hok).
  destruct (ok_last _ _ _ Hok) as [mids Hmids].
  destruct (ok_first _ _ _ Hok) as (order & pre & post & Ho & Hord & Hpre).
  split_and!.
  - apply Hok.
  - apply Hok.
  - by rewrite Hmids, last_snoc.
  - apply Hok.
  - exists order, pre, post. split_and!; try done; apply Hok.
  - intros fuel st rest Hq Hd. apply bfs_loop_stops; try done; apply Hok.
Qed.

Lemma buildFunnels_search_witness :
  let adj := make_adj (make_byUrl example_pages) example_pages in
  is_path adj ex_offer [ex_plan; ex_checkout]
  ∧ NoDup (ex_offer :: [ex_plan; ex_checkout])
  ∧ last [ex_plan; ex_checkout] = Some ex_checkout
  ∧ (length [ex_plan; ex_checkout] ≤ 5)%nat
  ∧ (∃ order pre post,
       bfs_order adj (S (length example_pages)) (bfs_init ex_offer) = Done order
       ∧ order = pre ++ ex_checkout :: post
       ∧ ex_checkout ≠ ex_offer
       ∧ isProbablyConversion ex_checkout = Some true
       ∧ ∀ n, n ∈ pre → n = ex_offer ∨ isProbablyConversion n = Some false)
  ∧ (∀ fuel st rest,
       bfs_queue st = ex_checkout :: rest →
       (default 0%nat (bfs_depth st !! ex_checkout) ≤ maxSteps)%nat →
       bfs_loop adj ex_offer (S fuel) st = Done (Some ex_checkout, bfs_shift rest st)).
Proof.
  apply (buildFunnels_search (H := RefUrl) example_pages
           [example_funnel; example_funnel_direct] example_funnel).
  - reflexivity.
  - vm_compute. reflexivity.
  - apply list_elem_of_here.
Defined.

(** ** runFunnelFinder: from the checked pages to the report *)

Section ReportFacts.
Context `{UrlApi}.

Lemma report_inv (baseUrl : string) (checked pages : list PageFinding)
    (fs : list FunnelPath) (text : string) :
  report baseUrl checked = Done (pages, fs, text) →
  pages = classify checked ∧ buildFunnels pages = Done fs
  ∧ text = formatOutputText baseUrl pages fs.
Proof.
  unfold report. destruct (buildFunnels (classify checked)) as [fs0| |] eqn:Hb;
    simpl; [| intros [=]..].
  by intros [= <- <- <-].
Qed.
End ReportFacts.

(** C5.  Every URL of a funnel of the report (landing, steps, conversion)
    is the final URL of a checked page whose score is at least the ad-like
    threshold 18, and the landing URL does not match the conversion
    heuristic. *)
Theorem funnel_urls_ad_like `{UrlApi} (baseUrl : string)
    (checked pages : list PageFinding) (fs : list FunnelPath) (text : string)
    (f : FunnelPath) :
  URL_new "" = None →
  report baseUrl checked = Done (pages, fs, text) → f ∈ fs →
  (∀ u, u ∈ landing f :: steps f ++ [conversion f] →
        ∃ p, p ∈ checked ∧ finalUrl p = u ∧ 18 ≤ score p)
  ∧ isProbablyConversion (landing f) = Some false.
Proof.
  intros Hempty (-> & Hb & _)%report_inv Hf.
  destruct (buildFunnels_ok Hempty _ fs f Hb Hf) as (start & Hs & Hok).
  destruct (ok_last _ _ _ Hok) as [mids Hmids].
  assert (∀ u, u ∈ steps f → ∃ p, p ∈ checked ∧ finalUrl p = u ∧ 18 ≤ score p) as Hsteps.
  { intros u Hu. destruct (proj1 (elem_of_dom _ _) (ok_nodes _ _ _ Hok u Hu)) as [p Hp].
    apply make_byUrl_lookup in Hp as [[Hp Hsc]%classify_elem Hurl]. by exists p. }
  split; [| apply Hok].
  intros u [-> | [Hu | Hu]%elem_of_app]%elem_of_cons.
  - apply classify_elem in Hs as [Hs Hsc]. exists start. split_and!; try done.
    symmetry. apply Hok.
  - by apply Hsteps.
  - apply list_elem_of_singleton in Hu as ->. apply Hsteps.
    rewrite Hmids. apply elem_of_app. right. by apply list_elem_of_singleton.
Qed.

Lemma example_report :
  report ex_home example_checked =
  Done (example_pages, [example_funnel; example_funnel_direct],
        formatOutputText ex_home example_pages [example_funnel; example_funnel_direct]).
Proof. vm_compute. reflexivity. Qed.

Lemma funnel_urls_ad_like_witness :
  (∀ u, u ∈ ex_offer :: [ex_plan; ex_checkout] ++ [ex_checkout] →
        ∃ p, p ∈ example_checked ∧ finalUrl p = u ∧ 18 ≤ score p)
  ∧ isProbablyConversion ex_offer = Some false.
Proof.
  apply (funnel_urls_ad_like (H := RefUrl) ex_home example_checked example_pages
           [example_funnel; example_funnel_direct]
           (formatOutputText ex_home example_pages [example_funnel; example_funnel_direct])
           example_funnel).
  - reflexivity.
  - vm_compute. reflexivity.
  - apply list_elem_of_here.
Defined.

(** C9.  The confidence of a funnel of the report is an integer between 54
    and 100: the landing and the conversion page both score at least 18. *)
Theorem funnel_confidence_range `{UrlApi} (baseUrl : string)
    (checked pages : list PageFinding) (fs : list FunnelPath) (text : string)
    (f : FunnelPath) :
  URL_new "" = None →
  report baseUrl checked = Done (pages, fs, text) → f ∈ fs →
  54 ≤ confidence f ≤ 100.
Proof.
  intros Hempty (-> & Hb & _)%report_inv Hf.
  destruct (buildFunnels_ok Hempty _ fs f Hb Hf) as (start & Hs & Hok).
  destruct (ok_last _ _ _ Hok) as [mids Hmids].
  destruct (ok_confidence _ _ _ Hok) as (conv & Hconv & ->).
  apply make_byUrl_lookup in Hconv as [Hc _].
  rewrite Hmids, length_app. simpl.
  replace (length mids + 1)%nat with (S (length mids)) by lia.
  rewrite (confidence_of_steps _ _ conv _ eq_refl).
  apply classify_elem in Hs as [_ Hs]. apply classify_elem in Hc as [_ Hc].
  unfold AD_LIKE_THRESHOLD in *.
  split; [| apply Z.le_min_l].
  apply Z.min_glb; [done |].
  rewrite <- (Math_round_inject 54). apply Math_round_mono.
  pose proof (bonus_nonneg (Z.of_nat (length mids) + 1) ltac:(lia)) as Hbonus.
  assert (inject_Z 54 <= inject_Z (2 * score start) + inject_Z (score conv))%Q as Hsum.
  { rewrite <- inject_Z_plus, <- Zle_Qle. lia. }
  rewrite <- (Qplus_0_r (inject_Z 54)). by apply Qplus_le_compat.
Qed.

Lemma funnel_confidence_range_witness : 54 ≤ 90 ≤ 100.
Proof.
  apply (funnel_confidence_range (H := RefUrl) ex_home example_checked example_pages
           [example_funnel; example_funnel_direct]
           (formatOutputText ex_home example_pages [example_funnel; example_funnel_direct])
           example_funnel).
  - reflexivity.
  - vm_compute. reflexivity.
  - apply list_elem_of_here.
Defined.

(** C2.  The report is its lines joined by a newline; the line of every
    funnel is among them, and it is the landing URL, the intermediate step
    URLs and the conversion URL joined by [" -> "], after the confidence in
    brackets. *)
Theorem report_funnel_lines `{UrlApi} (baseUrl : string)
    (checked pages : list PageFinding) (fs : list FunnelPath) (text : string)
    (f : FunnelPath) :
  URL_new "" = None →
  report baseUrl checked = Done (pages, fs, text) → f ∈ fs →
  text = JsString.join (String "010" "")
           ([ "# Funnel Finder Output"; "Base: " +:+ baseUrl; "";
              "## Funnels (landing -> ... -> conversion)" ]
            ++ (funnel_line <$> fs)
            ++ [ ""; "## Ad-like Pages (best candidates for ads)" ]
            ++ (page_line <$> pages))
  ∧ ∃ mids,
      steps f = mids ++ [conversion f]
      ∧ is_path (make_adj (make_byUrl pages) pages) (landing f) (mids ++ [conversion f])
      ∧ NoDup (landing f :: mids ++ [conversion f])
      ∧ funnel_line f =
          "- [" +:+ (pretty (confidence f) +:+ "] "
          +:+ JsString.join " -> " (landing f :: mids ++ [conversion f])).
Proof.
  intros Hempty (-> & Hb & ->)%report_inv Hf.
  destruct (buildFunnels_ok Hempty _ fs f Hb Hf) as (start & Hs & Hok).
  destruct (ok_last _ _ _ Hok) as [mids Hmids].
  split.
  - unfold formatOutputText, output_lines.
    rewrite (bool_decide_eq_false_2 (fs = [])) by (intros ->; by apply elem_of_nil in Hf).
    rewrite (bool_decide_eq_false_2 (classify checked = []))
      by (intros Hnil; rewrite Hnil in Hs; by apply elem_of_nil in Hs).
    done.
  - exists mids. split_and!; try done.
    + rewrite <- Hmids. apply Hok.
    + rewrite <- Hmids. apply Hok.
    + unfold funnel_line. by rewrite Hmids.
Qed.

Lemma report_funnel_lines_witness :
  formatOutputText ex_home example_pages [example_funnel; example_funnel_direct] =
  JsString.join (String "010" "")
    [ "# Funnel Finder Output"; "Base: https://shop.example/"; "";
      "## Funnels (landing -> ... -> conversion)";
      "- [90] https://shop.example/offer -> https://shop.example/plan -> https://shop.example/checkout";
      "- [75] https://shop.example/plan -> https://shop.example/checkout";
      ""; "## Ad-like Pages (best candidates for ads)";
      "- (30) https://shop.example/offer";
      "- (25) https://shop.example/checkout";
      "- (20) https://shop.example/plan" ]
  ∧ ∃ mids,
      [ex_plan; ex_checkout] = mids ++ [ex_checkout]
      ∧ is_path (make_adj (make_byUrl example_pages) example_pages) ex_offer
          (mids ++ [ex_checkout])
      ∧ NoDup (ex_offer :: mids ++ [ex_checkout])
      ∧ funnel_line example_funnel =
          "- [" +:+ (pretty 90 +:+ "] "
          +:+ JsString.join " -> " (ex_offer :: mids ++ [ex_checkout])).
Proof.
  apply (report_funnel_lines (H := RefUrl) ex_home example_checked example_pages
           [example_funnel; example_funnel_direct]
           (formatOutputText ex_home example_pages [example_funnel; example_funnel_direct])
           example_funnel).
  - reflexivity.
  - vm_compute. reflexivity.
  - apply list_elem_of_here.
Defined.

(** ** sitemap.ts *)

Lemma fetch_successes_app (l1 l2 : list (string * bool)) :
  fetch_successes (l1 ++ l2) = (fetch_successes l1 + fetch_successes l2)%nat.
Proof. unfold fetch_successes. by rewrite filter_app, length_app. Qed.

Lemma no_fetch_after_snoc (n : nat) (log : list (string * bool)) (e : string * bool) :
  (fetch_successes log < n)%nat → no_fetch_after n (log ++ [e]).
Proof.
  intros Hlt pre post Heq Hn.
  destruct post as [|x post _] using rev_ind; [done |].
  rewrite app_assoc in Heq. apply app_inj_tail in Heq as [-> _].
  rewrite fetch_successes_app in Hlt. lia.
Qed.

Section SitemapFacts.
Context `{UrlApi}.
Variable XMLParser_parse : string → option xml_doc.
Variable fetchText : nat → string → option string.

#[local] Abbreviation loop := (discover_loop XMLParser_parse fetchText).

Lemma discover_loop_inv (fuel : nat) (st st' : sm_state) :
  loop fuel st = Done st' → sm_inv st → sm_inv st'.
Proof.
  revert st. induction fuel as [|fuel IH]; intros st; simpl; [done |].
  destruct (sm_queue st) as [|sm rest]; [by intros [= <-] |].
  case_bool_decide as Hlt; [| by intros [= <-]].
  case_bool_decide as Hseen.
  - intros Hl Hi. by apply (IH _ Hl).
  - intros Hl (Hlen & Hle & Hno).
    assert (no_fetch_after maxSitemapsToFetch (sm_fetches st ++ [(sm, false)])) as Hno1
      by (apply no_fetch_after_snoc; lia).
    assert (no_fetch_after maxSitemapsToFetch (sm_fetches st ++ [(sm, true)])) as Hno2
      by (apply no_fetch_after_snoc; lia).
    destruct (fetchText (length (sm_fetches st)) sm) as [text|].
    + case_bool_decide as Htext; apply (IH _ Hl); unfold sm_inv; simpl;
        rewrite fetch_successes_app; unfold fetch_successes at 2; simpl.
      * split_and!; [lia | lia | done].
      * rewrite length_app. simpl. split_and!; [lia | lia | done].
    + apply (IH _ Hl). unfold sm_inv. simpl.
      rewrite fetch_successes_app. unfold fetch_successes at 2. simpl.
      split_and!; [lia | lia | done].
Qed.

(** The loop ends: a round either fetches a sitemap with success, which
    happens at most [maxSitemapsToFetch] times, or shortens the queue. *)
Lemma discover_loop_terminates (k : nat) :
  ∀ st, (maxSitemapsToFetch - length (sm_found st) ≤ k)%nat →
        ∃ n, ∀ fuel, (n ≤ fuel)%nat → loop fuel st ≠ Timeout.
Proof.
  induction k as [|k IHk].
  - intros st Hk. exists 1%nat. intros [|fuel] Hfuel; [lia |]. simpl.
    destruct (sm_queue st); [done |].
    rewrite bool_decide_eq_false_2 by lia. done.
  - intros [q seen found urls0 fetches]. simpl. revert seen found urls0 fetches.
    induction q as [|sm rest IHq]; intros seen found urls0 fetches Hk.
    + exists 1%nat. intros [|fuel] Hfuel; [lia | done].
    + simpl.
      assert (∀ st', (∃ n, ∀ fuel, (n ≤ fuel)%nat → loop fuel st' ≠ Timeout) →
              ∃ n, ∀ fuel, (n ≤ fuel)%nat →
                match fuel with O => Timeout | S fuel' => loop fuel' st' end
                ≠ @Timeout sm_state) as Hstep.
      { intros st' [n Hn]. exists (S n). intros [|fuel] Hfuel; [lia |]. apply Hn. lia. }
      destruct (decide (length found < maxSitemapsToFetch)%nat) as [Hlt | Hge].
      2:{ exists 1%nat. intros [|fuel] Hfuel; [lia |]. simpl.
          by rewrite bool_decide_eq_false_2. }
      destruct (decide (sm ∈ seen)) as [Hseen | Hseen].
      { destruct (Hstep _ (IHq seen found urls0 fetches Hk)) as [n Hn].
        exists n. intros [|fuel] Hfuel; [by apply (Hn 0%nat) |].
        specialize (Hn (S fuel) Hfuel). simpl in *.
        by rewrite bool_decide_eq_true_2, bool_decide_eq_true_2. }
      destruct (fetchText (length fetches) sm) as [text|] eqn:Hfetch.
      * destruct (decide (text = "")) as [Htext | Htext].
        -- destruct (Hstep _ (IHq ({[sm]} ∪ seen) found urls0 (fetches ++ [(sm, false)]) Hk))
             as [n Hn].
           exists n. intros [|fuel] Hfuel; [by apply (Hn 0%nat) |].
           specialize (Hn (S fuel) Hfuel). simpl in *.
           rewrite bool_decide_eq_true_2, bool_decide_eq_false_2, Hfetch by done.
           by rewrite bool_decide_eq_true_2.
        -- destruct (Hstep _ (IHk
               {| sm_queue := enqueue_children ({[sm]} ∪ seen) rest
                                (childSitemaps (parseSitemapXml XMLParser_parse text));
                  sm_seen := {[sm]} ∪ seen;
                  sm_found := found ++ [sm];
                  sm_urls := urls0 ++ urls (parseSitemapXml XMLParser_parse text);
                  sm_fetches := fetches ++ [(sm, true)] |}
               ltac:(simpl; rewrite length_app; simpl; lia))) as [n Hn].
           exists n. intros [|fuel] Hfuel; [by apply (Hn 0%nat) |].
           specialize (Hn (S fuel) Hfuel). simpl in *.
           rewrite bool_decide_eq_true_2, bool_decide_eq_false_2, Hfetch by done.
           by rewrite bool_decide_eq_false_2.
      * destruct (Hstep _ (IHq ({[sm]} ∪ seen) found urls0 (fetches ++ [(sm, false)]) Hk))
          as [n Hn].
        exists n. intros [|fuel] Hfuel; [by apply (Hn 0%nat) |].
        specialize (Hn (S fuel) Hfuel). simpl in *.
        by rewrite bool_decide_eq_true_2, bool_decide_eq_false_2, Hfetch.
Qed.

(** Nothing in the loop throws. *)
Lemma discover_loop_no_raise (fuel : nat) (st : sm_state) : loop fuel st ≠ Raise.
Proof.
  revert st. induction fuel as [|fuel IH]; intros st; simpl; [done |].
  destruct (sm_queue st); [done |].
  case_bool_decide; [| done].
  case_bool_decide; [apply IH |].
  destruct (fetchText _ _); [case_bool_decide |]; apply IH.
Qed.
End SitemapFacts.

(** When the base URL parses, the discovery returns its result. *)
Lemma discoverSitemapUrls_returns `{UrlApi}
    (XMLParser_parse : string → option xml_doc)
    (fetchText : nat → string → option string)
    (baseUrl : string) (extraSitemaps : list string) :
  is_Some (URL_new baseUrl) →
  ∃ n, ∀ fuel, (n ≤ fuel)%nat →
    ∃ r log, discoverSitemapUrls XMLParser_parse fetchText fuel baseUrl extraSitemaps
             = Done (r, log).
Proof.
  intros [base Hbase]. unfold discoverSitemapUrls. rewrite Hbase. simpl.
  destruct (discover_loop_terminates XMLParser_parse fetchText maxSitemapsToFetch
              (sm_init base extraSitemaps) ltac:(simpl; unfold maxSitemapsToFetch; lia)) as [n Hn].
  exists n. intros fuel Hfuel. specialize (Hn fuel Hfuel).
  pose proof (discover_loop_no_raise XMLParser_parse fetchText fuel
                (sm_init base extraSitemaps)) as Hr.
  destruct (discover_loop XMLParser_parse fetchText fuel (sm_init base extraSitemaps));
    simpl; [eauto | done..].
Qed.

(** C6.  Whatever the requests give, the loop of [discoverSitemapUrls]
    ends, it returns at most 20 fetched sitemap URLs, at most 20 requests
    gave a text, and no request was made after the 20th of them. *)
Theorem discoverSitemapUrls_capped `{UrlApi}
    (XMLParser_parse : string → option xml_doc)
    (fetchText : nat → string → option string)
    (baseUrl : string) (extraSitemaps : list string) :
  ∃ n, ∀ fuel, (n ≤ fuel)%nat →
    discoverSitemapUrls XMLParser_parse fetchText fuel baseUrl extraSitemaps ≠ Timeout
    ∧ ∀ r log,
        discoverSitemapUrls XMLParser_parse fetchText fuel baseUrl extraSitemaps
          = Done (r, log) →
        (length (foundSitemaps r) ≤ 20)%nat
        ∧ NoDup (foundSitemaps r)
        ∧ (fetch_successes log ≤ 20)%nat
        ∧ no_fetch_after 20 log.
Proof.
  unfold discoverSitemapUrls.
  destruct (URL_new baseUrl) as [base|]; simpl.
  2:{ exists 0%nat. intros fuel _. split; [done | intros r log [=]]. }
  destruct (discover_loop_terminates XMLParser_parse fetchText maxSitemapsToFetch
              (sm_init base extraSitemaps) ltac:(simpl; unfold maxSitemapsToFetch; lia)) as [n Hn].
  exists n. intros fuel Hfuel. specialize (Hn fuel Hfuel).
  destruct (discover_loop XMLParser_parse fetchText fuel (sm_init base extraSitemaps))
    as [st| |] eqn:Hloop; simpl; [| done..].
  split; [done |]. intros r log [= <- <-]. simpl.
  destruct (discover_loop_inv XMLParser_parse fetchText fuel _ _ Hloop)
    as (Hlen & Hle & Hno).
  { unfold sm_inv, no_fetch_after. simpl. split_and!; [done | lia |].
    intros pre post Heq _. symmetry in Heq. by apply app_eq_nil in Heq as [_ ->]. }
  unfold maxSitemapsToFetch in *. split_and!.
  - etrans; [apply dedupe_from_length | done].
  - apply dedupe_from_NoDup.
  - lia.
  - done.
Qed.

(** A hostile site: every sitemap is an index of two further sitemaps. *)
Lemma discoverSitemapUrls_capped_witness :
  ∃ n, ∀ fuel, (n ≤ fuel)%nat →
    discoverSitemapUrls (H := RefUrl) endless_index (λ _ u, Some u) fuel
      "https://shop.example/" [] ≠ Timeout
    ∧ ∀ r log,
        discoverSitemapUrls (H := RefUrl) endless_index (λ _ u, Some u) fuel
          "https://shop.example/" [] = Done (r, log) →
        (length (foundSitemaps r) ≤ 20)%nat
        ∧ NoDup (foundSitemaps r)
        ∧ (fetch_successes log ≤ 20)%nat
        ∧ no_fetch_after 20 log.
Proof.
  apply (discoverSitemapUrls_capped (H := RefUrl) endless_index (λ _ u, Some u)
           "https://shop.example/" []).
Defined.

Lemma endless_index_run :
  (λ r, (length (foundSitemaps r.1), length r.2)) <$>
    discoverSitemapUrls (H := RefUrl) endless_index (λ _ u, Some u) 21
      "https://shop.example/" [] = Done (20%nat, 20%nat).
Proof. vm_compute. reflexivity. Qed.

(** ** crawl.ts: the crawler *)

Section CrawlFacts.
Context `{UrlApi}.
Variable fetchLinks : nat → string → option (list string).
Variable base : string.
Variable robots : RobotsRules.
Variables maxPages maxDepth : nat.

#[local] Abbreviation cloop := (crawl_loop fetchLinks base robots maxPages maxDepth).

Lemma crawl_loop_budget (fuel : nat) (st : crawl_state) (r : list string) :
  cloop fuel st = Done r → (length (c_found st) ≤ maxPages)%nat →
  (length r ≤ maxPages)%nat.
Proof.
  revert st. induction fuel as [|fuel IH]; intros st; simpl; [done |].
  destruct (c_queue st) as [|[u depth] rest]; [by intros [= <-] |].
  destruct (bool_decide (length (c_found st) < maxPages)%nat) eqn:Hlt; simpl;
    [| by intros [= <-]].
  apply bool_decide_eq_true in Hlt.
  destruct (bool_decide (S (length rest) < maxQueue)%nat); simpl; [| by intros [= <-]].
  destruct (isAllowedByRobots base robots u) as [[|]|]; simpl; [| | done].
  - assert (length (c_found st ++ [u]) ≤ maxPages)%nat as Hle
      by (rewrite length_app; simpl; lia).
    case_bool_decide; [intros Hl _; by apply (IH _ Hl) |].
    destruct (fetchLinks (length (c_found st)) u) as [hrefs|];
      [| intros Hl _; by apply (IH _ Hl)].
    destruct (crawl_links base u depth (rest, c_seen st) hrefs) as [acc| |]; simpl;
      [| done..].
    intros Hl _. by apply (IH _ Hl).
  - intros Hl Hle. by apply (IH _ Hl).
Qed.

(** The callback has no loop of its own. *)
Lemma crawl_links_total (u : string) (depth : nat) (hrefs : list string)
    (acc : list (string * nat) * gset string) :
  crawl_links base u depth acc hrefs ≠ Timeout.
Proof.
  revert acc. induction hrefs as [|href hrefs IH]; intros acc; simpl; [done |].
  unfold crawl_link.
  destruct (toAbsoluteUrl u href) as [abs|]; simpl; [| by apply IH].
  case_bool_decide; simpl; [by apply IH |].
  destruct (sameOrigin base abs) as [[|]|]; simpl; [| by apply IH | done].
  destruct (stripUtm abs) as [norm|]; simpl; [| done].
  case_bool_decide; [by apply IH |].
  destruct (looksExcluded norm) as [[|]|]; simpl; [by apply IH.. | done].
Qed.

(** The loop ends: a round either emits a URL, which happens at most
    [maxPages] times, or drops a URL of the queue. *)
Lemma crawl_loop_terminates (k : nat) :
  ∀ st, (maxPages - length (c_found st) ≤ k)%nat →
        ∃ n, ∀ fuel, (n ≤ fuel)%nat → cloop fuel st ≠ Timeout.
Proof.
  induction k as [|k IHk].
  - intros st Hk. exists 1%nat. intros [|fuel] Hfuel; [lia |]. simpl.
    destruct (c_queue st) as [|[u depth] rest]; [done |].
    rewrite (bool_decide_eq_false_2 (length (c_found st) < maxPages)%nat) by lia. done.
  - intros [q seen found]. simpl. revert seen found.
    induction q as [|[u depth] rest IHq]; intros seen found Hk.
    + exists 1%nat. intros [|fuel] Hfuel; [lia | done].
    + assert (∀ st', (∃ n, ∀ fuel, (n ≤ fuel)%nat → cloop fuel st' ≠ Timeout) →
              ∃ n, ∀ fuel, (n ≤ fuel)%nat →
                match fuel with O => Timeout | S fuel' => cloop fuel' st' end
                ≠ @Timeout (list string)) as Hstep.
      { intros st' [n Hn]. exists (S n). intros [|fuel] Hfuel; [lia |]. apply Hn. lia. }
      assert (∀ found', length found' = S (length found) → ∀ q' seen',
              ∃ n, ∀ fuel, (n ≤ fuel)%nat →
                match fuel with
                | O => Timeout
                | S fuel' => cloop fuel' {| c_queue := q'; c_seen := seen'; c_found := found' |}
                end ≠ @Timeout (list string)) as Hemit.
      { intros found' Hlen q' seen'. apply Hstep, IHk. simpl. lia. }
      destruct (bool_decide (length found < maxPages)%nat
                && bool_decide (S (length rest) < maxQueue)%nat) eqn:Hguard.
      2:{ exists 1%nat. intros [|fuel] Hfuel; [lia |]. simpl. by rewrite Hguard. }
      destruct (isAllowedByRobots base robots u) as [[|]|] eqn:Hallowed.
      * assert (length (found ++ [u]) = S (length found)) as Hlen
          by (rewrite length_app; simpl; lia).
        destruct (decide (maxDepth ≤ depth)%nat) as [Hdepth | Hdepth].
        { destruct (Hemit _ Hlen rest seen) as [n Hn].
          exists n. intros [|fuel] Hfuel; [by apply (Hn 0%nat) |].
          specialize (Hn (S fuel) Hfuel). simpl in *.
          by rewrite Hguard, Hallowed, bool_decide_eq_true_2. }
        destruct (fetchLinks (length found) u) as [hrefs|] eqn:Hfetch.
        -- destruct (crawl_links base u depth (rest, seen) hrefs) as [acc| |] eqn:Hlinks.
           ++ destruct (Hemit _ Hlen acc.1 acc.2) as [n Hn].
              exists n. intros [|fuel] Hfuel; [by apply (Hn 0%nat) |].
              specialize (Hn (S fuel) Hfuel). simpl in *.
              by rewrite Hguard, Hallowed, bool_decide_eq_false_2, Hfetch, Hlinks.
           ++ exists 1%nat. intros [|fuel] Hfuel; [lia |]. simpl.
              by rewrite Hguard, Hallowed, bool_decide_eq_false_2, Hfetch, Hlinks.
           ++ by apply crawl_links_total in Hlinks.
        -- destruct (Hemit _ Hlen rest seen) as [n Hn].
           exists n. intros [|fuel] Hfuel; [by apply (Hn 0%nat) |].
           specialize (Hn (S fuel) Hfuel). simpl in *.
           by rewrite Hguard, Hallowed, bool_decide_eq_false_2, Hfetch.
      * destruct (Hstep _ (IHq seen found Hk)) as [n Hn].
        exists n. intros [|fuel] Hfuel; [by apply (Hn 0%nat) |].
        specialize (Hn (S fuel) Hfuel). simpl in *.
        by rewrite Hguard, Hallowed.
      * exists 1%nat. intros [|fuel] Hfuel; [lia |]. simpl.
        by rewrite Hguard, Hallowed.
Qed.
End CrawlFacts.

(** C3.  Whatever the site serves, the crawl ends, and the list of URLs it
    returns has no URL twice and no more entries than the page budget;
    [runFunnelFinder] crawls with a budget of 350 pages and depth 4. *)
Theorem crawlInternalLinks_bounded `{UrlApi}
    (fetchLinks : nat → string → option (list string))
    (seedUrl : string) (robots : RobotsRules) :
  ∃ n, ∀ fuel, (n ≤ fuel)%nat →
    crawlInternalLinks fetchLinks fuel seedUrl robots MAX_PAGES MAX_DEPTH ≠ Timeout
    ∧ ∀ found,
        crawlInternalLinks fetchLinks fuel seedUrl robots MAX_PAGES MAX_DEPTH = Done found →
        NoDup found ∧ (length found ≤ 350)%nat.
Proof.
  unfold crawlInternalLinks.
  destruct (normalizeUrl seedUrl) as [base|]; simpl.
  2:{ exists 0%nat. intros fuel _. split; [done | intros r [=]]. }
  destruct (stripUtm base) as [seen0|]; simpl.
  2:{ exists 0%nat. intros fuel _. split; [done | intros r [=]]. }
  destruct (crawl_loop_terminates fetchLinks base robots MAX_PAGES MAX_DEPTH MAX_PAGES
              {| c_queue := [(base, 0%nat)]; c_seen := {[seen0]}; c_found := [] |}
              ltac:(lia)) as [n Hn].
  exists n. intros fuel Hfuel. specialize (Hn fuel Hfuel).
  destruct (crawl_loop fetchLinks base robots MAX_PAGES MAX_DEPTH fuel _)
    as [found0| |] eqn:Hloop; simpl; [| done..].
  split; [done |]. intros found [= <-]. split; [apply dedupe_from_NoDup |].
  etrans; [apply dedupe_from_length |].
  change 350%nat with MAX_PAGES.
  apply (crawl_loop_budget _ _ _ _ _ _ _ _ Hloop). simpl. lia.
Qed.

(** The complete graph on 10,000 nodes. *)
Lemma crawlInternalLinks_bounded_witness :
  ∃ n, ∀ fuel, (n ≤ fuel)%nat →
    crawlInternalLinks (H := RefUrl) (complete_site (100 * 100)) fuel
      "site.example/p0" no_rules MAX_PAGES MAX_DEPTH ≠ Timeout
    ∧ ∀ found,
        crawlInternalLinks (H := RefUrl) (complete_site (100 * 100)) fuel
          "site.example/p0" no_rules MAX_PAGES MAX_DEPTH = Done found →
        NoDup found ∧ (length found ≤ 350)%nat.
Proof.
  apply (crawlInternalLinks_bounded (H := RefUrl) (complete_site (100 * 100))
           "site.example/p0" no_rules).
Defined.

(** A complete graph on 12 nodes is crawled whole. *)
Lemma complete_site_run :
  crawlInternalLinks (H := RefUrl) (complete_site 12) 13
    "site.example/p0" no_rules MAX_PAGES MAX_DEPTH
  = Done ((λ i : nat, "https://site.example/p" +:+ pretty i) <$> seq 0 12).
Proof. vm_compute. reflexivity. Qed.

(** ** url.ts: tracking parameters *)

Lemma filter_all {A} (P : A → Prop) `{!∀ x, Decision (P x)} (l : list A) :
  (∀ x, x ∈ l → P x) → filter P l = l.
Proof.
  induction l as [|x l IH]; intros Hl; [done |].
  rewrite filter_cons_True by (apply Hl; by left).
  f_equal. apply IH. intros y Hy. apply Hl. by right.
Qed.

Section StripFacts.
Context `{UrlLaws}.

Lemma filter_filter_keys (k : string) (ks : list string) (l : list (string * string)) :
  filter (λ kv : string * string, kv.1 ∉ ks) (filter (λ kv : string * string, kv.1 ≠ k) l)
  = filter (λ kv : string * string, kv.1 ∉ k :: ks) l.
Proof.
  induction l as [|kv l IH]; [done |].
  rewrite (filter_cons (λ kv : string * string, kv.1 ≠ k)).
  rewrite (filter_cons (λ kv : string * string, kv.1 ∉ k :: ks)).
  destruct (decide (kv.1 ≠ k)) as [Hne | Heq].
  - rewrite filter_cons, IH.
    destruct (decide (kv.1 ∉ ks)) as [Hn | Hn];
      destruct (decide (kv.1 ∉ k :: ks)) as [Hn' | Hn']; try done.
    + destruct Hn'. by intros [? | ?]%elem_of_cons.
    + destruct Hn. intros Hin. apply Hn'. apply elem_of_cons. by right.
  - rewrite IH. destruct (decide (kv.1 ∉ k :: ks)) as [Hn' | Hn']; [| done].
    destruct Hn'. apply elem_of_cons. left. by destruct (decide (kv.1 = k)).
Qed.

Lemma delete_all_updated (ks : list string) (l : list (string * string)) (u : url) :
  foldl (λ u k, searchParams_delete k u) (searchParams_update l u) ks
  = searchParams_update (filter (λ kv : string * string, kv.1 ∉ ks) l) u.
Proof.
  revert l. induction ks as [|k ks IH]; intros l; simpl.
  - f_equal. symmetry. apply filter_all. intros kv _ Hin. by apply elem_of_nil in Hin.
  - unfold searchParams_delete at 2.
    rewrite searchParams_update_get, searchParams_update_update, IH.
    by rewrite filter_filter_keys.
Qed.

Lemma delete_all (u : url) :
  foldl (λ u k, searchParams_delete k u) u utmKeys
  = searchParams_update (filter (λ kv : string * string, kv.1 ∉ utmKeys) (searchParams u)) u.
Proof.
  unfold utmKeys. rewrite <- filter_filter_keys, <- delete_all_updated. reflexivity.
Qed.

Lemma stripUtm_returns (s : string) (u : url) :
  URL_new s = Some u → ∃ s', stripUtm s = Some s' ∧ is_Some (URL_new s').
Proof.
  intros Hs. unfold stripUtm. rewrite Hs. cbn [mbind option_bind]. rewrite delete_all.
  eexists. split; [done |]. rewrite URL_new_toString; [eauto |].
  apply obj_update. by eapply obj_new.
Qed.
End StripFacts.

(** C8.  For a string [s] that parses as a URL, [stripUtm s] is a URL
    whose parameters are those of [s] that are not on the deny list, in
    their order; none of its parameters is on the deny list, and
    [stripUtm] leaves it as it is. *)
Theorem stripUtm_spec `{UrlLaws} (s : string) (u : url) :
  URL_new s = Some u →
  ∃ s' u',
    stripUtm s = Some s' ∧ URL_new s' = Some u'
    ∧ searchParams u' = filter (λ kv : string * string, kv.1 ∉ utmKeys) (searchParams u)
    ∧ (∀ kv, kv ∈ searchParams u' → kv.1 ∉ utmKeys)
    ∧ stripUtm s' = Some s'.
Proof.
  intros Hs.
  set (l := filter (λ kv : string * string, kv.1 ∉ utmKeys) (searchParams u)).
  assert (URL_new (toString (searchParams_update l u)) = Some (searchParams_update l u)) as Hre.
  { apply URL_new_toString. apply obj_update. by eapply obj_new. }
  exists (toString (searchParams_update l u)), (searchParams_update l u).
  split_and!.
  - unfold stripUtm. rewrite Hs. cbn [mbind option_bind]. by rewrite delete_all.
  - done.
  - apply searchParams_update_get.
  - intros kv. rewrite searchParams_update_get. unfold l.
    by intros [? _]%list_elem_of_filter.
  - unfold stripUtm. rewrite Hre. cbn [mbind option_bind]. f_equal. f_equal.
    rewrite delete_all, searchParams_update_get, searchParams_update_update.
    f_equal. apply filter_all. intros kv.
    unfold l. by intros [? _]%list_elem_of_filter.
Qed.

(** ** crawl.ts: the crawl returns *)

(** On a URL class that keeps the contract no call of the crawl throws:
    every URL it handles is the serialisation of a URL object. *)
Section CrawlReturns.
Context `{UrlLaws}.
Variable fetchLinks : nat → string → option (list string).
Variable base : string.
Variable robots : RobotsRules.
Variables maxPages maxDepth : nat.
Hypothesis base_parses : is_Some (URL_new base).

#[local] Abbreviation parse_all q :=
  (∀ (u : string) (d : nat), (u, d) ∈ q → is_Some (URL_new u)).

Lemma toAbsoluteUrl_parses (b h abs : string) :
  toAbsoluteUrl b h = Some abs → is_Some (URL_new abs).
Proof.
  unfold toAbsoluteUrl. case_bool_decide; [done |].
  destruct (JsString.startsWith _ "#"); [done |].
  destruct (_ || _); [done |].
  destruct (URL_new_base _ _) as [u|] eqn:Hu; [| done].
  intros [= <-]. rewrite URL_new_toString; [eauto |].
  apply obj_clear_hash. by eapply obj_new_base.
Qed.

Lemma looksExcluded_is_Some (s : string) :
  is_Some (URL_new s) → is_Some (looksExcluded s).
Proof.
  intros [u Hu]. unfold looksExcluded. rewrite Hu. cbn [mbind option_bind].
  destruct (existsb _ ASSET_EXTENSIONS); [eauto |].
  destruct (existsb _ EXCLUDE_KEYWORDS); eauto.
Qed.

Lemma isAllowedByRobots_is_Some (u : string) :
  is_Some (URL_new u) → is_Some (isAllowedByRobots base robots u).
Proof.
  intros [uu Hu]. destruct base_parses as [ub Hub].
  unfold isAllowedByRobots, sameOrigin. rewrite Hub, Hu. cbn [mbind option_bind].
  destruct (negb _); eauto.
Qed.

Lemma crawl_link_returns (pageUrl : string) (depth : nat)
    (acc : list (string * nat) * gset string) (href : string) :
  parse_all acc.1 →
  ∃ acc', crawl_link base pageUrl depth acc href = Done acc' ∧ parse_all acc'.1.
Proof.
  intros Hacc. unfold crawl_link.
  destruct (toAbsoluteUrl pageUrl href) as [abs|] eqn:Habs; [| eauto].
  case_bool_decide; [eauto |].
  apply toAbsoluteUrl_parses in Habs as [ua Hua].
  destruct base_parses as [ub Hub].
  destruct (stripUtm_returns _ _ Hua) as (norm & Hnorm & Hparse).
  unfold sameOrigin. rewrite Hub, Hua, Hnorm. cbn [mbind option_bind attempt run_bind].
  destruct (negb _); [eauto |].
  case_bool_decide; [eauto |].
  destruct (looksExcluded_is_Some norm Hparse) as [ex ->]. cbn [attempt].
  destruct ex; [eauto |].
  eexists. split; [done |]. simpl.
  intros u d [Hin | [= -> ->]%list_elem_of_singleton]%elem_of_app; [by eapply Hacc | done].
Qed.

Lemma crawl_links_returns (pageUrl : string) (depth : nat) (hrefs : list string)
    (acc : list (string * nat) * gset string) :
  parse_all acc.1 →
  ∃ acc', crawl_links base pageUrl depth acc hrefs = Done acc' ∧ parse_all acc'.1.
Proof.
  revert acc. induction hrefs as [|href hrefs IH]; intros acc Hacc; simpl; [eauto |].
  destruct (crawl_link_returns pageUrl depth acc href Hacc) as (acc' & -> & Hacc').
  simpl. by apply IH.
Qed.

Lemma crawl_loop_no_raise (fuel : nat) (st : crawl_state) :
  parse_all (c_queue st) →
  crawl_loop fetchLinks base robots maxPages maxDepth fuel st ≠ Raise.
Proof.
  revert st. induction fuel as [|fuel IH]; intros st Hq; simpl; [done |].
  destruct (c_queue st) as [|[u depth] rest] eqn:Hqueue; [done |].
  destruct (_ && _); [| done].
  destruct (isAllowedByRobots_is_Some u) as [allowed ->]; [apply (Hq u depth); by left |].
  assert (parse_all rest) as Hrest by (intros v d Hv; apply (Hq v d); by right).
  simpl. destruct allowed; simpl; [| by apply IH].
  case_bool_decide; [by apply IH |].
  destruct (fetchLinks _ _) as [hrefs|]; [| by apply IH].
  destruct (crawl_links_returns u depth hrefs (rest, c_seen st) Hrest) as (acc & -> & Hacc).
  simpl. by apply IH.
Qed.
End CrawlReturns.

(** For a seed that normalises, the crawl returns a list, whatever the
    site serves. *)
Lemma crawlInternalLinks_returns `{UrlLaws}
    (fetchLinks : nat → string → option (list string))
    (seedUrl : string) (robots : RobotsRules) (maxPages maxDepth : nat) :
  is_Some (normalizeUrl seedUrl) →
  ∃ n, ∀ fuel, (n ≤ fuel)%nat →
    ∃ found, crawlInternalLinks fetchLinks fuel seedUrl robots maxPages maxDepth = Done found.
Proof.
  intros [base Hbase]. unfold crawlInternalLinks. rewrite Hbase. cbn [attempt mbind run_bind].
  assert (is_Some (URL_new base)) as Hparse.
  { revert Hbase. unfold normalizeUrl. case_bool_decide; [done |].
    destruct (URL_new _) as [u|] eqn:Hu; [| done]. intros [= <-].
    rewrite URL_new_toString; [eauto |]. apply obj_clear_hash. by eapply obj_new. }
  destruct Hparse as [ub Hub].
  destruct (stripUtm_returns _ _ Hub) as (seen0 & -> & _). cbn [attempt mbind run_bind].
  destruct (crawl_loop_terminates fetchLinks base robots maxPages maxDepth maxPages
              {| c_queue := [(base, 0%nat)]; c_seen := {[seen0]}; c_found := [] |}
              ltac:(lia)) as [n Hn].
  exists n. intros fuel Hfuel. specialize (Hn fuel Hfuel).
  pose proof (crawl_loop_no_raise fetchLinks base robots maxPages maxDepth
                ltac:(eauto) fuel
                {| c_queue := [(base, 0%nat)]; c_seen := {[seen0]}; c_found := [] |}) as Hr.
  simpl in Hr.
  destruct (crawl_loop fetchLinks base robots maxPages maxDepth fuel _) as [found| |];
    simpl; [eauto | | done].
  exfalso. apply Hr; [| done].
  intros u d [= -> ->]%list_elem_of_singleton. eauto.
Qed.

(** ** The reference implementation keeps the contract *)

Module RefFacts.
Import Ref RefSpec.

Lemma sapp_cons (a : ascii) (s t : string) : String a s +:+ t = String a (s +:+ t).
Proof. reflexivity. Qed.

Lemma sapp_nil_l (s : string) : "" +:+ s = s.
Proof. reflexivity. Qed.

Lemma sapp_nil_r (s : string) : s +:+ "" = s.
Proof. induction s as [|a s IH]; [done |]. by rewrite sapp_cons, IH. Qed.

Lemma sapp_assoc (s t r : string) : (s +:+ t) +:+ r = s +:+ (t +:+ r).
Proof. induction s as [|a s IH]; [done |]. rewrite !sapp_cons. by rewrite IH. Qed.

Lemma slength_app (s t : string) :
  String.length (s +:+ t) = (String.length s + String.length t)%nat.
Proof. induction s as [|a s IH]; [done |]. rewrite sapp_cons. simpl. by rewrite IH. Qed.

Lemma all_chars_app (P : ascii → bool) (s t : string) :
  all_chars P (s +:+ t) = all_chars P s && all_chars P t.
Proof.
  induction s as [|a s IH]; [done |]. rewrite sapp_cons. simpl.
  by rewrite IH, andb_assoc.
Qed.

Lemma all_chars_impl (P Q : ascii → bool) (s : string) :
  (∀ a, P a = true → Q a = true) → all_chars P s = true → all_chars Q s = true.
Proof.
  intros HPQ. induction s as [|a s IH]; [done |]. simpl.
  rewrite !andb_true_iff. intros [Ha Hs]. auto.
Qed.

Lemma split_on_app (c : ascii) (s t : string) :
  no_char c s = true →
  JsString.split_on c (s +:+ t) = (s +:+ (JsString.split_on c t).1, (JsString.split_on c t).2).
Proof.
  unfold no_char. induction s as [|a s IH]; simpl.
  - intros _. rewrite !sapp_nil_l. by destruct (JsString.split_on c t).
  - rewrite andb_true_iff, negb_true_iff. intros [Ha Hs].
    rewrite sapp_cons. simpl. rewrite Ha, (IH Hs). done.
Qed.

Lemma split_on_here (c : ascii) (t : string) : JsString.split_on c (String c t) = ("", Some t).
Proof. simpl. by rewrite bool_decide_eq_true_2. Qed.

Lemma split_on_absent (c : ascii) (s : string) :
  no_char c s = true → JsString.split_on c s = (s, None).
Proof.
  intros Hs. rewrite <- (sapp_nil_r s) at 1. rewrite split_on_app by done.
  simpl. by rewrite sapp_nil_r.
Qed.

Lemma toLowerCase_id (s : string) :
  all_chars (λ a, negb (is_upper a)) s = true → JsString.toLowerCase s = s.
Proof.
  induction s as [|a s IH]; [done |]. simpl.
  rewrite andb_true_iff, negb_true_iff. intros [Ha Hs].
  unfold JsString.lower_ascii. unfold is_upper in Ha. rewrite Ha. by rewrite IH.
Qed.

(** *** Character classes *)

Lemma host_char_facts (a : ascii) :
  host_char a = true →
  negb (is_upper a) = true
  ∧ negb (bool_decide (a = "#"%char)) = true ∧ negb (bool_decide (a = "?"%char)) = true
  ∧ negb (bool_decide (a = "/"%char)) = true ∧ negb (bool_decide (a = ":"%char)) = true.
Proof.
  destruct a as [[] [] [] [] [] [] [] []]; vm_compute; intros Ha;
    first [discriminate Ha | by repeat split].
Qed.

Lemma path_char_facts (a : ascii) :
  path_char a = true →
  negb (bool_decide (a = "#"%char)) = true ∧ negb (bool_decide (a = "?"%char)) = true.
Proof.
  destruct a as [[] [] [] [] [] [] [] []]; vm_compute; intros Ha;
    first [discriminate Ha | by repeat split].
Qed.

Lemma query_char_facts (a : ascii) :
  query_char a = true → negb (bool_decide (a = "#"%char)) = true.
Proof.
  destruct a as [[] [] [] [] [] [] [] []]; vm_compute; intros Ha;
    first [discriminate Ha | done].
Qed.

(** *** application/x-www-form-urlencoded *)

Lemma form_encode_cons (a : ascii) (s : string) :
  form_encode (String a s) = form_encode (String a "") +:+ form_encode s.
Proof.
  simpl. destruct (form_safe a); [done |]. by case_bool_decide.
Qed.

Lemma form_safe_facts (a : ascii) :
  form_safe a = true →
  bool_decide (a = "+"%char) = false ∧ bool_decide (a = "%"%char) = false.
Proof.
  destruct a as [[] [] [] [] [] [] [] []]; vm_compute; intros Ha;
    first [discriminate Ha | by split].
Qed.

Lemma hex_digit_facts (a : ascii) :
  let n := N_of_ascii a in
  hex_value (hex_digit (n / 16)) = Some (n / 16)%N
  ∧ hex_value (hex_digit (n mod 16)) = Some (n mod 16)%N
  ∧ ascii_of_N (16 * (n / 16) + n mod 16) = a.
Proof. destruct a as [[] [] [] [] [] [] [] []]; vm_compute; by repeat split. Qed.

Lemma form_decode_encode_char (a : ascii) (t : string) :
  form_decode (form_encode (String a "") +:+ t) = String a (form_decode t).
Proof.
  simpl form_encode. destruct (form_safe a) eqn:Hsafe.
  - destruct (form_safe_facts a Hsafe) as [Hplus Hpct].
    rewrite sapp_cons, sapp_nil_l. simpl. by rewrite Hplus, Hpct.
  - case_bool_decide as Hsp.
    + subst a. rewrite sapp_cons, sapp_nil_l. reflexivity.
    + destruct (hex_digit_facts a) as (Hh & Hl & Ha).
      rewrite !sapp_cons, sapp_nil_l. simpl form_decode.
      by rewrite Hh, Hl, Ha.
Qed.

Lemma form_decode_encode (s : string) : form_decode (form_encode s) = s.
Proof.
  induction s as [|a s IH]; [done |].
  by rewrite form_encode_cons, form_decode_encode_char, IH.
Qed.

Lemma form_encode_char_class (a : ascii) :
  all_chars (λ c, query_char c && negb (bool_decide (c = "&"%char))
                  && negb (bool_decide (c = "="%char)))
    (form_encode (String a "")) = true.
Proof. destruct a as [[] [] [] [] [] [] [] []]; vm_compute; reflexivity. Qed.

Lemma form_encode_class (s : string) :
  all_chars (λ c, query_char c && negb (bool_decide (c = "&"%char))
                  && negb (bool_decide (c = "="%char)))
    (form_encode s) = true.
Proof.
  induction s as [|a s IH]; [done |].
  by rewrite form_encode_cons, all_chars_app, form_encode_char_class, IH.
Qed.

Lemma form_encode_query_char (s : string) : all_chars query_char (form_encode s) = true.
Proof.
  eapply all_chars_impl; [| apply form_encode_class].
  intros a. rewrite !andb_true_iff. tauto.
Qed.

Lemma form_encode_no_amp (s : string) : no_char "&" (form_encode s) = true.
Proof.
  eapply all_chars_impl; [| apply form_encode_class].
  intros a. rewrite !andb_true_iff. tauto.
Qed.

Lemma form_encode_no_eq (s : string) : no_char "=" (form_encode s) = true.
Proof.
  eapply all_chars_impl; [| apply form_encode_class].
  intros a. rewrite !andb_true_iff. tauto.
Qed.

Lemma parse_piece_encode (kv : string * string) :
  parse_piece (form_encode kv.1 +:+ "=" +:+ form_encode kv.2) = kv.
Proof.
  unfold parse_piece. rewrite split_on_app by apply form_encode_no_eq.
  change ("=" +:+ form_encode kv.2) with (String "=" (form_encode kv.2)).
  rewrite split_on_here. simpl. rewrite sapp_nil_r, !form_decode_encode.
  by destruct kv.
Qed.

Lemma query_pieces_join (ps : list string) :
  ∀ (p : string) (fuel : nat),
    (∀ x, x ∈ p :: ps → no_char "&" x = true) → (length ps < fuel)%nat →
    query_pieces fuel (JsString.join "&" (p :: ps)) = p :: ps.
Proof.
  induction ps as [|q ps IH]; intros p fuel Hno Hfuel;
    (destruct fuel as [|fuel]; [simpl in Hfuel; lia |]).
  - simpl. rewrite split_on_absent; [done |]. apply Hno. by left.
  - change (JsString.join "&" (p :: q :: ps))
      with (p +:+ String "&" (JsString.join "&" (q :: ps))).
    simpl query_pieces. rewrite split_on_app by (apply Hno; by left).
    rewrite split_on_here. simpl. rewrite sapp_nil_r. f_equal.
    apply IH; [| simpl in Hfuel; lia]. intros x Hx. apply Hno. by right.
Qed.

Lemma join_length (ps : list string) (p : string) :
  (length ps ≤ String.length (JsString.join "&" (p :: ps)))%nat.
Proof.
  revert p. induction ps as [|q ps IH]; intros p; [simpl; lia |].
  change (JsString.join "&" (p :: q :: ps))
    with (p +:+ String "&" (JsString.join "&" (q :: ps))).
  rewrite slength_app. specialize (IH q). simpl in *. lia.
Qed.

Lemma parse_pieces_encode (l : list (string * string)) :
  parse_piece <$> ((λ kv, form_encode kv.1 +:+ "=" +:+ form_encode kv.2) <$> l) = l.
Proof.
  induction l as [|kv l IH]; [done |].
  by rewrite !fmap_cons, parse_piece_encode, IH.
Qed.

Lemma encoded_piece (l : list (string * string)) (x : string) :
  x ∈ (λ kv, form_encode kv.1 +:+ "=" +:+ form_encode kv.2) <$> l →
  x ≠ "" ∧ no_char "&" x = true.
Proof.
  intros (y & -> & _)%list_elem_of_fmap. split.
  - by destruct (form_encode y.1).
  - unfold no_char. rewrite !all_chars_app.
    pose proof (form_encode_no_amp y.1) as H1. pose proof (form_encode_no_amp y.2) as H2.
    unfold no_char in H1, H2. by rewrite H1, H2.
Qed.

Lemma parse_serialize_params (l : list (string * string)) :
  parse_query (serialize_params l) = l.
Proof.
  destruct l as [|kv l]; [done |].
  unfold parse_query, serialize_params.
  pose proof (encoded_piece (kv :: l)) as Hpieces.
  pose proof (parse_pieces_encode (kv :: l)) as Hparse.
  rewrite fmap_cons in *.
  rewrite query_pieces_join.
  - rewrite filter_all; [done |]. intros x Hx. by apply Hpieces.
  - intros x Hx. by apply Hpieces.
  - pose proof (join_length
                  ((λ kv, form_encode kv.1 +:+ "=" +:+ form_encode kv.2) <$> l)
                  (form_encode kv.1 +:+ "=" +:+ form_encode kv.2)). lia.
Qed.

Lemma serialize_params_empty (l : list (string * string)) :
  serialize_params l = "" → l = [].
Proof.
  destruct l as [|kv l]; [done |]. unfold serialize_params. rewrite fmap_cons.
  destruct (_ <$> l) as [|q ps].
  - simpl. by destruct (form_encode kv.1).
  - change (JsString.join "&" (?p :: q :: ps))
      with (p +:+ String "&" (JsString.join "&" (q :: ps))).
    by destruct (form_encode kv.1).
Qed.

Lemma all_chars_cons (P : ascii → bool) (a : ascii) (s : string) :
  all_chars P (String a s) = P a && all_chars P s.
Proof. reflexivity. Qed.

Lemma all_chars_join (P : ascii → bool) (ps : list string) :
  P "&"%char = true → (∀ x, x ∈ ps → all_chars P x = true) →
  all_chars P (JsString.join "&" ps) = true.
Proof.
  intros Hsep. induction ps as [|p ps IH]; intros Hps; [done |].
  destruct ps as [|q ps]; [apply Hps; by left |].
  change (JsString.join "&" (p :: q :: ps))
    with (p +:+ String "&" (JsString.join "&" (q :: ps))).
  rewrite all_chars_app, all_chars_cons.
  rewrite (Hps p) by (by left). rewrite Hsep, IH; [done |].
  intros x Hx. apply Hps. by right.
Qed.

Lemma serialize_params_query_char (l : list (string * string)) :
  all_chars query_char (serialize_params l) = true.
Proof.
  apply all_chars_join; [done |].
  intros x (y & -> & _)%list_elem_of_fmap.
  by rewrite !all_chars_app, !form_encode_query_char.
Qed.

(** *** Well-formed records *)

Lemma strip_prefix_app (p r : string) : strip_prefix p (p +:+ r) = Some r.
Proof.
  induction p as [|a p IH]; [done |]. rewrite sapp_cons. simpl.
  by rewrite bool_decide_eq_true_2.
Qed.

Lemma parse_wf (s : string) (u : ref_url) : parse s = Some u → wf u.
Proof.
  unfold parse.
  destruct (JsString.split_on "#" s) as [s1 frag]. destruct (JsString.split_on "?" s1) as [s2 query].
  destruct (JsString.split_on ":" s2) as [scheme after].
  destruct (after ≫= strip_prefix "//") as [rest|]; [| done].
  destruct (JsString.split_on "/" rest) as [auth path].
  destruct (_ && _) eqn:Hcond; [| done]. intros [= <-].
  repeat (apply andb_true_iff in Hcond as [Hcond ?]).
  split; simpl.
  - apply orb_true_iff in Hcond as [Hs | Hs]; apply bool_decide_eq_true in Hs; auto.
  - done.
  - by exists (default "" path).
  - done.
  - done.
  - done.
Qed.

Lemma update_wf (l : list (string * string)) (u : ref_url) : wf u → wf (update l u).
Proof.
  intros [? ? ? ? ? ?]. split; simpl; try done.
  - case_bool_decide; [done |]. apply serialize_params_query_char.
  - case_bool_decide as Hq; simpl.
    + by rewrite (serialize_params_empty l Hq).
    + by rewrite parse_serialize_params.
Qed.

Lemma drop_fragment_wf (u : ref_url) : wf u → wf (drop_fragment u).
Proof. intros [? ? ? ? ? ?]. by split. Qed.

Lemma parse_base_wf (h b : string) (u : ref_url) : parse_base h b = Some u → wf u.
Proof.
  unfold parse_base. destruct (has_scheme h); [apply parse_wf |].
  destruct (parse b) as [ub|] eqn:Hb; cbn [mbind option_bind]; [| done].
  destruct (JsString.startsWith h "//"); [apply parse_wf |].
  destruct (JsString.startsWith h "/"); [apply parse_wf |].
  case_bool_decide.
  { intros [= <-]. apply drop_fragment_wf. by eapply parse_wf. }
  destruct (JsString.startsWith h "?"); [apply parse_wf |].
  destruct (JsString.startsWith h "#"); apply parse_wf.
Qed.

Lemma url_obj_wf (u : ref_url) : url_obj (H := RefUrl) u → wf u.
Proof.
  induction 1 as [s u Hs | h b u Hu | l u _ IH | u _ IH].
  - by eapply parse_wf.
  - by eapply parse_base_wf.
  - by apply update_wf.
  - by apply drop_fragment_wf.
Qed.

(** *** Parsing a serialisation *)

Lemma no_char_app (c : ascii) (s t : string) :
  no_char c (s +:+ t) = no_char c s && no_char c t.
Proof. apply all_chars_app. Qed.

Lemma host_no_char (c : ascii) (h : string) :
  c ∈ ["#"; "?"; "/"; ":"]%char → all_chars host_char h = true → no_char c h = true.
Proof.
  intros Hc. apply all_chars_impl. intros a Ha.
  destruct (host_char_facts a Ha) as (_ & H1 & H2 & H3 & H4).
  repeat (apply elem_of_cons in Hc as [-> | Hc]; [done |]). by apply elem_of_nil in Hc.
Qed.

Lemma path_no_char (c : ascii) (p : string) :
  c ∈ ["#"; "?"]%char → all_chars path_char p = true → no_char c p = true.
Proof.
  intros Hc. apply all_chars_impl. intros a Ha.
  destruct (path_char_facts a Ha) as (H1 & H2).
  repeat (apply elem_of_cons in Hc as [-> | Hc]; [done |]). by apply elem_of_nil in Hc.
Qed.

Lemma query_no_hash (q : string) : all_chars query_char q = true → no_char "#" q = true.
Proof. apply all_chars_impl, query_char_facts. Qed.

Lemma host_lower (h : string) : all_chars host_char h = true → JsString.toLowerCase h = h.
Proof.
  intros Hh. apply toLowerCase_id. revert Hh. apply all_chars_impl.
  intros a Ha. by destruct (host_char_facts a Ha) as (? & _).
Qed.

Lemma host_ok_chars (h : string) : host_ok h = true → all_chars host_char h = true.
Proof. unfold host_ok. rewrite !andb_true_iff. tauto. Qed.

Lemma path_ok_chars (p : string) : path_ok p = true → all_chars path_char p = true.
Proof. unfold path_ok. rewrite !andb_true_iff. tauto. Qed.

Lemma serialize_parse (u : ref_url) : wf u → parse (serialize u) = Some u.
Proof.
  intros [Hscheme Hhok (p & Hpath & Hpok) Hq Hf Hparams].
  pose proof (host_ok_chars _ Hhok) as Hhost.
  pose proof (path_ok_chars _ Hpok) as Hpc. rewrite Hpath in Hpc, Hpok.
  destruct u as [scheme host path query frag params]. simpl in *. subst path params.
  unfold serialize, parse. simpl r_scheme. simpl r_host. simpl r_path.
  simpl r_query. simpl r_fragment.
  set (Qs := match query with Some q => "?" +:+ q | None => "" end).
  set (Fs := match frag with Some f => "#" +:+ f | None => "" end).
  assert (no_char "#" scheme = true ∧ no_char "?" scheme = true
          ∧ no_char ":" scheme = true ∧ JsString.toLowerCase scheme = scheme
          ∧ (bool_decide (scheme = "http") || bool_decide (scheme = "https")) = true)
    as (Hs1 & Hs2 & Hs3 & Hs4 & Hs5) by (by destruct Hscheme as [-> | ->]).
  assert (no_char "#" Qs = true) as HQ.
  { unfold Qs. destruct query as [q|]; [| done]. simpl in Hq.
    change ("?" +:+ q) with (String "?" q).
    pose proof (query_no_hash q Hq) as Hn. unfold no_char in *.
    by rewrite all_chars_cons, Hn. }
  assert (JsString.split_on "#" Fs = ("", frag)) as HF.
  { unfold Fs. destruct frag as [f|]; [| done].
    change ("#" +:+ f) with (String "#" f). apply split_on_here. }
  assert (JsString.split_on "?" Qs = ("", query)) as HQs.
  { unfold Qs. destruct query as [q|]; [| done].
    change ("?" +:+ q) with (String "?" q). apply split_on_here. }
  (* the fragment *)
  replace (scheme +:+ "://" +:+ host +:+ String "/" p +:+ Qs +:+ Fs)
    with ((scheme +:+ "://" +:+ host +:+ String "/" p +:+ Qs) +:+ Fs)
    by (by rewrite !sapp_assoc).
  rewrite split_on_app, HF.
  2:{ rewrite !no_char_app, Hs1, HQ. rewrite (host_no_char "#" host) by (first [done | repeat constructor]).
      rewrite (path_no_char "#" (String "/" p)) by (first [done | repeat constructor]). done. }
  cbv beta iota. simpl fst. simpl snd. rewrite sapp_nil_r.
  (* the query *)
  replace (scheme +:+ "://" +:+ host +:+ String "/" p +:+ Qs)
    with ((scheme +:+ "://" +:+ host +:+ String "/" p) +:+ Qs)
    by (by rewrite !sapp_assoc).
  rewrite split_on_app, HQs.
  2:{ rewrite !no_char_app, Hs2. rewrite (host_no_char "?" host) by (first [done | repeat constructor]).
      rewrite (path_no_char "?" (String "/" p)) by (first [done | repeat constructor]). done. }
  cbv beta iota. simpl fst. simpl snd. rewrite sapp_nil_r.
  (* the scheme *)
  change (scheme +:+ "://" +:+ host +:+ String "/" p)
    with (scheme +:+ String ":" ("//" +:+ (host +:+ String "/" p))).
  rewrite split_on_app, split_on_here by done.
  cbv beta iota. simpl fst. simpl snd. rewrite sapp_nil_r.
  cbn [mbind option_bind]. rewrite strip_prefix_app.
  (* host and path *)
  rewrite split_on_app, split_on_here by (apply host_no_char; first [done | repeat constructor]).
  cbv beta iota. simpl fst. simpl snd. rewrite sapp_nil_r.
  rewrite Hs4, (host_lower host Hhost), Hs5.
  change ("/" +:+ default "" (Some p)) with (String "/" p).
  rewrite Hhok, Hpok, Hq, Hf. done.
Qed.
End RefFacts.

#[global] Instance RefUrl_laws : UrlLaws (H := RefUrl).
Proof.
  split.
  - reflexivity.
  - reflexivity.
  - intros u Hu. apply RefFacts.serialize_parse, RefFacts.url_obj_wf, Hu.
Qed.

Lemma tracked_url_run :
  URL_new tracked_url = Some tracked_url_object
  ∧ stripUtm tracked_url = Some "https://shop.example/a/b?b=1+2&c+d=e#top".
Proof. split; vm_compute; reflexivity. Qed.

Lemma stripUtm_spec_witness :
  ∃ s' u',
    stripUtm tracked_url = Some s' ∧ URL_new s' = Some u'
    ∧ searchParams u' = [("b", "1 2"); ("c d", "e")]
    ∧ (∀ kv, kv ∈ searchParams u' → kv.1 ∉ utmKeys)
    ∧ stripUtm s' = Some s'.
Proof.
  apply (stripUtm_spec (H := RefUrl) (H0 := RefUrl_laws) tracked_url tracked_url_object).
  vm_compute. reflexivity.
Defined.

(** * Further properties of the modules *)

(** ** robots.ts: reading robots.txt *)

Section ParseRobotsFacts.
Context `{UrlApi}.
Variable robotsUrl : string.

#[local] Abbreviation line := (parseRobots_line robotsUrl).





End ParseRobotsFacts.


(** X2.  For the rules [fetchRobots] gives, a same-origin candidate is
    refused exactly when its path starts with a recorded entry: no
    recorded entry is empty. *)
Theorem isAllowedByRobots_fetched `{UrlApi} (fetch : string → option string)
    (baseUrl candidateUrl : string) (rules : RobotsRules) (ub uc : url) :
  fetchRobots fetch baseUrl = Some rules →
  URL_new baseUrl = Some ub → URL_new candidateUrl = Some uc →
  protocol ub = protocol uc → host ub = host uc →
  ∃ b, isAllowedByRobots baseUrl rules candidateUrl = Some b ∧
       (b = false ↔
        ∃ dis, dis ∈ disallow rules ∧
               ∃ rest, JsString.or_else (pathname uc) "/" = dis +:+ rest).
Proof.
  intros Hf Hb Hc Hp Hh. unfold isAllowedByRobots, sameOrigin. rewrite Hb, Hc. simpl.
  rewrite !bool_decide_eq_true_2 by done. simpl.
  eexists. split; [done |]. by eapply disallow_loop_fetched.
Qed.

Lemma isAllowedByRobots_fetched_witness :
  ∃ b, isAllowedByRobots "https://shop.example/"
         {| sitemaps := ["https://shop.example/sm.xml"]; disallow := ["/admin"] |}
         "https://shop.example/admin/x" = Some b ∧
       (b = false ↔
        ∃ dis, dis ∈ ["/admin"] ∧ ∃ rest, "/admin/x" = dis +:+ rest).
Proof.
  apply (isAllowedByRobots_fetched (H := RefUrl) (λ _, Some example_robots_txt)
           "https://shop.example/" "https://shop.example/admin/x"
           {| sitemaps := ["https://shop.example/sm.xml"]; disallow := ["/admin"] |}
           {| Ref.r_scheme := "https"; Ref.r_host := "shop.example"; Ref.r_path := "/";
              Ref.r_query := None; Ref.r_fragment := None; Ref.r_params := [] |}
           {| Ref.r_scheme := "https"; Ref.r_host := "shop.example"; Ref.r_path := "/admin/x";
              Ref.r_query := None; Ref.r_fragment := None; Ref.r_params := [] |});
    vm_compute; reflexivity.
Defined.

(** X3.  When robots.txt cannot be fetched the rules are empty, and
    [isAllowedByRobots] is the same-origin test: every page of the site is
    allowed, every other URL refused.  [fetchRobots] throws only on a base
    URL that does not parse. *)
Theorem fetchRobots_unavailable `{UrlApi} (fetch : string → option string)
    (baseUrl : string) :
  (URL_new baseUrl = None → fetchRobots fetch baseUrl = None)
  ∧ (∀ ub, URL_new baseUrl = Some ub →
       fetch (protocol ub +:+ "//" +:+ host ub +:+ "/robots.txt") = None →
       ∃ rules, fetchRobots fetch baseUrl = Some rules
                ∧ sitemaps rules = [] ∧ disallow rules = []
                ∧ ∀ candidateUrl,
                    isAllowedByRobots baseUrl rules candidateUrl
                    = sameOrigin baseUrl candidateUrl).
Proof.
  split.
  - intros Hb. unfold fetchRobots. by rewrite Hb.
  - intros ub Hb Hfetch. unfold fetchRobots. rewrite Hb. simpl. rewrite Hfetch.
    eexists. split_and!; [done.. |].
    intros c. unfold isAllowedByRobots, sameOrigin. rewrite Hb. simpl.
    destruct (URL_new c) as [uc|]; simpl; [| done].
    by destruct (_ && _).
Qed.

(** X4.  [isAllowedByRobots] looks at the set of non-empty entries only,
    and more entries never allow more: what is allowed under rules is
    allowed under rules with fewer entries. *)
Theorem isAllowedByRobots_antitone `{UrlApi} (baseUrl candidateUrl : string)
    (rules1 rules2 : RobotsRules) :
  (∀ dis, dis ∈ disallow rules1 → dis ≠ "" → dis ∈ disallow rules2) →
  isAllowedByRobots baseUrl rules2 candidateUrl = Some true →
  isAllowedByRobots baseUrl rules1 candidateUrl = Some true.
Proof.
  intros Hsub. unfold isAllowedByRobots.
  destruct (sameOrigin baseUrl candidateUrl) as [[|]|]; simpl; [| done..].
  destruct (URL_new candidateUrl) as [uc|]; simpl; [| done].
  intros [= H2]. f_equal.
  destruct (disallow_loop _ (disallow rules1)) eqn:H1; [done |].
  apply disallow_loop_false in H1 as (dis & Hin & Hne & Hp).
  assert (disallow_loop (JsString.or_else (pathname uc) "/") (disallow rules2) = false) as H2'.
  { apply disallow_loop_false. exists dis. eauto. }
  congruence.
Qed.

Lemma isAllowedByRobots_antitone_witness :
  isAllowedByRobots "https://shop.example/"
    {| sitemaps := []; disallow := ["/cart"; ""; "/admin"] |} "https://shop.example/offer"
  = Some true.
Proof.
  apply (isAllowedByRobots_antitone (H := RefUrl) "https://shop.example/"
           "https://shop.example/offer"
           {| sitemaps := []; disallow := ["/cart"; ""; "/admin"] |}
           {| sitemaps := []; disallow := ["/admin"; "/cart"; "/private"] |}).
  - intros dis Hin Hne. simpl in *.
    repeat (apply elem_of_cons in Hin as [-> | Hin]); try done;
      first [by apply elem_of_nil in Hin | repeat constructor].
  - vm_compute. reflexivity.
Defined.

(** ** url.ts *)

(** X5.  [sameOrigin] is an equivalence on the strings that parse as URLs:
    reflexive on them, symmetric (also in whether it throws) and
    transitive. *)
Theorem sameOrigin_equivalence `{UrlApi} (a b c : string) :
  (is_Some (URL_new a) → sameOrigin a a = Some true)
  ∧ sameOrigin a b = sameOrigin b a
  ∧ (sameOrigin a b = Some true → sameOrigin b c = Some true →
     sameOrigin a c = Some true).
Proof.
  unfold sameOrigin. split_and!.
  - intros [ua ->]. simpl. by rewrite !bool_decide_eq_true_2.
  - destruct (URL_new a) as [ua|], (URL_new b) as [ub|]; simpl; try done.
    f_equal. f_equal; apply bool_decide_ext; split; congruence.
  - destruct (URL_new a) as [ua|], (URL_new b) as [ub|], (URL_new c) as [uc|];
      simpl; try done.
    intros [= [Hp1 Hh1]%andb_true_iff] [= [Hp2 Hh2]%andb_true_iff].
    apply bool_decide_eq_true in Hp1, Hh1, Hp2, Hh2.
    rewrite !bool_decide_eq_true_2 by congruence. done.
Qed.

(** *** [trim] *)
















(** X7.  On a URL class that keeps the contract, what [normalizeUrl] and
    [toAbsoluteUrl] return is a URL again: [sameOrigin], [stripUtm],
    [looksExcluded] and [isProbablyConversion] do not throw on it. *)
Theorem url_results_parse `{UrlLaws} (input base href r : string) :
  normalizeUrl input = Some r ∨ toAbsoluteUrl base href = Some r →
  is_Some (URL_new r) ∧ sameOrigin r r = Some true ∧ is_Some (stripUtm r)
  ∧ is_Some (looksExcluded r) ∧ is_Some (isProbablyConversion r).
Proof.
  intros Hr.
  assert (is_Some (URL_new r)) as Hparse.
  { destruct Hr as [Hn | Ha]; [| by eapply toAbsoluteUrl_parses].
    revert Hn. unfold normalizeUrl. case_bool_decide; [done |].
    destruct (URL_new _) as [u|] eqn:Hu; [| done]. intros [= <-].
    rewrite URL_new_toString; [eauto |]. apply obj_clear_hash. by eapply obj_new. }
  split; [done |]. split_and!.
  - destruct Hparse as [u Hu]. unfold sameOrigin. rewrite Hu. simpl.
    by rewrite !bool_decide_eq_true_2.
  - destruct Hparse as [u Hu]. destruct (stripUtm_returns _ _ Hu) as (s' & -> & _). eauto.
  - by apply looksExcluded_is_Some.
  - by apply isProbablyConversion_is_Some.
Qed.

Lemma url_results_parse_witness :
  is_Some (URL_new "https://shop.example/offer?x=1")
  ∧ sameOrigin "https://shop.example/offer?x=1" "https://shop.example/offer?x=1" = Some true
  ∧ is_Some (stripUtm "https://shop.example/offer?x=1")
  ∧ is_Some (looksExcluded "https://shop.example/offer?x=1")
  ∧ is_Some (isProbablyConversion "https://shop.example/offer?x=1").
Proof.
  apply (url_results_parse (H := RefUrl) (H0 := RefUrl_laws) "  Shop.example/offer?x=1#top "
           "https://shop.example/a/b" "../offer?x=1" "https://shop.example/offer?x=1").
  left. vm_compute. reflexivity.
Defined.

(** ** sitemap.ts: the requests and the result *)

Lemma dedupe_from_NoDup_id (seen : gset string) (l : list string) :
  NoDup l → (∀ x, x ∈ l → x ∉ seen) → dedupe_from seen l = l.
Proof.
  revert seen. induction l as [|x l IH]; intros seen Hnd Hdis; simpl; [done |].
  apply NoDup_cons in Hnd as [Hx Hnd].
  rewrite bool_decide_eq_false_2 by (apply Hdis; by left).
  f_equal. apply IH; [done |].
  intros y Hy. rewrite not_elem_of_union, elem_of_singleton. split.
  - intros ->. done.
  - apply Hdis. by right.
Qed.

Section SitemapLogFacts.
Context `{UrlApi}.
Variable XMLParser_parse : string → option xml_doc.
Variable fetchText : nat → string → option string.
Variable known : list string.

#[local] Abbreviation sloop := (discover_loop XMLParser_parse fetchText).
#[local] Abbreviation is_listed := (listed XMLParser_parse fetchText).

Lemma listed_mono (sel : xml_doc → list (option string)) (log more : list (string * bool))
    (n n' : nat) (u : string) :
  (n ≤ n')%nat → is_listed sel log n u → is_listed sel (log ++ more) n' u.
Proof.
  intros Hn (i & sm & text & doc & loc & Hi & Hlog & Hrest).
  exists i, sm, text, doc, loc. split; [lia |]. split; [| done].
  by apply lookup_app_l_Some.
Qed.

(** A request that fails, or gives an empty text, changes the log only. *)
Lemma sm_log_inv_failed (st : sm_state) (sm : string) (rest : list string) :
  sm_queue st = sm :: rest → sm ∉ sm_seen st →
  sm_log_inv XMLParser_parse fetchText known st →
  sm_log_inv XMLParser_parse fetchText known
    {| sm_queue := rest; sm_seen := {[sm]} ∪ sm_seen st; sm_found := sm_found st;
       sm_urls := sm_urls st; sm_fetches := sm_fetches st ++ [(sm, false)] |}.
Proof.
  intros Hq Hseen [Hs Hnd Hf Hu Hqu Hr]. split; simpl.
  - intros e [He | ->%list_elem_of_singleton]%elem_of_app.
    + apply elem_of_union. right. by apply Hs.
    + apply elem_of_union. left. by apply elem_of_singleton.
  - rewrite fmap_app. simpl. apply NoDup_app. split_and!; [done | | apply NoDup_singleton].
    intros x [e [-> He]]%list_elem_of_fmap Hsm%list_elem_of_singleton.
    apply Hseen. rewrite <- Hsm. by apply Hs.
  - rewrite filter_app, filter_cons_False, filter_nil, app_nil_r by (simpl; done). done.
  - intros u Hin. eapply listed_mono; [| by apply Hu]. rewrite length_app. lia.
  - intros q Hin. destruct (Hqu q) as [? | Hl]; [rewrite Hq; by right | by left |].
    right. eapply listed_mono; [| done]. rewrite length_app. lia.
  - intros j e Hj. apply lookup_app_Some in Hj as [Hj | [Hlen Hj]].
    + destruct (Hr j e Hj) as [? | Hl]; [by left |]. right.
      by eapply listed_mono.
    + apply list_lookup_singleton_Some in Hj as [Hj0 <-]. simpl.
      destruct (Hqu sm) as [? | Hl]; [rewrite Hq; by left | by left |].
      right. eapply listed_mono; [| done]. lia.
Qed.

Lemma discover_loop_log (fuel : nat) (st st' : sm_state) :
  sloop fuel st = Done st' →
  sm_log_inv XMLParser_parse fetchText known st →
  sm_log_inv XMLParser_parse fetchText known st'
  ∧ ∃ more, sm_fetches st' = sm_fetches st ++ more.
Proof.
  revert st. induction fuel as [|fuel IH]; intros st; simpl; [done |].
  destruct (sm_queue st) as [|sm rest] eqn:Hq.
  { intros [= <-] Hi. split; [done |]. exists []. by rewrite app_nil_r. }
  case_bool_decide as Hlt.
  2:{ intros [= <-] Hi. split; [done |]. exists []. by rewrite app_nil_r. }
  case_bool_decide as Hseen.
  { intros Hl Hi. apply (IH _ Hl). destruct Hi as [Hs Hnd Hf Hu Hqu Hr].
    split; simpl; try done. intros q Hin. apply Hqu. rewrite Hq. by right. }
  assert (∀ st1, sloop fuel st1 = Done st' →
            (∃ b, sm_fetches st1 = sm_fetches st ++ [(sm, b)]) →
            sm_log_inv XMLParser_parse fetchText known st1 →
            sm_log_inv XMLParser_parse fetchText known st'
            ∧ ∃ more, sm_fetches st' = sm_fetches st ++ more) as Hnext.
  { intros st1 Hl [b Hb] Hi1. destruct (IH _ Hl Hi1) as [Hi' [more Hmore]].
    split; [done |]. exists ((sm, b) :: more). rewrite Hmore, Hb, <- app_assoc. done. }
  destruct (fetchText (length (sm_fetches st)) sm) as [text|] eqn:Hfetch.
  2:{ intros Hl Hi. apply (Hnext _ Hl); [by exists false | by apply sm_log_inv_failed]. }
  case_bool_decide as Htext.
  { intros Hl Hi. apply (Hnext _ Hl); [by exists false | by apply sm_log_inv_failed]. }
  intros Hl Hi. apply (Hnext _ Hl); [by exists true |].
  destruct Hi as [Hs Hnd Hf Hu Hqu Hr].
  assert (∀ sel loc doc, XMLParser_parse text = Some doc → Some loc ∈ sel doc →
            is_listed sel (sm_fetches st ++ [(sm, true)])
              (length (sm_fetches st ++ [(sm, true)])) (JsString.trim loc)) as Hnew.
  { intros sel loc doc Hdoc Hloc.
    exists (length (sm_fetches st)), sm, text, doc, loc. split_and!; try done.
    - rewrite length_app. simpl. lia.
    - rewrite lookup_app_r by done. by rewrite Nat.sub_diag. }
  split; simpl.
  - intros e [He | ->%list_elem_of_singleton]%elem_of_app.
    + apply elem_of_union. right. by apply Hs.
    + apply elem_of_union. left. by apply elem_of_singleton.
  - rewrite fmap_app. simpl. apply NoDup_app. split_and!; [done | | apply NoDup_singleton].
    intros x [e [-> He]]%list_elem_of_fmap Hsm%list_elem_of_singleton.
    apply Hseen. rewrite <- Hsm. by apply Hs.
  - rewrite filter_app, filter_cons_True, filter_nil, fmap_app by (simpl; done).
    by rewrite Hf.
  - intros u [Hin | Hin]%elem_of_app.
    + eapply listed_mono; [| by apply Hu]. rewrite length_app. lia.
    + unfold parseSitemapXml in Hin.
      destruct (XMLParser_parse text) as [doc|] eqn:Hdoc; simpl in Hin;
        [| by apply elem_of_nil in Hin].
      apply list_elem_of_fmap in Hin as (loc & -> & Hloc).
      apply list_elem_of_omap in Hloc as (o & Ho & Hoid). simpl in Hoid. subst o.
      by eapply Hnew.
  - intros q [Hin | Hin]%elem_of_app.
    + destruct (Hqu q) as [? | Hl']; [rewrite Hq; by right | by left |].
      right. eapply listed_mono; [| done]. rewrite length_app. lia.
    + apply list_elem_of_filter in Hin as [_ Hin]. right.
      unfold parseSitemapXml in Hin.
      destruct (XMLParser_parse text) as [doc|] eqn:Hdoc; simpl in Hin;
        [| by apply elem_of_nil in Hin].
      apply list_elem_of_fmap in Hin as (loc & -> & Hloc).
      apply list_elem_of_omap in Hloc as (o & Ho & Hoid). simpl in Hoid. subst o.
      by eapply Hnew.
  - intros j e Hj. apply lookup_app_Some in Hj as [Hj | [Hlen Hj]].
    + destruct (Hr j e Hj) as [? | Hl']; [by left |]. right.
      by eapply listed_mono.
    + apply list_lookup_singleton_Some in Hj as [Hj0 <-]. simpl.
      destruct (Hqu sm) as [? | Hl']; [rewrite Hq; by left | by left |].
      right. eapply listed_mono; [| done]. lia.
Qed.
End SitemapLogFacts.

Lemma sm_init_log_inv `{UrlApi} (XMLParser_parse : string → option xml_doc)
    (fetchText : nat → string → option string) (base : url) (extraSitemaps : list string) :
  sm_log_inv XMLParser_parse fetchText
    ((protocol base +:+ "//" +:+ host base +:+ "/sitemap.xml") :: extraSitemaps)
    (sm_init base extraSitemaps).
Proof.
  split; simpl; try done.
  - intros e He. by apply elem_of_nil in He.
  - constructor.
  - intros u Hu. by apply elem_of_nil in Hu.
  - intros q Hq. left. unfold Array_from_Set in Hq.
    by apply dedupe_from_elem in Hq as [Hq _].
Qed.

(** X8.  [discoverSitemapUrls] requests no sitemap URL twice, and its
    first request is for [/sitemap.xml] at the origin of the base URL. *)
Theorem discoverSitemapUrls_requests `{UrlApi}
    (XMLParser_parse : string → option xml_doc)
    (fetchText : nat → string → option string)
    (fuel : nat) (baseUrl : string) (extraSitemaps : list string)
    (r : Discovered) (log : list (string * bool)) :
  discoverSitemapUrls XMLParser_parse fetchText fuel baseUrl extraSitemaps = Done (r, log) →
  NoDup log.*1
  ∧ ∃ base ok rest,
      URL_new baseUrl = Some base
      ∧ log = (protocol base +:+ "//" +:+ host base +:+ "/sitemap.xml", ok) :: rest.
Proof.
  unfold discoverSitemapUrls.
  destruct (URL_new baseUrl) as [base|]; simpl; [| done].
  destruct (discover_loop _ _ fuel _) as [st| |] eqn:Hloop; simpl; [| done..].
  intros [= <- <-].
  destruct (discover_loop_log _ _ _ _ _ _ Hloop
              (sm_init_log_inv XMLParser_parse fetchText base extraSitemaps)) as [Hi _].
  split; [apply Hi |].
  exists base. destruct fuel as [|fuel]; [done |].
  revert Hloop. unfold sm_init, Array_from_Set. simpl.
  do 2 (case_bool_decide as Hempty; [by apply not_elem_of_empty in Hempty |]; clear Hempty).
  assert (∀ b st1, discover_loop XMLParser_parse fetchText fuel st1 = Done st →
            sm_fetches st1 = [(protocol base +:+ "//" +:+ host base +:+ "/sitemap.xml", b)] →
            ∃ ok rest, sm_fetches st =
              (protocol base +:+ "//" +:+ host base +:+ "/sitemap.xml", ok) :: rest) as Hfirst.
  { intros b st1 Hl Hlog.
    assert (∃ more, sm_fetches st = sm_fetches st1 ++ more) as [more Hmore].
    { clear Hlog Hi. revert st1 Hl. induction fuel as [|fuel IH]; intros st1; simpl; [done |].
      destruct (sm_queue st1); [intros [= <-]; exists []; by rewrite app_nil_r |].
      case_bool_decide; [| intros [= <-]; exists []; by rewrite app_nil_r].
      case_bool_decide; [intros Hl; by apply (IH _ Hl) |].
      destruct (fetchText _ _); [case_bool_decide |]; intros Hl;
        destruct (IH _ Hl) as [more Hmore]; simpl in Hmore;
        eexists; rewrite Hmore, <- app_assoc; done. }
    rewrite Hmore, Hlog. eauto. }
  destruct (fetchText 0%nat _) as [text|]; [case_bool_decide |]; intros Hl;
    destruct (Hfirst _ _ Hl eq_refl) as (ok & rest & ->); eauto.
Qed.

Lemma example_sitemap_run :
  discoverSitemapUrls (H := RefUrl) example_sitemap_parse example_sitemap_fetch 4
    "https://shop.example/" [] = Done (example_discovered, example_sitemap_log).
Proof. vm_compute. reflexivity. Qed.

Lemma discoverSitemapUrls_requests_witness :
  NoDup example_sitemap_log.*1
  ∧ ∃ base ok rest,
      URL_new "https://shop.example/" = Some base
      ∧ example_sitemap_log
        = (protocol base +:+ "//" +:+ host base +:+ "/sitemap.xml", ok) :: rest.
Proof.
  apply (discoverSitemapUrls_requests (H := RefUrl) example_sitemap_parse
           example_sitemap_fetch 4 "https://shop.example/" [] example_discovered).
  vm_compute. reflexivity.
Defined.

(** X9.  [discoverSitemapUrls] throws exactly when the base URL does not
    parse: a request that fails, an empty answer and a document that is
    not XML never make it throw. *)
Theorem discoverSitemapUrls_throws `{UrlApi}
    (XMLParser_parse : string → option xml_doc)
    (fetchText : nat → string → option string)
    (baseUrl : string) (extraSitemaps : list string) :
  (URL_new baseUrl = None →
   ∀ fuel, discoverSitemapUrls XMLParser_parse fetchText fuel baseUrl extraSitemaps = Raise)
  ∧ (is_Some (URL_new baseUrl) →
     ∃ n, ∀ fuel, (n ≤ fuel)%nat →
       ∃ r log, discoverSitemapUrls XMLParser_parse fetchText fuel baseUrl extraSitemaps
                = Done (r, log)).
Proof.
  split.
  - intros Hb fuel. unfold discoverSitemapUrls. by rewrite Hb.
  - apply discoverSitemapUrls_returns.
Qed.

(** X10.  The sitemaps [discoverSitemapUrls] returns are the requests that
    gave a text, in the order of the requests; the URLs it returns are
    without duplicates, and each is the trimmed [loc] of a [urlset] entry
    of a document that was fetched. *)
Theorem discoverSitemapUrls_result `{UrlApi}
    (XMLParser_parse : string → option xml_doc)
    (fetchText : nat → string → option string)
    (fuel : nat) (baseUrl : string) (extraSitemaps : list string)
    (r : Discovered) (log : list (string * bool)) :
  discoverSitemapUrls XMLParser_parse fetchText fuel baseUrl extraSitemaps = Done (r, log) →
  foundSitemaps r = (filter (λ e, e.2 = true) log).*1
  ∧ NoDup (d_urls r)
  ∧ ∀ u, u ∈ d_urls r → listed XMLParser_parse fetchText urlset_url log (length log) u.
Proof.
  unfold discoverSitemapUrls.
  destruct (URL_new baseUrl) as [base|]; simpl; [| done].
  destruct (discover_loop _ _ fuel _) as [st| |] eqn:Hloop; simpl; [| done..].
  intros [= <- <-]. simpl.
  destruct (discover_loop_log _ _ _ _ _ _ Hloop
              (sm_init_log_inv XMLParser_parse fetchText base extraSitemaps))
    as [[Hs Hnd Hf Hu Hqu Hr] _].
  split_and!.
  - unfold Array_from_Set. rewrite dedupe_from_NoDup_id; [done | |].
    + rewrite Hf. eapply sublist_NoDup; [apply Hnd |].
      apply fmap_sublist, sublist_filter.
    + intros x _. apply not_elem_of_empty.
  - apply dedupe_from_NoDup.
  - intros u [Hin _]%dedupe_from_elem. by apply Hu.
Qed.

Lemma discoverSitemapUrls_result_witness :
  foundSitemaps example_discovered = (filter (λ e, e.2 = true) example_sitemap_log).*1
  ∧ NoDup (d_urls example_discovered)
  ∧ ∀ u, u ∈ d_urls example_discovered →
         listed example_sitemap_parse example_sitemap_fetch urlset_url example_sitemap_log
           (length example_sitemap_log) u.
Proof.
  apply (discoverSitemapUrls_result (H := RefUrl) example_sitemap_parse
           example_sitemap_fetch 4 "https://shop.example/" []).
  vm_compute. reflexivity.
Defined.

(** X11.  [discoverSitemapUrls] requests only URLs it was told of: the
    default sitemap of the site, the sitemaps robots.txt names, and the
    trimmed [loc] of a [sitemapindex] entry of a document an earlier
    request fetched. *)
Theorem discoverSitemapUrls_known `{UrlApi}
    (XMLParser_parse : string → option xml_doc)
    (fetchText : nat → string → option string)
    (fuel : nat) (baseUrl : string) (extraSitemaps : list string)
    (r : Discovered) (log : list (string * bool)) :
  discoverSitemapUrls XMLParser_parse fetchText fuel baseUrl extraSitemaps = Done (r, log) →
  ∃ base, URL_new baseUrl = Some base ∧
    ∀ j sm ok, log !! j = Some (sm, ok) →
      sm = protocol base +:+ "//" +:+ host base +:+ "/sitemap.xml"
      ∨ sm ∈ extraSitemaps
      ∨ listed XMLParser_parse fetchText sitemapindex_sitemap log j sm.
Proof.
  unfold discoverSitemapUrls.
  destruct (URL_new baseUrl) as [base|]; simpl; [| done].
  destruct (discover_loop _ _ fuel _) as [st| |] eqn:Hloop; simpl; [| done..].
  intros [= <- <-]. exists base. split; [done |].
  destruct (discover_loop_log _ _ _ _ _ _ Hloop
              (sm_init_log_inv XMLParser_parse fetchText base extraSitemaps))
    as [[Hs Hnd Hf Hu Hqu Hr] _].
  intros j sm ok Hj. destruct (Hr j _ Hj) as [Hk | Hl]; simpl in *; [| eauto].
  apply elem_of_cons in Hk as [-> | Hin]; eauto.
Qed.

Lemma discoverSitemapUrls_known_witness :
  ∃ base, URL_new "https://shop.example/" = Some base ∧
    ∀ j sm ok, example_sitemap_log !! j = Some (sm, ok) →
      sm = protocol base +:+ "//" +:+ host base +:+ "/sitemap.xml"
      ∨ sm ∈ []
      ∨ listed example_sitemap_parse example_sitemap_fetch sitemapindex_sitemap
          example_sitemap_log j sm.
Proof.
  apply (discoverSitemapUrls_known (H := RefUrl) example_sitemap_parse
           example_sitemap_fetch 4 "https://shop.example/" [] example_discovered).
  vm_compute. reflexivity.
Defined.

(** ** crawl.ts: what the crawler emits *)

Section CrawlEmitFacts.
Context `{UrlApi}.
Variable fetchLinks : nat → string → option (list string).
Variable base : string.
Variable robots : RobotsRules.
Variables maxPages maxDepth : nat.

#[local] Abbreviation eloop := (crawl_loop fetchLinks base robots maxPages maxDepth).
#[local] Abbreviation linked := (linked_from fetchLinks base).

Lemma linked_from_mono (pages pages' : list string) (u : string) :
  (∀ p, p ∈ pages → p ∈ pages') → linked pages u → linked pages' u.
Proof.
  intros Hsub (pageUrl & i & hrefs & href & abs & Hp & Hrest).
  exists pageUrl, i, hrefs, href, abs. split; [by apply Hsub | done].
Qed.

Lemma crawl_links_new (pageUrl : string) (depth : nat) (hrefs : list string)
    (acc acc' : list (string * nat) * gset string) :
  crawl_links base pageUrl depth acc hrefs = Done acc' →
  ∀ u d, (u, d) ∈ acc'.1 →
    (u, d) ∈ acc.1
    ∨ ∃ href abs, href ∈ hrefs ∧ toAbsoluteUrl pageUrl href = Some abs
                  ∧ sameOrigin base abs = Some true ∧ stripUtm abs = Some u
                  ∧ looksExcluded u = Some false.
Proof.
  revert acc. induction hrefs as [|href hrefs IH]; intros acc; simpl.
  { intros [= <-] u d Hu. by left. }
  destruct (crawl_link base pageUrl depth acc href) as [acc1| |] eqn:Hlink; simpl; [| done..].
  intros Hl u d Hu.
  destruct (IH _ Hl u d Hu) as [Hin | (href' & abs & Hh & Hrest)].
  2:{ right. exists href', abs. split; [by right | done]. }
  revert Hlink. unfold crawl_link.
  destruct (toAbsoluteUrl pageUrl href) as [abs|] eqn:Habs; [| intros [= <-]; by left].
  case_bool_decide; [intros [= <-]; by left |].
  destruct (sameOrigin base abs) as [[|]|] eqn:Hso; simpl; [| intros [= <-]; by left | done].
  destruct (stripUtm abs) as [norm|] eqn:Hnorm; simpl; [| done].
  case_bool_decide; [intros [= <-]; by left |].
  destruct (looksExcluded norm) as [[|]|] eqn:Hex; simpl; [| | done].
  - intros [= <-]. by left.
  - intros [= <-]. simpl in Hin.
    apply elem_of_app in Hin as [Hin | [= -> ->]%list_elem_of_singleton]; [by left |].
    right. exists href, abs. split; [by left | done].
Qed.

Lemma crawl_loop_emits (fuel : nat) (st : crawl_state) (r : list string) :
  eloop fuel st = Done r →
  (∀ u d, (u, d) ∈ c_queue st → u = base ∨ linked (c_found st) u) →
  (∀ u, u ∈ c_found st →
        isAllowedByRobots base robots u = Some true ∧ (u = base ∨ linked (c_found st) u)) →
  (∃ rest, r = c_found st ++ rest)
  ∧ ∀ u, u ∈ r → isAllowedByRobots base robots u = Some true ∧ (u = base ∨ linked r u).
Proof.
  revert st. induction fuel as [|fuel IH]; intros st; simpl; [done |].
  destruct (c_queue st) as [|[u depth] rest] eqn:Hq.
  { intros [= <-] _ Hf. split; [exists []; by rewrite app_nil_r | done]. }
  destruct (_ && _).
  2:{ intros [= <-] _ Hf. split; [exists []; by rewrite app_nil_r | done]. }
  destruct (isAllowedByRobots base robots u) as [[|]|] eqn:Hallowed; simpl; [| | done].
  2:{ intros Hl Hqu Hf. apply (IH _ Hl); simpl; [| done].
      intros v d Hv. apply (Hqu v d). by right. }
  assert (∀ v, v ∈ c_found st → v ∈ c_found st ++ [u]) as Hsub
    by (intros v Hv; apply elem_of_app; by left).
  assert (∀ q seen1, eloop fuel {| c_queue := q; c_seen := seen1;
                                   c_found := c_found st ++ [u] |} = Done r →
            (∀ v d, (v, d) ∈ q → v = base ∨ linked (c_found st ++ [u]) v) →
            (∀ v d, (v, d) ∈ (u, depth) :: rest → v = base ∨ linked (c_found st) v) →
            (∀ v, v ∈ c_found st →
                  isAllowedByRobots base robots v = Some true
                  ∧ (v = base ∨ linked (c_found st) v)) →
            (∃ rest', r = c_found st ++ rest')
            ∧ ∀ v, v ∈ r → isAllowedByRobots base robots v = Some true
                           ∧ (v = base ∨ linked r v)) as Hemit.
  { intros q seen1 Hl Hq1 Hqu Hf.
    destruct (IH _ Hl) as [[rest' Hrest] Hr]; simpl; [done | |].
    - intros v [Hv | ->%list_elem_of_singleton]%elem_of_app.
      + destruct (Hf v Hv) as [Hal [-> | Hlk]]; [by split; [| left] |].
        split; [done |]. right. by eapply linked_from_mono.
      + split; [done |]. destruct (Hqu u depth) as [-> | Hlk]; [by left | by left |].
        right. by eapply linked_from_mono.
    - split; [| done]. exists ([u] ++ rest'). simpl in Hrest. by rewrite Hrest, <- app_assoc. }
  case_bool_decide.
  { intros Hl Hqu Hf. apply (Hemit _ _ Hl); [| done..].
    intros v d Hv. destruct (Hqu v d) as [-> | Hlk]; [by right | by left |].
    right. by eapply linked_from_mono. }
  destruct (fetchLinks (length (c_found st)) u) as [hrefs|] eqn:Hfetch.
  2:{ intros Hl Hqu Hf. apply (Hemit _ _ Hl); [| done..].
      intros v d Hv. destruct (Hqu v d) as [-> | Hlk]; [by right | by left |].
      right. by eapply linked_from_mono. }
  destruct (crawl_links base u depth (rest, c_seen st) hrefs) as [acc| |] eqn:Hlinks;
    simpl; [| done..].
  intros Hl Hqu Hf. apply (Hemit _ _ Hl); [| done..].
  intros v d Hv.
  destruct (crawl_links_new _ _ _ _ _ Hlinks v d Hv) as [Hin | (href & abs & Hh & Hrest)].
  - simpl in Hin. destruct (Hqu v d) as [-> | Hlk]; [by right | by left |].
    right. by eapply linked_from_mono.
  - right. exists u, (length (c_found st)), hrefs, href, abs.
    split; [| done]. apply elem_of_app. right. by apply list_elem_of_singleton.
Qed.
End CrawlEmitFacts.

(** X12.  Every URL the crawler returns is allowed by the robots rules,
    and so on the origin of the seed; and it is the seed, or it was found
    on a page the crawler returns: a link of that page is on the origin of
    the seed, gives the URL when its tracking parameters are removed, and
    the URL is not excluded. *)
Theorem crawlInternalLinks_emits `{UrlApi}
    (fetchLinks : nat → string → option (list string))
    (fuel : nat) (seedUrl : string) (robots : RobotsRules) (maxPages maxDepth : nat)
    (found : list string) :
  crawlInternalLinks fetchLinks fuel seedUrl robots maxPages maxDepth = Done found →
  ∃ base, normalizeUrl seedUrl = Some base ∧
    ∀ u, u ∈ found →
      isAllowedByRobots base robots u = Some true
      ∧ sameOrigin base u = Some true
      ∧ (u = base ∨ linked_from fetchLinks base found u).
Proof.
  unfold crawlInternalLinks.
  destruct (normalizeUrl seedUrl) as [base|]; simpl; [| done].
  destruct (stripUtm base) as [seen0|]; simpl; [| done].
  destruct (crawl_loop _ _ _ _ _ fuel _) as [found0| |] eqn:Hloop; simpl; [| done..].
  intros [= <-]. exists base. split; [done |].
  destruct (crawl_loop_emits _ _ _ _ _ _ _ _ Hloop) as [_ Hr]; simpl.
  { intros u d [= -> ->]%list_elem_of_singleton. by left. }
  { intros u Hu. by apply elem_of_nil in Hu. }
  intros u [Hu _]%dedupe_from_elem. destruct (Hr u Hu) as [Hal Hlk].
  split; [done |]. split.
  - revert Hal. unfold isAllowedByRobots.
    destruct (sameOrigin base u) as [[|]|]; simpl; done.
  - destruct Hlk as [-> | Hlk]; [by left |]. right.
    eapply linked_from_mono; [| done].
    intros p Hp. apply dedupe_from_elem. split; [done | apply not_elem_of_empty].
Qed.

Lemma crawlInternalLinks_emits_witness :
  ∃ base, normalizeUrl "site.example/p0" = Some base ∧
    ∀ u, u ∈ (λ i : nat, "https://site.example/p" +:+ pretty i) <$> seq 0 12 →
      isAllowedByRobots base no_rules u = Some true
      ∧ sameOrigin base u = Some true
      ∧ (u = base ∨ linked_from (complete_site 12) base
                      ((λ i : nat, "https://site.example/p" +:+ pretty i) <$> seq 0 12) u).
Proof.
  apply (crawlInternalLinks_emits (H := RefUrl) (complete_site 12) 13
           "site.example/p0" no_rules MAX_PAGES MAX_DEPTH).
  vm_compute. reflexivity.
Defined.

Section CrawlSeedFacts.
Context `{UrlApi}.
Variable fetchLinks : nat → string → option (list string).
Variable robots : RobotsRules.

(** X13.  A seed the robots rules refuse gives an empty crawl; a seed they
    allow is the first URL of the crawl. *)
Theorem crawlInternalLinks_seed (seedUrl base : string) (maxPages maxDepth : nat) :
  normalizeUrl seedUrl = Some base → is_Some (stripUtm base) →
  (isAllowedByRobots base robots base = Some false →
   ∀ fuel, (2 ≤ fuel)%nat →
     crawlInternalLinks fetchLinks fuel seedUrl robots maxPages maxDepth = Done [])
  ∧ (isAllowedByRobots base robots base = Some true → (0 < maxPages)%nat →
     ∀ fuel found,
       crawlInternalLinks fetchLinks fuel seedUrl robots maxPages maxDepth = Done found →
       ∃ rest, found = base :: rest).
Proof.
  intros Hbase [seen0 Hseen]. unfold crawlInternalLinks.
  rewrite Hbase. cbn [attempt mbind run_bind]. rewrite Hseen. cbn [attempt mbind run_bind].
  split.
  - intros Hal [|[|fuel]] Hfuel; [lia.. |]. simpl.
    destruct (_ && _); [| done].
    rewrite Hal. done.
  - intros Hal Hpages [|fuel] found; [done |]. simpl.
    rewrite !bool_decide_eq_true_2 by (unfold maxQueue; lia).
    simpl. rewrite Hal. simpl.
    assert (∀ st, crawl_loop fetchLinks base robots maxPages maxDepth fuel st ≫=
                    (λ found0, Done (Array_from_Set found0)) = Done found →
              c_found st = [base] → ∃ rest, found = base :: rest) as Hfirst.
    { intros st Hl Hf.
      destruct (crawl_loop _ _ _ _ _ fuel st) as [found0| |] eqn:Hloop; simpl in Hl; [| done..].
      injection Hl as <-.
      assert (∃ rest, found0 = c_found st ++ rest) as [rest ->].
      { clear Hf. revert st Hloop. induction fuel as [|fuel IH]; intros st; simpl; [done |].
        destruct (c_queue st) as [|[u depth] rest];
          [intros [= <-]; exists []; by rewrite app_nil_r |].
        destruct (_ && _); [| intros [= <-]; exists []; by rewrite app_nil_r].
        destruct (isAllowedByRobots base robots u) as [[|]|]; simpl; [| | done].
        2:{ intros Hl. by apply (IH _ Hl). }
        assert (∀ q s1, crawl_loop fetchLinks base robots maxPages maxDepth fuel
                          {| c_queue := q; c_seen := s1; c_found := c_found st ++ [u] |}
                        = Done found0 → ∃ rest', found0 = c_found st ++ rest') as Hnext.
        { intros q s1 Hl. destruct (IH _ Hl) as [rest' ->]. simpl.
          exists ([u] ++ rest'). by rewrite <- app_assoc. }
        case_bool_decide; [apply Hnext |].
        destruct (fetchLinks _ _); [| apply Hnext].
        destruct (crawl_links _ _ _ _ _); simpl; [apply Hnext | done..]. }
      rewrite Hf. unfold Array_from_Set. simpl.
      rewrite bool_decide_eq_false_2 by apply not_elem_of_empty. eauto. }
    case_bool_decide; [intros Hl; by apply (Hfirst _ Hl) |].
    destruct (fetchLinks 0%nat base); [| intros Hl; by apply (Hfirst _ Hl)].
    destruct (crawl_links _ _ _ _ _); simpl; [intros Hl; by apply (Hfirst _ Hl) | done..].
Qed.

End CrawlSeedFacts.

Lemma crawlInternalLinks_seed_witness :
  (isAllowedByRobots "https://site.example/p0"
     {| sitemaps := []; disallow := ["/p"] |} "https://site.example/p0" = Some false →
   ∀ fuel, (2 ≤ fuel)%nat →
     crawlInternalLinks (H := RefUrl) (complete_site 12) fuel "site.example/p0"
       {| sitemaps := []; disallow := ["/p"] |} MAX_PAGES MAX_DEPTH = Done [])
  ∧ (isAllowedByRobots "https://site.example/p0"
       {| sitemaps := []; disallow := ["/p"] |} "https://site.example/p0" = Some true →
     (0 < MAX_PAGES)%nat →
     ∀ fuel found,
       crawlInternalLinks (H := RefUrl) (complete_site 12) fuel "site.example/p0"
         {| sitemaps := []; disallow := ["/p"] |} MAX_PAGES MAX_DEPTH = Done found →
       ∃ rest, found = "https://site.example/p0" :: rest).
Proof.
  apply (crawlInternalLinks_seed (H := RefUrl) (complete_site 12)
           {| sitemaps := []; disallow := ["/p"] |} "site.example/p0"
           "https://site.example/p0" MAX_PAGES MAX_DEPTH).
  - vm_compute. reflexivity.
  - vm_compute. eauto.
Defined.


(** X15.  On a URL class that keeps the contract the crawl throws exactly
    when the seed does not normalise: nothing a site serves makes it
    throw. *)
Theorem crawlInternalLinks_throws `{UrlLaws}
    (fetchLinks : nat → string → option (list string))
    (seedUrl : string) (robots : RobotsRules) (maxPages maxDepth : nat) :
  (normalizeUrl seedUrl = None →
   ∀ fuel, crawlInternalLinks fetchLinks fuel seedUrl robots maxPages maxDepth = Raise)
  ∧ (is_Some (normalizeUrl seedUrl) →
     ∃ n, ∀ fuel, (n ≤ fuel)%nat →
       ∃ found,
         crawlInternalLinks fetchLinks fuel seedUrl robots maxPages maxDepth = Done found).
Proof.
  split.
  - intros Hn fuel. unfold crawlInternalLinks. by rewrite Hn.
  - apply crawlInternalLinks_returns.
Qed.

Lemma crawlInternalLinks_throws_witness :
  (normalizeUrl "  " = None →
   ∀ fuel, crawlInternalLinks (H := RefUrl) (complete_site 12) fuel "  " no_rules
             MAX_PAGES MAX_DEPTH = Raise)
  ∧ (is_Some (normalizeUrl "  ") →
     ∃ n, ∀ fuel, (n ≤ fuel)%nat →
       ∃ found, crawlInternalLinks (H := RefUrl) (complete_site 12) fuel "  " no_rules
                  MAX_PAGES MAX_DEPTH = Done found).
Proof.
  apply (crawlInternalLinks_throws (H := RefUrl) (H0 := RefUrl_laws) (complete_site 12)
           "  " no_rules MAX_PAGES MAX_DEPTH).
Defined.

(** ** buildFunnels: the list of funnels *)

Section SortFacts.
Context {A : Type} (key : A → Z).

#[local] Abbreviation by_key := (λ a b : A, key b - key a).
#[local] Abbreviation descending := (λ a b : A, key b ≤ key a).

Lemma sort_insert_sorted (x : A) (l : list A) :
  StronglySorted descending l → StronglySorted descending (sort_insert by_key x l).
Proof.
  induction 1 as [|y l Hs IH Hall]; simpl.
  - repeat constructor.
  - destruct (Z.leb_spec (key y - key x) 0) as [Hle | Hgt].
    + constructor; [by constructor |]. constructor; [lia |].
      eapply Forall_impl; [apply Hall |]. simpl. intros z Hz. lia.
    + constructor; [done |]. apply Forall_forall. intros z Hz.
      apply sort_insert_elem in Hz as [-> | Hz]; [lia |].
      by apply (proj1 (Forall_forall _ _) Hall).
Qed.

Lemma Array_sort_sorted (l : list A) : StronglySorted descending (Array_sort by_key l).
Proof.
  unfold Array_sort. induction l as [|x l IH]; simpl; [constructor |].
  by apply sort_insert_sorted.
Qed.

Lemma StronglySorted_lookup (R : relation A) (l : list A) (i j : nat) (a b : A) :
  StronglySorted R l → (i < j)%nat → l !! i = Some a → l !! j = Some b → R a b.
Proof.
  intros Hs. revert i j. induction Hs as [|x l Hs IH Hall]; intros i j Hij Hi Hj; [done |].
  destruct j as [|j]; [lia |]. destruct i as [|i]; simpl in *.
  - injection Hi as <-. apply (proj1 (Forall_forall _ _) Hall).
    by eapply list_elem_of_lookup_2.
  - apply (IH i j); [lia | done..].
Qed.
End SortFacts.

Lemma dedupe_funnels_sorted (R : relation FunnelPath) (seen : gset string)
    (l : list FunnelPath) :
  StronglySorted R l → StronglySorted R (dedupe_funnels seen l).
Proof.
  intros Hs. revert seen. induction Hs as [|f l Hs IH Hall]; intros seen; simpl; [constructor |].
  case_bool_decide; [apply IH |].
  constructor; [apply IH |]. apply Forall_forall. intros g Hg%dedupe_funnels_elem.
  by apply (proj1 (Forall_forall _ _) Hall).
Qed.

Lemma dedupe_funnels_keys (seen : gset string) (l : list FunnelPath) :
  NoDup (funnel_key <$> dedupe_funnels seen l)
  ∧ ∀ g, g ∈ dedupe_funnels seen l → funnel_key g ∉ seen.
Proof.
  revert seen. induction l as [|f l IH]; intros seen; simpl.
  - split; [constructor | by intros g Hg%elem_of_nil].
  - case_bool_decide as Hk; [apply IH |].
    destruct (IH ({[funnel_key f]} ∪ seen)) as [Hnd Hout]. split.
    + rewrite fmap_cons. constructor; [| done].
      intros (g & Heq & Hg)%list_elem_of_fmap. apply (Hout g Hg).
      apply elem_of_union. left. by apply elem_of_singleton.
    + intros g [-> | Hg]%elem_of_cons; [done |].
      intros Hin. apply (Hout g Hg). apply elem_of_union. by right.
Qed.

Lemma dedupe_funnels_keeps (seen : gset string) (l : list FunnelPath) (f : FunnelPath) :
  f ∈ l → funnel_key f ∉ seen →
  ∃ g, g ∈ dedupe_funnels seen l ∧ funnel_key g = funnel_key f.
Proof.
  revert seen. induction l as [|h l IH]; intros seen Hf Hk; [by apply elem_of_nil in Hf |].
  simpl. apply elem_of_cons in Hf as [-> | Hf].
  - rewrite bool_decide_eq_false_2 by done. exists h. split; [by left | done].
  - case_bool_decide as Hh; [by apply IH |].
    destruct (decide (funnel_key f = funnel_key h)) as [Heq | Hne].
    + exists h. split; [by left | done].
    + destruct (IH ({[funnel_key h]} ∪ seen) Hf) as (g & Hg & Hgk).
      * rewrite not_elem_of_union, elem_of_singleton. done.
      * exists g. split; [by right | done].
Qed.

(** X16.  [buildFunnels] returns its funnels in the order of their
    confidence, the highest first. *)
Theorem buildFunnels_sorted `{UrlApi} (adPages : list PageFinding)
    (fs : list FunnelPath) (i j : nat) (f g : FunnelPath) :
  buildFunnels adPages = Done fs → (i < j)%nat →
  fs !! i = Some f → fs !! j = Some g →
  confidence g ≤ confidence f.
Proof.
  unfold buildFunnels.
  destruct (funnels_loop _ _ _ adPages []) as [fs0| |]; simpl; [| done..].
  intros [= <-] Hij Hi Hj.
  eapply (StronglySorted_lookup (λ a b, confidence b ≤ confidence a)); [| done..].
  apply dedupe_funnels_sorted, (Array_sort_sorted confidence).
Qed.

Lemma buildFunnels_sorted_witness : 75 ≤ 90.
Proof.
  apply (buildFunnels_sorted (H := RefUrl) example_pages
           [example_funnel; example_funnel_direct] 0 1 example_funnel example_funnel_direct).
  - vm_compute. reflexivity.
  - lia.
  - reflexivity.
  - reflexivity.
Defined.

(** *** The search finds a nearest conversion page *)

Lemma last_satisfying {A} (P : A → Prop) `{!∀ x, Decision (P x)} (l : list A) :
  (∀ x, x ∈ l → ¬ P x) ∨ ∃ l1 x l2, l = l1 ++ x :: l2 ∧ P x ∧ ∀ y, y ∈ l2 → ¬ P y.
Proof.
  induction l as [|x l IH]; [left; by intros x Hx%elem_of_nil |].
  destruct IH as [Hnone | (l1 & y & l2 & -> & Hy & Hl2)].
  - destruct (decide (P x)) as [Hx | Hx].
    + right. by exists [], x, l.
    + left. intros y [-> | Hy]%elem_of_cons; [done | by apply Hnone].
  - right. by exists (x :: l1), y, l2.
Qed.

Section BfsComplete.
Context `{UrlApi}.
Variable adj : gmap string (list string).
Variable start : string.
Variable U : gset string.
Hypothesis adj_in_U : ∀ u n, n ∈ default [] (adj !! u) → n ∈ U.

#[local] Abbreviation cinv := (bfs_inv adj start U).

Lemma is_path_edge (from : string) (path l1 l2 : list string) (a b : string) :
  is_path adj from path → from :: path = l1 ++ a :: b :: l2 →
  b ∈ default [] (adj !! a).
Proof.
  revert from path. induction l1 as [|x l1 IH]; intros from path Hp Heq; simpl in Heq.
  - injection Heq as -> ->. by destruct Hp.
  - injection Heq as -> Hpath. destruct path as [|y path]; [by destruct l1 |].
    destruct Hp as [_ Hp]. by apply (IH y path).
Qed.

(** What the [for] loop over the links of [cur] does to the state. *)
Lemma bfs_visits_spec (cur : string) (d : nat) (nbrs : list string) (st : bfs_state) :
  (∀ x, x ∈ bfs_visited (foldl (bfs_visit cur d) st nbrs) ↔ x ∈ bfs_visited st ∨ x ∈ nbrs)
  ∧ (∀ x, x ∈ bfs_visited st →
          bfs_depth (foldl (bfs_visit cur d) st nbrs) !! x = bfs_depth st !! x)
  ∧ ∃ news,
      bfs_queue (foldl (bfs_visit cur d) st nbrs) = bfs_queue st ++ news
      ∧ (∀ n, n ∈ news →
              (n ∉ bfs_visited st)
              ∧ bfs_depth (foldl (bfs_visit cur d) st nbrs) !! n = Some (S d))
      ∧ (∀ x, x ∈ bfs_visited (foldl (bfs_visit cur d) st nbrs) →
              x ∉ bfs_visited st → x ∈ news).
Proof.
  revert st. induction nbrs as [|nxt nbrs IH]; intros st; simpl.
  { split_and!; [intros x; rewrite elem_of_nil; tauto | done |].
    exists []. rewrite app_nil_r. split_and!; [done | by intros n Hn%elem_of_nil | done]. }
  destruct (decide (nxt ∈ bfs_visited st)) as [Hb | Hb].
  - assert (bfs_visit cur d st nxt = st) as ->
      by (unfold bfs_visit; by rewrite bool_decide_eq_true_2).
    destruct (IH st) as (Hv & Hd & news & Hq & Hnews & Hnew).
    split_and!; [| done | by exists news].
    intros x. rewrite Hv, elem_of_cons. split; [tauto |].
    intros [? | [-> | ?]]; tauto.
  - assert (bfs_visit cur d st nxt =
            {| bfs_queue := bfs_queue st ++ [nxt];
               bfs_visited := {[nxt]} ∪ bfs_visited st;
               bfs_parent := <[nxt := Some cur]> (bfs_parent st);
               bfs_depth := <[nxt := S d]> (bfs_depth st) |}) as ->
      by (unfold bfs_visit; by rewrite bool_decide_eq_false_2).
    destruct (IH {| bfs_queue := bfs_queue st ++ [nxt];
                    bfs_visited := {[nxt]} ∪ bfs_visited st;
                    bfs_parent := <[nxt := Some cur]> (bfs_parent st);
                    bfs_depth := <[nxt := S d]> (bfs_depth st) |})
      as (Hv & Hd & news & Hq & Hnews & Hnew).
    simpl in Hv, Hd, Hq, Hnews, Hnew. split_and!.
    + intros x. rewrite Hv, elem_of_union, elem_of_singleton, elem_of_cons. tauto.
    + intros x Hx. rewrite Hd by (apply elem_of_union; by right).
      rewrite lookup_insert_ne; [done | by intros ->].
    + exists (nxt :: news). split_and!.
      * rewrite Hq. by rewrite <- app_assoc.
      * intros n [-> | Hn]%elem_of_cons.
        -- split; [done |].
           rewrite Hd by (apply elem_of_union; left; by apply elem_of_singleton).
           by rewrite lookup_insert_eq.
        -- destruct (Hnews n Hn) as [Hnv Hnd]. split; [| done].
           intros Hin. apply Hnv. apply elem_of_union. by right.
      * intros x Hx Hnx. destruct (decide (x = nxt)) as [-> | Hne]; [by left |].
        right. apply Hnew; [done |]. rewrite not_elem_of_union, elem_of_singleton. done.
Qed.

Lemma bfs_loop_finds (path : list string) (c : string) :
  is_path adj start path → last path = Some c → c ≠ start →
  isProbablyConversion c = Some true → (length path ≤ maxSteps)%nat →
  ∀ fuel st r st',
    cinv st → (∃ d, queue_levels d st) → path_pending start path st →
    bfs_loop adj start fuel st = Done (r, st') →
    ∃ c' d', r = Some c' ∧ bfs_depth st' !! c' = Some d' ∧ (d' ≤ length path)%nat.
Proof.
  intros Hpath Hlast Hcs Hconv Hlen.
  induction fuel as [|fuel IH];
    intros st r st' Hi [d0 [Hlv Hsorted]] (l1 & a & l2 & Hfull & Haq & Hda & Hl2);
    simpl; [done |].
  destruct (bfs_queue st) as [|cur rest] eqn:Hq; [by apply elem_of_nil in Haq |].
  destruct (bfs_shift_inv adj start U st cur rest Hi Hq) as [Hi' Hcur].
  destruct (bfs_inv_depth adj start U st cur Hi Hcur) as [d Hd]. rewrite Hd. simpl.
  assert (depth_of st cur = d) as Hdc by (unfold depth_of; by rewrite Hd).
  assert (length l1 ≤ length path)%nat as Hl1.
  { apply (f_equal length) in Hfull. rewrite length_app in Hfull. simpl in Hfull. lia. }
  assert (∀ x, x ∈ cur :: rest → (d ≤ depth_of st x)%nat) as Hhead.
  { intros x [j Hj]%list_elem_of_lookup_1. rewrite <- Hdc.
    apply (Hsorted 0%nat j cur x); [lia | done | done]. }
  pose proof (Hhead a Haq) as Hdle.
  rewrite bool_decide_eq_false_2 by lia.
  assert (expanded start cur →
          bfs_loop adj start fuel
            (foldl (bfs_visit cur d) (bfs_shift rest st) (default [] (adj !! cur)))
          = Done (r, st') →
          ∃ c' d', r = Some c' ∧ bfs_depth st' !! c' = Some d' ∧ (d' ≤ length path)%nat)
    as Hstep.
  { intros Hex Hl.
    destruct (bfs_visits_spec cur d (default [] (adj !! cur)) (bfs_shift rest st))
      as (Hv & Hdep & news & Hq2 & Hnews & Hnew). simpl in Hv, Hdep, Hq2, Hnews, Hnew.
    assert (∀ x, x ∈ rest →
              depth_of (foldl (bfs_visit cur d) (bfs_shift rest st)
                          (default [] (adj !! cur))) x = depth_of st x) as Hsame.
    { intros x Hx. unfold depth_of. rewrite Hdep; [done |].
      apply (inv_queue _ _ _ _ Hi). rewrite Hq. by right. }
    assert (∀ x, x ∈ news →
              depth_of (foldl (bfs_visit cur d) (bfs_shift rest st)
                          (default [] (adj !! cur))) x = S d) as Hnewd.
    { intros x Hx. unfold depth_of. by rewrite (proj2 (Hnews x Hx)). }
    assert (∀ x, x ∈ rest → (d ≤ depth_of st x ≤ S d)%nat) as Hrest.
    { intros x Hx. split; [apply Hhead; by right |].
      assert (d0 ≤ depth_of st cur)%nat by (apply Hlv; by left).
      assert (depth_of st x ≤ S d0)%nat by (apply Hlv; by right). lia. }
    eapply IH; cycle 3; [exact Hl | | |].
    - apply bfs_visits_inv; try done. lia.
    - exists d. split.
      + intros x. rewrite Hq2. intros [Hx | Hx]%elem_of_app.
        * rewrite Hsame by done. by apply Hrest.
        * rewrite Hnewd by done. lia.
      + intros i j x y Hij. rewrite Hq2.
        intros [Hx | [Hxl Hx]]%lookup_app_Some [Hy | [Hyl Hy]]%lookup_app_Some.
        * rewrite !Hsame by (by eapply list_elem_of_lookup_2).
          apply (Hsorted (S i) (S j)); [lia | done..].
        * rewrite Hsame by (by eapply list_elem_of_lookup_2).
          rewrite Hnewd by (by eapply list_elem_of_lookup_2).
          apply Hrest. by eapply list_elem_of_lookup_2.
        * apply lookup_lt_Some in Hy. lia.
        * rewrite !Hnewd by (by eapply list_elem_of_lookup_2). done.
    - destruct (last_satisfying
                  (λ b, b ∈ bfs_visited (foldl (bfs_visit cur d) (bfs_shift rest st)
                                           (default [] (adj !! cur)))) l2)
        as [Hnone | (l21 & x & l22 & -> & Hx & Hl22)].
      + apply elem_of_cons in Haq as [-> | Har].
        * exfalso. destruct l2 as [|b l2].
          -- assert (last (start :: path) = Some cur) as Hlc
               by (rewrite Hfull; apply last_snoc).
             destruct path as [|p0 path]; [done |].
             change (last (start :: p0 :: path)) with (last (p0 :: path)) in Hlc.
             assert (cur = c) as -> by congruence.
             destruct Hex as [-> | Hex]; [done | congruence].
          -- apply (Hnone b); [by left |]. apply Hv. right.
             by eapply is_path_edge.
        * exists l1, a, l2. split_and!; [done | | | done].
          -- rewrite Hq2. apply elem_of_app. by left.
          -- by rewrite Hsame.
      + assert (x ∈ news) as Hxn.
        { apply Hnew; [done |]. apply Hl2. apply elem_of_app. right. by left. }
        exists (l1 ++ a :: l21), x, l22. split_and!; [| | | done].
        * rewrite Hfull. by rewrite <- app_assoc.
        * rewrite Hq2. apply elem_of_app. by right.
        * rewrite Hnewd by done. rewrite length_app. simpl. lia. }
  case_bool_decide as Hcstart.
  - destruct (isProbablyConversion cur) as [[|]|] eqn:Hc; simpl; [| | done].
    + intros [= <- <-]. exists cur, d. simpl. split_and!; [done | done | lia].
    + apply Hstep. by right.
  - simpl. apply Hstep. left. by destruct (decide (cur = start)).
Qed.
End BfsComplete.

(** The key of the dedupe step tells the landing pages apart when their
    URLs are ASCII. *)
Lemma funnel_key_landing (f g : FunnelPath) :
  ascii_only (landing f) = true → ascii_only (landing g) = true →
  funnel_key f = funnel_key g → landing f = landing g.
Proof.
  intros Hf Hg. unfold funnel_key.
  assert (∃ c0 rest0, KEY_SEP = String c0 rest0 ∧ (N_of_ascii c0 <? 128)%N = false)
    as (c0 & rest0 & -> & Hc0) by (do 2 eexists; split; vm_compute; reflexivity).
  assert (∀ s, ascii_only s = true → no_char c0 s = true) as Hno.
  { intros s. apply RefFacts.all_chars_impl. intros a Ha.
    apply negb_true_iff, bool_decide_eq_false. intros ->. congruence. }
  intros Heq. apply (f_equal (λ s, (JsString.split_on c0 s).1)) in Heq.
  rewrite !RefFacts.sapp_cons in Heq.
  rewrite !RefFacts.split_on_app, !RefFacts.split_on_here in Heq by (by apply Hno).
  simpl in Heq. by rewrite !RefFacts.sapp_nil_r in Heq.
Qed.

Lemma NoDup_fmap_coarser {A B C} (k : A → B) (h : A → C) (l : list A) :
  NoDup (k <$> l) → (∀ x y, x ∈ l → y ∈ l → h x = h y → k x = k y) → NoDup (h <$> l).
Proof.
  induction l as [|x l IH]; simpl; [constructor |].
  intros [Hx Hnd]%NoDup_cons Hkh. constructor.
  - intros (y & Heq & Hy)%list_elem_of_fmap. apply Hx.
    apply list_elem_of_fmap. exists y. split; [| done].
    apply Hkh; [by left | by right | done].
  - apply IH; [done |]. intros y z Hy Hz. apply Hkh; by right.
Qed.

Section BuildComplete.
Context `{UrlApi}.
Hypothesis no_empty_url : URL_new "" = None.
Variable adPages : list PageFinding.

#[local] Arguments bfs_loop : simpl never.
#[local] Arguments walk_parents : simpl never.

#[local] Abbreviation pages := (make_byUrl adPages).
#[local] Abbreviation links := (make_adj (make_byUrl adPages) adPages).
#[local] Abbreviation search := (funnel_from (length adPages) pages links).

Lemma funnel_from_same (s1 s2 : PageFinding) (f1 f2 : FunnelPath) :
  finalUrl s1 = finalUrl s2 →
  search s1 = Done (Some f1) → search s2 = Done (Some f2) →
  landing f1 = landing f2 ∧ steps f1 = steps f2 ∧ conversion f1 = conversion f2.
Proof.
  intros Heq. unfold funnel_from. rewrite Heq.
  case_bool_decide; [done |]. case_bool_decide; [done |].
  destruct (isProbablyConversion (finalUrl s2)) as [[|]|]; simpl; [done | | done].
  destruct (bfs_loop _ _ _ _) as [[[c|] st']| |]; simpl; [| done..].
  case_bool_decide; [done |].
  destruct (walk_parents _ _ _ _ _) as [path| |]; simpl; [| done..].
  by intros [= <-] [= <-].
Qed.

Lemma funnel_from_landing (start : PageFinding) (f : FunnelPath) :
  search start = Done (Some f) → landing f = finalUrl start.
Proof.
  unfold funnel_from. case_bool_decide; [done |].
  destruct (isProbablyConversion (finalUrl start)) as [[|]|]; simpl; [done | | done].
  destruct (bfs_loop _ _ _ _) as [[[c|] st']| |]; simpl; [| done..].
  case_bool_decide; [done |].
  destruct (walk_parents _ _ _ _ _) as [path| |]; simpl; [| done..].
  by intros [= <-].
Qed.

(** A landing candidate with a conversion page in reach gives a funnel,
    and no longer a one than the path that leads there. *)
Lemma funnel_from_found (start : PageFinding) (path : list string) (c : string)
    (r : option FunnelPath) :
  start ∈ adPages → AD_LIKE_THRESHOLD ≤ score start →
  isProbablyConversion (finalUrl start) = Some false →
  is_path links (finalUrl start) path → last path = Some c →
  isProbablyConversion c = Some true → (length path ≤ maxSteps)%nat →
  search start = Done r →
  ∃ f, r = Some f ∧ (length (steps f) ≤ length path)%nat.
Proof.
  intros Hs Hscore Hland Hpath Hlast Hconv Hlen. unfold funnel_from.
  rewrite bool_decide_eq_false_2 by lia. rewrite Hland. simpl.
  assert (∀ u n, n ∈ default [] (links !! u) → n ∈ dom pages) as HU
    by (intros u n; apply make_adj_targets).
  assert (finalUrl start ∈ dom pages) as HsU
    by (apply elem_of_dom, make_byUrl_page, Hs).
  pose proof (bfs_init_inv links (finalUrl start) (dom pages) HsU) as Hi.
  destruct (bfs_loop links (finalUrl start) (S (length adPages)) (bfs_init (finalUrl start)))
    as [[r0 st']| |] eqn:Hloop; simpl; [| done..].
  assert (∃ d, queue_levels d (bfs_init (finalUrl start))) as Hlevels.
  { exists 0%nat. split; simpl.
    - intros a ->%list_elem_of_singleton. unfold depth_of. simpl.
      rewrite lookup_singleton_eq. simpl. lia.
    - intros i j a b Hij Ha Hb.
      apply list_lookup_singleton_Some in Ha as [_ <-].
      apply list_lookup_singleton_Some in Hb as [_ <-]. done. }
  assert (path_pending (finalUrl start) path (bfs_init (finalUrl start))) as Hpending.
  { destruct (last_satisfying (λ b, b ∈ bfs_visited (bfs_init (finalUrl start))) path)
      as [Hnone | (l1 & x & l2 & -> & Hx & Hl2)].
    - exists [], (finalUrl start), path. split_and!; [done | | | done].
      + simpl. by left.
      + unfold depth_of. simpl. rewrite lookup_singleton_eq. simpl. lia.
    - simpl in Hx. apply elem_of_singleton in Hx as ->.
      exists (finalUrl start :: l1), (finalUrl start), l2. split_and!; [done | | | done].
      + simpl. by left.
      + unfold depth_of. simpl. rewrite lookup_singleton_eq. simpl. lia. }
  assert (c ≠ finalUrl start) as Hcne by (intros ->; congruence).
  destruct (bfs_loop_finds links (finalUrl start) (dom pages) HU path c Hpath Hlast
              Hcne Hconv Hlen _ _ _ _ Hi Hlevels Hpending Hloop)
    as (c' & d' & -> & Hd' & Hle).
  destruct (bfs_loop_found links (finalUrl start) (dom pages) HU _ _ _ _ Hi Hloop)
    as (Hi' & Hcv & Hcs & Hconv' & d & Hd & Hdle).
  assert (d = d') as -> by congruence.
  assert (c' ≠ "") as Hne.
  { intros ->. revert Hconv'. unfold isProbablyConversion. by rewrite no_empty_url. }
  simpl. rewrite bool_decide_eq_false_2 by done.
  destruct (walk_parents_back links (finalUrl start) (dom pages) no_empty_url st' d' Hi'
              c' (S (S maxSteps)) [] Hcv Hd) as (back & Hw & Hblen & _).
  { by right. }
  { unfold maxSteps in *. lia. }
  rewrite Hw. simpl. intros [= <-]. eexists. split; [done |]. simpl.
  rewrite length_reverse. lia.
Qed.

Lemma funnels_loop_each (starts : list PageFinding) (acc fs : list FunnelPath) :
  funnels_loop (length adPages) pages links starts acc = Done fs →
  (∀ f, f ∈ acc → f ∈ fs)
  ∧ ∀ start, start ∈ starts →
      ∃ r, search start = Done r ∧ ∀ f, r = Some f → f ∈ fs.
Proof.
  revert acc. induction starts as [|s starts IH]; intros acc; simpl.
  - intros [= <-]. split; [done |]. by intros start Hs%elem_of_nil.
  - destruct (search s) as [r| |] eqn:Hr; simpl; [| done..].
    intros Hl. destruct (IH _ Hl) as [Hacc Hstarts]. split.
    + intros f Hf. apply Hacc. destruct r; [apply elem_of_app; by left | done].
    + intros start [-> | Hs]%elem_of_cons; [| by apply Hstarts].
      exists r. split; [done |]. intros f ->. apply Hacc.
      apply elem_of_app. right. by apply list_elem_of_singleton.
Qed.

Lemma buildFunnels_from (fs : list FunnelPath) (f : FunnelPath) :
  buildFunnels adPages = Done fs → f ∈ fs →
  ∃ start, start ∈ adPages ∧ search start = Done (Some f).
Proof.
  unfold buildFunnels.
  destruct (funnels_loop (length adPages) pages links adPages []) as [fs0| |] eqn:Hloop;
    simpl; [| done..].
  intros [= <-] Hf%dedupe_funnels_elem%Array_sort_elem.
  destruct (funnels_loop_elem _ _ _ _ _ Hloop Hf) as [Hnil | Hstart]; [| done].
  by apply elem_of_nil in Hnil.
Qed.

Lemma buildFunnels_landings (fs : list FunnelPath) :
  buildFunnels adPages = Done fs → NoDup (landing <$> fs).
Proof.
  intros Hb. apply (NoDup_fmap_coarser funnel_key).
  - revert Hb. unfold buildFunnels.
    destruct (funnels_loop _ _ _ adPages []) as [fs0| |]; simpl; [| done..].
    intros [= <-]. apply dedupe_funnels_keys.
  - intros f g Hf Hg Hl.
    destruct (buildFunnels_from fs f Hb Hf) as (s1 & _ & H1).
    destruct (buildFunnels_from fs g Hb Hg) as (s2 & _ & H2).
    destruct (funnel_from_same s1 s2 f g) as (_ & _ & Hc); [| done.. |].
    + by rewrite <- (funnel_from_landing _ _ H1), <- (funnel_from_landing _ _ H2).
    + unfold funnel_key. by rewrite Hl, Hc.
Qed.

Lemma buildFunnels_finds (fs : list FunnelPath) (start : PageFinding)
    (path : list string) (c : string) :
  buildFunnels adPages = Done fs →
  (∀ p, p ∈ adPages → ascii_only (finalUrl p) = true) →
  start ∈ adPages → AD_LIKE_THRESHOLD ≤ score start →
  isProbablyConversion (finalUrl start) = Some false →
  is_path links (finalUrl start) path → last path = Some c →
  isProbablyConversion c = Some true → (length path ≤ maxSteps)%nat →
  ∃ f, f ∈ fs ∧ landing f = finalUrl start ∧ (length (steps f) ≤ length path)%nat.
Proof.
  intros Hb Hascii Hs Hscore Hland Hpath Hlast Hconv Hlen.
  pose proof Hb as Hb0. revert Hb0. unfold buildFunnels.
  destruct (funnels_loop (length adPages) pages links adPages []) as [fs0| |] eqn:Hloop;
    simpl; [| done..].
  intros [= Hfs].
  destruct (funnels_loop_each _ _ _ Hloop) as [_ Heach].
  destruct (Heach start Hs) as (r & Hr & Hin).
  destruct (funnel_from_found start path c r) as (f0 & -> & Hlen0); try done.
  specialize (Hin f0 eq_refl).
  destruct (dedupe_funnels_keeps ∅ (Array_sort (λ a b, confidence b - confidence a) fs0) f0)
    as (g & Hg & Hkey).
  { by apply Array_sort_elem. }
  { apply not_elem_of_empty. }
  rewrite Hfs in Hg.
  destruct (buildFunnels_from fs g Hb Hg) as (s2 & Hs2 & H2).
  pose proof (funnel_from_landing _ _ Hr) as Hl0.
  pose proof (funnel_from_landing _ _ H2) as Hl2.
  assert (landing g = landing f0) as Hsame.
  { apply funnel_key_landing; [| | done].
    - rewrite Hl2. by apply Hascii.
    - rewrite Hl0. by apply Hascii. }
  destruct (funnel_from_same s2 start g f0) as (_ & Hst & _); [congruence | done.. |].
  exists g. split_and!; [done | congruence | by rewrite Hst].
Qed.
End BuildComplete.

(** X17.  [buildFunnels] returns one funnel for a landing URL at most: no
    two of its funnels share their landing URL. *)
Theorem buildFunnels_one_per_landing `{UrlApi} (adPages : list PageFinding)
    (fs : list FunnelPath) :
  buildFunnels adPages = Done fs → NoDup (landing <$> fs).
Proof. apply buildFunnels_landings. Qed.

Lemma buildFunnels_one_per_landing_witness : NoDup [ex_offer; ex_plan].
Proof.
  apply (buildFunnels_one_per_landing (H := RefUrl) example_pages
           [example_funnel; example_funnel_direct]).
  vm_compute. reflexivity.
Defined.

(** X18.  [buildFunnels] misses no funnel: for every page that scores at
    least 18 and is not a conversion page, from which links of the graph
    lead to a conversion page in at most 5 steps, the list holds a funnel
    with this landing URL.  (The URLs are ASCII, as serialised URLs are:
    the key of the dedupe step would mix up other ones.) *)
Theorem buildFunnels_complete `{UrlApi} (adPages : list PageFinding)
    (fs : list FunnelPath) (start : PageFinding) (path : list string) (c : string) :
  URL_new "" = None →
  buildFunnels adPages = Done fs →
  (∀ p, p ∈ adPages → ascii_only (finalUrl p) = true) →
  start ∈ adPages → 18 ≤ score start →
  isProbablyConversion (finalUrl start) = Some false →
  is_path (make_adj (make_byUrl adPages) adPages) (finalUrl start) path →
  (length path ≤ 5)%nat → last path = Some c →
  isProbablyConversion c = Some true →
  ∃ f, f ∈ fs ∧ landing f = finalUrl start.
Proof.
  intros Hempty Hb Hascii Hs Hscore Hland Hpath Hlen Hlast Hconv.
  destruct (buildFunnels_finds Hempty adPages fs start path c) as (f & Hf & Hl & _);
    try done.
  by exists f.
Qed.

Lemma buildFunnels_complete_witness :
  ∃ f, f ∈ [example_funnel; example_funnel_direct] ∧ landing f = ex_offer.
Proof.
  apply (buildFunnels_complete (H := RefUrl) example_pages
           [example_funnel; example_funnel_direct]
           (example_page ex_offer 30 [ex_plan] [ex_plan; ex_home])
           [ex_plan; ex_checkout] ex_checkout).
  - reflexivity.
  - vm_compute. reflexivity.
  - intros p Hp. vm_compute in Hp.
    repeat (apply elem_of_cons in Hp as [-> | Hp]; [vm_compute; reflexivity |]).
    by apply elem_of_nil in Hp.
  - vm_compute. repeat constructor.
  - vm_compute. discriminate.
  - vm_compute. reflexivity.
  - vm_compute. split; [repeat constructor | split; [repeat constructor | done]].
  - simpl. lia.
  - reflexivity.
  - vm_compute. reflexivity.
Defined.

(** X19.  The funnel of a landing page leads to a nearest conversion page:
    no path of the link graph from the landing page to a conversion page
    has fewer steps. *)
Theorem buildFunnels_nearest `{UrlApi} (adPages : list PageFinding)
    (fs : list FunnelPath) (f : FunnelPath) (path : list string) (c : string) :
  URL_new "" = None →
  buildFunnels adPages = Done fs → f ∈ fs →
  is_path (make_adj (make_byUrl adPages) adPages) (landing f) path →
  last path = Some c → isProbablyConversion c = Some true →
  (length (steps f) ≤ length path)%nat.
Proof.
  intros Hempty Hb Hf Hpath Hlast Hconv.
  destruct (buildFunnels_ok Hempty adPages fs f Hb Hf) as (start0 & _ & Hok0).
  destruct (decide (length path ≤ maxSteps)%nat) as [Hlen | Hlen].
  2:{ pose proof (ok_length _ _ _ Hok0). lia. }
  destruct (buildFunnels_from adPages fs f Hb Hf) as (start & Hs & Hfrom).
  pose proof (funnel_ok_start := funnel_from_ok Hempty adPages start f Hs Hfrom).
  pose proof (funnel_from_landing adPages _ _ Hfrom) as Hl.
  destruct (funnel_from_found Hempty adPages start path c (Some f)) as (f' & [= <-] & Hle);
    try done.
  - apply funnel_ok_start.
  - rewrite <- Hl. apply funnel_ok_start.
  - by rewrite <- Hl.
Qed.

Lemma buildFunnels_nearest_witness :
  (length [ex_plan; ex_checkout] ≤ length [ex_plan; ex_offer; ex_plan; ex_checkout])%nat.
Proof.
  apply (buildFunnels_nearest (H := RefUrl) example_pages
           [example_funnel; example_funnel_direct] example_funnel
           [ex_plan; ex_offer; ex_plan; ex_checkout] ex_checkout).
  - reflexivity.
  - vm_compute. reflexivity.
  - apply list_elem_of_here.
  - vm_compute. repeat split; repeat constructor.
  - reflexivity.
  - vm_compute. reflexivity.
Defined.

(** ** runFunnelFinder: the ad-like pages and the report *)

Lemma StronglySorted_sublist {A} (R : relation A) (l1 l2 : list A) :
  l1 `sublist_of` l2 → StronglySorted R l2 → StronglySorted R l1.
Proof.
  induction 1 as [|x l1 l2 Hsub IH|x l1 l2 Hsub IH]; intros Hs; [done | |].
  - apply StronglySorted_inv in Hs as [Hs Hall]. constructor; [by apply IH |].
    apply Forall_forall. intros y Hy. apply (proj1 (Forall_forall _ _) Hall).
    by eapply elem_of_sublist.
  - apply StronglySorted_inv in Hs as [Hs _]. by apply IH.
Qed.

(** X20.  The ad-like pages of a run are pages that were checked and
    score at least 18, at most 250 of them, in the order of their scores,
    the highest first; a page that scores at least 18 and is left out
    scores no more than any page that is kept. *)
Theorem classify_top (checked : list PageFinding) :
  (length (classify checked) ≤ 250)%nat
  ∧ (∀ p, p ∈ classify checked → p ∈ checked ∧ 18 ≤ score p)
  ∧ (∀ i j p q, (i < j)%nat → classify checked !! i = Some p →
                classify checked !! j = Some q → score q ≤ score p)
  ∧ (∀ p q, p ∈ classify checked → q ∈ checked → 18 ≤ score q →
            q ∉ classify checked → score q ≤ score p).
Proof.
  assert (StronglySorted (λ a b, score b ≤ score a)
            (filter (λ p, AD_LIKE_THRESHOLD ≤ score p)
               (Array_sort (λ a b, score b - score a) checked))) as Hsorted.
  { eapply StronglySorted_sublist; [apply sublist_filter |].
    apply (Array_sort_sorted score). }
  split_and!.
  - unfold classify. rewrite length_take. unfold MAX_AD_LIKE. lia.
  - apply classify_elem.
  - intros i j p q Hij Hp Hq.
    eapply (StronglySorted_lookup (λ a b, score b ≤ score a)); [| done..].
    eapply StronglySorted_sublist; [apply sublist_take | done].
  - intros p q Hp Hq Hscore Hout. unfold classify in *.
    set (l := filter (λ p, AD_LIKE_THRESHOLD ≤ score p)
                (Array_sort (λ a b, score b - score a) checked)) in *.
    assert (q ∈ l) as Hql.
    { apply list_elem_of_filter. split; [done | by apply Array_sort_elem]. }
    rewrite <- (take_drop MAX_AD_LIKE l) in Hql.
    apply elem_of_app in Hql as [Hql | Hql]; [done |].
    apply list_elem_of_lookup_1 in Hp as [i Hi]. apply list_elem_of_lookup_1 in Hql as [j Hj].
    apply lookup_take_Some in Hi as [Hi Hlt]. rewrite lookup_drop in Hj.
    apply (StronglySorted_lookup (λ a b, score b ≤ score a) l i (MAX_AD_LIKE + j));
      [done | lia | done..].
Qed.

Section ReportThrows.
Context `{UrlApi}.
Hypothesis no_empty_url : URL_new "" = None.

Lemma funnels_loop_raise (adPages starts : list PageFinding) (acc : list FunnelPath)
    (p : PageFinding) :
  (∀ s, s ∈ starts → s ∈ adPages) → p ∈ starts →
  funnel_from (length adPages) (make_byUrl adPages)
    (make_adj (make_byUrl adPages) adPages) p = Raise →
  funnels_loop (length adPages) (make_byUrl adPages)
    (make_adj (make_byUrl adPages) adPages) starts acc = Raise.
Proof.
  intros Hsub Hp Hraise. revert acc Hsub Hp.
  induction starts as [|s starts IH]; intros acc Hsub Hp; [by apply elem_of_nil in Hp |].
  simpl. pose proof (funnel_from_total no_empty_url adPages s (Hsub s ltac:(by left))) as Htot.
  destruct (funnel_from _ _ _ s) as [r| |] eqn:Hs; simpl; [| done..].
  apply elem_of_cons in Hp as [-> | Hp]; [congruence |].
  apply IH; [| done]. intros s' Hs'. apply Hsub. by right.
Qed.

(** X21.  From the checked pages on a run returns exactly when the final
    URL of every ad-like page parses, and throws otherwise: the searches
    end for every link graph. *)
Theorem report_throws (baseUrl : string) (checked : list PageFinding) :
  ((∀ p, p ∈ classify checked → is_Some (URL_new (finalUrl p))) →
   ∃ fs, report baseUrl checked
         = Done (classify checked, fs, formatOutputText baseUrl (classify checked) fs))
  ∧ (∀ p, p ∈ classify checked → URL_new (finalUrl p) = None →
     report baseUrl checked = Raise).
Proof.
  unfold report. split.
  - intros Hparse.
    destruct (buildFunnels_returns no_empty_url (classify checked) Hparse) as [fs ->].
    by exists fs.
  - intros p Hp Hnone. unfold buildFunnels.
    rewrite (funnels_loop_raise (classify checked) (classify checked) [] p); [done.. |].
    unfold funnel_from.
    rewrite bool_decide_eq_false_2 by (apply classify_elem in Hp as [_ Hp]; lia).
    unfold isProbablyConversion. by rewrite Hnone.
Qed.
End ReportThrows.

Lemma report_throws_witness :
  ((∀ p, p ∈ classify example_checked → is_Some (URL_new (finalUrl p))) →
   ∃ fs, report ex_home example_checked
         = Done (classify example_checked, fs,
                 formatOutputText ex_home (classify example_checked) fs))
  ∧ (∀ p, p ∈ classify example_checked → URL_new (finalUrl p) = None →
     report ex_home example_checked = Raise).
Proof. apply (report_throws (H := RefUrl) eq_refl ex_home example_checked). Defined.

(** ** crawl.ts: scoring a page *)

Lemma each_inv {A B} (f : B → A → option B) (I : B → Prop) (l : list A) (b b' : B) :
  each f b l = Some b' → I b →
  (∀ b0 x b1, x ∈ l → I b0 → f b0 x = Some b1 → I b1) → I b'.
Proof.
  revert b. induction l as [|x l IH]; intros b; simpl; [by intros [= <-] |].
  destruct (f b x) as [b1|] eqn:Hf; simpl; [| done].
  intros Hl Hb Hstep. apply (IH b1 Hl).
  - apply (Hstep b x); [by left | done..].
  - intros b0 y b2 Hy. apply Hstep. by right.
Qed.

Lemma each_is_Some {A B} (f : B → A → option B) (l : list A) (b : B) :
  (∀ b0 x, x ∈ l → is_Some (f b0 x)) → is_Some (each f b l).
Proof.
  revert b. induction l as [|x l IH]; intros b Hf; simpl; [by eexists |].
  destruct (Hf b x) as [b1 ->]; [by left |]. simpl.
  apply IH. intros b0 y Hy. apply Hf. by right.
Qed.

Lemma filter_throwing_spec {A} (f : A → option bool) (l k : list A) :
  filter_throwing f l = Some k →
  k = filter (λ x, f x = Some true) l ∧ ∀ x, x ∈ l → is_Some (f x).
Proof.
  revert k. induction l as [|x l IH]; intros k; simpl.
  - intros [= <-]. split; [done | by intros x Hx%elem_of_nil].
  - destruct (f x) as [keep|] eqn:Hx; simpl; [| done].
    destruct (filter_throwing f l) as [rest|]; simpl; [| done].
    destruct (IH rest eq_refl) as [-> Hall]. intros [= <-]. split.
    + rewrite filter_cons. destruct keep.
      * by rewrite decide_True by done.
      * by rewrite decide_False by congruence.
    + intros y [-> | Hy]%elem_of_cons; [by eexists | by apply Hall].
Qed.

Section ScoreFacts.
Context `{UrlApi}.
Variable cheerio_load : string → document.
Variable url : string.

(** The link an [a] element gives: absolute, and without its tracking
    parameters. *)
#[local] Abbreviation link_of el l :=
  (∃ abs, toAbsoluteUrl url (default "" (el_href el)) = Some abs ∧ abs ≠ ""
          ∧ stripUtm abs = Some l).

Lemma cta_step_links (elements : list element) (cta : list string * nat) :
  each (cta_step url) ([], 0%nat) elements = Some cta →
  ∀ l, l ∈ cta.1 → ∃ el, el ∈ elements ∧ tagName el = "a" ∧ link_of el l.
Proof.
  intros Hcta.
  apply (each_inv _ (λ acc, ∀ l, l ∈ acc.1 →
                              ∃ el, el ∈ elements ∧ tagName el = "a" ∧ link_of el l)
           _ _ _ Hcta).
  - by intros l Hl%elem_of_nil.
  - intros acc el acc1 Hel Hacc. unfold cta_step.
    case_bool_decide as Htag.
    2:{ destruct (isCtaText el); intros [= <-]; done. }
    destruct (toAbsoluteUrl url (default "" (el_href el))) as [abs|] eqn:Habs;
      [| by intros [= <-]].
    case_bool_decide as Hne; simpl; [by intros [= <-] |].
    destruct (buttonish el); simpl; [| by intros [= <-]].
    destruct (if isCtaText el then Some true else isProbablyConversion abs) as [[|]|];
      simpl; [| by intros [= <-] | done].
    destruct (stripUtm abs) as [norm|] eqn:Hnorm; simpl; [| done].
    intros [= <-] l. simpl.
    intros [Hl | ->%list_elem_of_singleton]%elem_of_app; [by apply Hacc |].
    exists el. split_and!; [done.. |]. by exists abs.
Qed.

Lemma out_step_links (anchors : list element) (acc outs : list string) :
  each (out_step url) acc anchors = Some outs →
  ∀ l, l ∈ outs ↔ l ∈ acc ∨ ∃ el, el ∈ anchors ∧ link_of el l.
Proof.
  revert acc. induction anchors as [|el anchors IH]; intros acc; simpl.
  - intros [= <-] l. split; [by left |]. intros [? | (el & Hel & _)]; [done |].
    by apply elem_of_nil in Hel.
  - destruct (out_step url acc el) as [acc1|] eqn:Hstep; simpl; [| done].
    intros Hl l. rewrite (IH _ Hl). revert Hstep. unfold out_step.
    destruct (toAbsoluteUrl url (default "" (el_href el))) as [abs|] eqn:Habs.
    2:{ intros [= <-]. split; [intros [? | (e & He & Hlk)] | intros [? | (e & He & Hlk)]].
        - by left.
        - right. exists e. split; [by right | done].
        - by left.
        - apply elem_of_cons in He as [-> | He]; [| right; by exists e].
          destruct Hlk as (a & Ha & _). congruence. }
    case_bool_decide as Hne.
    { intros [= <-]. split; [intros [? | (e & He & Hlk)] | intros [? | (e & He & Hlk)]].
      - by left.
      - right. exists e. split; [by right | done].
      - by left.
      - apply elem_of_cons in He as [-> | He]; [| right; by exists e].
        destruct Hlk as (a & Ha & Hna & _). congruence. }
    destruct (stripUtm abs) as [norm|] eqn:Hnorm; simpl; [| done].
    intros [= <-]. rewrite elem_of_app, list_elem_of_singleton. split.
    + intros [[? | ->] | (e & He & Hlk)].
      * by left.
      * right. exists el. split; [by left |]. by exists abs.
      * right. exists e. split; [by right | done].
    + intros [? | (e & He & Hlk)]; [by left; left |].
      apply elem_of_cons in He as [-> | He]; [| right; by exists e].
      destruct Hlk as (a & Ha & _ & Hs). left. right. congruence.
Qed.

Lemma scorePage_inv (html : string) (r : Scored) :
  scorePage cheerio_load url html = Some r →
  ∃ cta outs,
    each (cta_step url) ([], 0%nat) (doc_elements (cheerio_load html)) = Some cta
    ∧ each (out_step url) []
        (filter (λ el, tagName el = "a") (doc_elements (cheerio_load html))) = Some outs
    ∧ s_ctaLinks r = Array_from_Set cta.1 ∧ s_allOutLinks r = Array_from_Set outs.
Proof.
  unfold scorePage. destruct (URL_new url) as [u|]; simpl; [| done].
  destruct (each (cta_step url) _ _) as [cta|] eqn:Hcta; simpl; [| done].
  destruct (each (out_step url) _ _) as [outs|] eqn:Houts; simpl; [| done].
  intros [= <-]. by exists cta, outs.
Qed.

Lemma scorePage_cta_out (html : string) (r : Scored) (l : string) :
  scorePage cheerio_load url html = Some r → l ∈ s_ctaLinks r → l ∈ s_allOutLinks r.
Proof.
  intros Hscore. destruct (scorePage_inv html r Hscore) as (cta & outs & Hcta & Houts & -> & ->).
  unfold Array_from_Set. rewrite !dedupe_from_elem. intros [Hl _].
  split; [| apply not_elem_of_empty].
  destruct (cta_step_links _ _ Hcta l Hl) as (el & Hel & Htag & Hlk).
  apply (out_step_links _ _ _ Houts). right. exists el.
  split; [by apply list_elem_of_filter | done].
Qed.

(** X22.  The CTA links [scorePage] returns are among the links it
    returns, both lists are without duplicates, and the links are those
    the [a] elements of the page give: the [href], made absolute by
    [toAbsoluteUrl] and without its tracking parameters. *)
Theorem scorePage_links (html : string) (r : Scored) :
  scorePage cheerio_load url html = Some r →
  NoDup (s_ctaLinks r) ∧ NoDup (s_allOutLinks r)
  ∧ (∀ l, l ∈ s_ctaLinks r → l ∈ s_allOutLinks r)
  ∧ ∀ l, l ∈ s_allOutLinks r ↔
         ∃ el abs, el ∈ doc_elements (cheerio_load html) ∧ tagName el = "a"
                   ∧ toAbsoluteUrl url (default "" (el_href el)) = Some abs
                   ∧ abs ≠ "" ∧ stripUtm abs = Some l.
Proof.
  intros Hscore. destruct (scorePage_inv html r Hscore) as (cta & outs & Hcta & Houts & Hc & Ho).
  split_and!.
  - rewrite Hc. apply dedupe_from_NoDup.
  - rewrite Ho. apply dedupe_from_NoDup.
  - intros l. by apply (scorePage_cta_out html).
  - intros l. rewrite Ho. unfold Array_from_Set.
    rewrite dedupe_from_elem, (out_step_links _ _ _ Houts). split.
    + intros [[Hnil | (el & Hel & abs & Hlk)] _]; [by apply elem_of_nil in Hnil |].
      apply list_elem_of_filter in Hel as [Htag Hel]. by exists el, abs.
    + intros (el & abs & Hel & Htag & Hlk). split; [| apply not_elem_of_empty].
      right. exists el. split; [by apply list_elem_of_filter | by exists abs].
Qed.

(** X23.  The score [scorePage] gives is between 0 and 226; it is 0
    exactly when there is no reason for it; and a page with a form and at
    most 35 links scores at least 18, whatever else it holds. *)
Theorem scorePage_score (html : string) (r : Scored) :
  scorePage cheerio_load url html = Some r →
  0 ≤ s_score r ≤ 226
  ∧ (s_score r = 0 ↔ s_reasons r = [])
  ∧ ((0 < doc_forms (cheerio_load html))%nat →
     (length (filter (λ el, tagName el = "a") (doc_elements (cheerio_load html))) ≤ 35)%nat →
     18 ≤ s_score r).
Proof.
  unfold scorePage. destruct (URL_new url) as [u|]; simpl; [| done].
  destruct (each (cta_step url) _ _) as [cta|]; simpl; [| done].
  destruct (each (out_step url) _ _) as [outs|]; simpl; [| done].
  intros [= <-]. simpl.
  set (path := JsString.toLowerCase (JsString.or_else (pathname u) "/")).
  pose proof (length_filter (λ hint, JsString.includes path hint = true) FUNNEL_URL_HINTS)
    as Hhints.
  change (length FUNNEL_URL_HINTS) with 19%nat in Hhints.
  destruct (filter (λ hint, JsString.includes path hint = true) FUNNEL_URL_HINTS)
    as [|h hints]; simpl length in *; simpl fmap;
    repeat case_bool_decide;
    destruct (JsString.includes _ "noindex");
    (split; [lia |]);
    (split; [first [split; [intros; exfalso; lia | done] | split; [done | lia]] |]);
    intros; lia.
Qed.
End ScoreFacts.

Lemma example_score :
  scorePage (H := RefUrl) example_document ex_offer example_html = Some example_scored.
Proof. vm_compute. reflexivity. Qed.

Lemma scorePage_links_witness :
  NoDup (s_ctaLinks example_scored) ∧ NoDup (s_allOutLinks example_scored)
  ∧ (∀ l, l ∈ s_ctaLinks example_scored → l ∈ s_allOutLinks example_scored)
  ∧ ∀ l, l ∈ s_allOutLinks example_scored ↔
         ∃ el abs, el ∈ doc_elements (example_document example_html) ∧ tagName el = "a"
                   ∧ toAbsoluteUrl ex_offer (default "" (el_href el)) = Some abs
                   ∧ abs ≠ "" ∧ stripUtm abs = Some l.
Proof.
  apply (scorePage_links (H := RefUrl) example_document ex_offer example_html).
  vm_compute. reflexivity.
Defined.

Lemma scorePage_score_witness :
  0 ≤ s_score example_scored ≤ 226
  ∧ (s_score example_scored = 0 ↔ s_reasons example_scored = [])
  ∧ ((0 < doc_forms (example_document example_html))%nat →
     (length (filter (λ el, tagName el = "a")
                (doc_elements (example_document example_html))) ≤ 35)%nat →
     18 ≤ s_score example_scored).
Proof.
  apply (scorePage_score (H := RefUrl) example_document ex_offer example_html).
  vm_compute. reflexivity.
Defined.

(** X24.  On a URL class that keeps the contract [scorePage] throws
    exactly when the URL of the page does not parse: no document makes it
    throw. *)
Theorem scorePage_throws `{UrlLaws} (cheerio_load : string → document) (url html : string) :
  scorePage cheerio_load url html = None ↔ URL_new url = None.
Proof.
  unfold scorePage. destruct (URL_new url) as [u|]; simpl; [| done].
  split; [| done].
  assert (∀ el abs, toAbsoluteUrl url (default "" (el_href el)) = Some abs →
                    is_Some (stripUtm abs) ∧ is_Some (isProbablyConversion abs)) as Habs.
  { intros el abs [ua Hua]%toAbsoluteUrl_parses.
    split; [| apply isProbablyConversion_is_Some; eauto].
    destruct (stripUtm_returns _ _ Hua) as (s' & -> & _). eauto. }
  destruct (each_is_Some (cta_step url) (doc_elements (cheerio_load html)) ([], 0%nat))
    as [cta ->].
  { intros acc el _. unfold cta_step. case_bool_decide; [| destruct (isCtaText el); eauto].
    destruct (toAbsoluteUrl url (default "" (el_href el))) as [abs|] eqn:Ha; [| eauto].
    destruct (Habs el abs Ha) as [[norm ->] [conv Hconv]].
    destruct (_ && _); [| eauto].
    destruct (isCtaText el); simpl; [eauto |]. rewrite Hconv. simpl. destruct conv; eauto. }
  simpl.
  destruct (each_is_Some (out_step url)
              (filter (λ el, tagName el = "a") (doc_elements (cheerio_load html))) [])
    as [outs ->]; [| done].
  intros acc el _. unfold out_step.
  destruct (toAbsoluteUrl url (default "" (el_href el))) as [abs|] eqn:Ha; [| eauto].
  destruct (Habs el abs Ha) as [[norm ->] _]. case_bool_decide; eauto.
Qed.

Lemma scorePage_throws_witness :
  scorePage (H := RefUrl) example_document "/offer" example_html = None ↔
  URL_new "/offer" = None.
Proof.
  apply (scorePage_throws (H := RefUrl) (H0 := RefUrl_laws) example_document
           "/offer" example_html).
Defined.

(** ** runFunnelFinder: the candidates and the checked pages *)

Section CheckFacts.
Context `{UrlApi}.
Variable cheerio_load : string → document.
Variable fetchStatus : string → StatusResult.
Variable fetchHtml : string → option string.

Lemma internal_links_spec (baseUrl : string) (links k : list string) :
  internal_links baseUrl links = Some k →
  k = filter (λ l, looksExcluded l = Some false)
        (filter (λ l, sameOrigin baseUrl l = Some true) links).
Proof.
  unfold internal_links.
  destruct (filter_throwing (sameOrigin baseUrl) links) as [same|] eqn:Hs; simpl; [| done].
  apply filter_throwing_spec in Hs as [-> _].
  intros [-> _]%filter_throwing_spec.
  apply list_filter_iff. intros l.
  destruct (looksExcluded l) as [[|]|]; simpl; split; congruence.
Qed.

Lemma checkPage_links (baseUrl : string) (robots : RobotsRules) (url : string)
    (p : PageFinding) (l : string) :
  checkPage cheerio_load fetchStatus fetchHtml baseUrl robots url = Some (Some p) →
  l ∈ ctaLinks p ∨ l ∈ allOutLinks p →
  sameOrigin baseUrl l = Some true ∧ looksExcluded l = Some false.
Proof.
  unfold checkPage.
  destruct (isAllowedByRobots baseUrl robots url) as [[|]|]; simpl; [| done..].
  case_bool_decide; [done |].
  destruct (bool_decide (400 ≤ _) && bool_decide (_ < 600)); [done |].
  destruct (match st_contentType (fetchStatus url) with Some _ => _ | None => _ end);
    [done |].
  destruct (fetchHtml _) as [html|]; simpl; [| done].
  destruct (scorePage _ _ html) as [scored|]; simpl; [| done].
  destruct (internal_links baseUrl (s_allOutLinks scored)) as [outs|] eqn:Houts;
    simpl; [| done].
  destruct (internal_links baseUrl (s_ctaLinks scored)) as [ctas|] eqn:Hctas;
    simpl; [| done].
  intros [= <-]. simpl.
  apply internal_links_spec in Houts as ->. apply internal_links_spec in Hctas as ->.
  by intros [[Hex [Hso Hl]%list_elem_of_filter]%list_elem_of_filter
            | [Hex [Hso Hl]%list_elem_of_filter]%list_elem_of_filter].
Qed.

(** X25.  A page the check of a candidate keeps is allowed by the robots
    rules, and its status is not 0 and not a 4xx or 5xx; the links kept
    with it are on the origin of the base URL and not excluded, they are
    without duplicates, and its CTA links are among its links. *)
Theorem checkPage_kept (baseUrl : string) (robots : RobotsRules) (url : string)
    (p : PageFinding) :
  checkPage cheerio_load fetchStatus fetchHtml baseUrl robots url = Some (Some p) →
  isAllowedByRobots baseUrl robots url = Some true
  ∧ pf_url p = url ∧ finalUrl p = st_finalUrl (fetchStatus url)
  ∧ status p ≠ 0 ∧ ¬ (400 ≤ status p < 600)
  ∧ NoDup (ctaLinks p) ∧ NoDup (allOutLinks p)
  ∧ (∀ l, l ∈ ctaLinks p → l ∈ allOutLinks p)
  ∧ ∀ l, l ∈ allOutLinks p →
         sameOrigin baseUrl l = Some true ∧ looksExcluded l = Some false.
Proof.
  unfold checkPage.
  destruct (isAllowedByRobots baseUrl robots url) as [[|]|]; simpl; [| done..].
  case_bool_decide as H0; [done |].
  destruct (bool_decide (400 ≤ _) && bool_decide (_ < 600)) eqn:Herr; [done |].
  destruct (match st_contentType (fetchStatus url) with Some _ => _ | None => _ end);
    [done |].
  destruct (fetchHtml _) as [html|]; simpl; [| done].
  destruct (scorePage _ _ html) as [scored|] eqn:Hscore; simpl; [| done].
  destruct (internal_links baseUrl (s_allOutLinks scored)) as [outs|] eqn:Houts;
    simpl; [| done].
  destruct (internal_links baseUrl (s_ctaLinks scored)) as [ctas|] eqn:Hctas;
    simpl; [| done].
  intros [= <-]. simpl.
  apply internal_links_spec in Houts as ->. apply internal_links_spec in Hctas as ->.
  destruct (scorePage_inv _ _ _ _ Hscore) as (cta & outs0 & _ & _ & Hc & Ho).
  assert (NoDup (s_ctaLinks scored)) as Hnc by (rewrite Hc; apply dedupe_from_NoDup).
  assert (NoDup (s_allOutLinks scored)) as Hno by (rewrite Ho; apply dedupe_from_NoDup).
  pose proof (λ l, scorePage_cta_out _ _ _ _ l Hscore) as Hsub.
  split_and!; try done.
  - intros [H4 H6]. apply andb_false_iff in Herr as [Herr | Herr];
      apply bool_decide_eq_false in Herr; lia.
  - by do 2 apply NoDup_filter.
  - by do 2 apply NoDup_filter.
  - intros l [Hex [Hso Hl]%list_elem_of_filter]%list_elem_of_filter.
    apply list_elem_of_filter. split; [done |].
    apply list_elem_of_filter. split; [done | by apply Hsub].
  - by intros l [Hex [Hso Hl]%list_elem_of_filter]%list_elem_of_filter.
Qed.

Lemma select_step_spec (raw : list string) (c e c' e' : list string) :
  each select_step (c, e) raw = Some (c', e') → (length e ≤ 30)%nat →
  c' = c ++ filter (λ u, looksExcluded u = Some false) raw
  ∧ e' = take 30 (e ++ filter (λ u, looksExcluded u = Some true) raw).
Proof.
  revert c e. induction raw as [|u raw IH]; intros c e; simpl.
  - intros [= <- <-] He. rewrite !app_nil_r. split; [done |]. by rewrite take_ge.
  - destruct (select_step (c, e) u) as [[c1 e1]|] eqn:Hstep; simpl; [| done].
    intros Hl He. revert Hstep. unfold select_step.
    destruct (looksExcluded u) as [[|]|] eqn:Hu; simpl; [| | done].
    + rewrite filter_cons_False by congruence.
      rewrite (filter_cons_True (λ u, looksExcluded u = Some true)) by done.
      case_bool_decide as Hlt; intros [= <- <-].
      * destruct (IH _ _ Hl) as [-> ->]; [rewrite length_app; simpl; lia |].
        by rewrite <- app_assoc.
      * destruct (IH _ _ Hl He) as [-> ->]. split; [done |].
        rewrite !take_app_le by lia. done.
    + intros [= <- <-]. rewrite filter_cons_True by done.
      rewrite (filter_cons_False (λ u, looksExcluded u = Some true)) by congruence.
      destruct (IH _ _ Hl He) as [-> ->]. by rewrite <- app_assoc.
Qed.

(** X26.  The candidates of a run: the discovered URLs, each once and
    without its tracking parameters, that are on the origin of the base
    URL and not excluded, in their order; the excluded samples are the
    first 30 of the excluded ones.  A discovered URL that does not parse
    makes the run throw. *)
Theorem select_candidates_spec (baseUrl : string) (smUrls crawled : list string) :
  (∀ d, d ∈ smUrls ++ crawled → URL_new d = None →
        select_candidates baseUrl smUrls crawled = None)
  ∧ ∀ raw candidates excludedSamples,
      select_candidates baseUrl smUrls crawled = Some (raw, candidates, excludedSamples) →
      (∀ u, u ∈ raw ↔ ∃ d, d ∈ smUrls ++ crawled ∧ stripUtm d = Some u
                           ∧ sameOrigin baseUrl u = Some true)
      ∧ candidates = filter (λ u, looksExcluded u = Some false) raw
      ∧ excludedSamples = take 30 (filter (λ u, looksExcluded u = Some true) raw).
Proof.
  unfold select_candidates. split.
  - intros d Hd Hnone.
    rewrite (proj2 (mapM_None stripUtm _)); [done |].
    apply Exists_exists. exists d. split.
    + apply dedupe_from_elem. split; [done | apply not_elem_of_empty].
    + unfold stripUtm. by rewrite Hnone.
  - intros raw candidates excludedSamples.
    destruct (mapM stripUtm _) as [stripped|] eqn:Hmap; simpl; [| done].
    destruct (filter_throwing _ stripped) as [raw0|] eqn:Hraw; simpl; [| done].
    destruct (each select_step _ raw0) as [[c e]|] eqn:Hsel; simpl; [| done].
    intros [= <- <- <-].
    apply filter_throwing_spec in Hraw as [-> _].
    apply mapM_Some in Hmap.
    destruct (select_step_spec _ _ _ _ _ Hsel) as [-> ->]; [simpl; lia |].
    split_and!; [| done..].
    intros u. rewrite list_elem_of_filter. split.
    + intros [Hso [i Hi]%list_elem_of_lookup_1].
      destruct (Forall2_lookup_r _ _ _ _ _ Hmap Hi) as (d & Hd & Hs).
      apply list_elem_of_lookup_2, dedupe_from_elem in Hd as [Hd _]. by exists d.
    + intros (d & Hd & Hs & Hso). split; [done |].
      assert (d ∈ Array_from_Set (smUrls ++ crawled)) as [i Hi]%list_elem_of_lookup_1
        by (apply dedupe_from_elem; split; [done | apply not_elem_of_empty]).
      destruct (Forall2_lookup_l _ _ _ _ _ Hmap Hi) as (u' & Hu' & Hs').
      apply list_elem_of_lookup_2 in Hu'. congruence.
Qed.
End CheckFacts.

Lemma example_check :
  checkPage (H := RefUrl) example_document example_status (λ _, Some example_html)
    ex_home no_rules ex_offer
  = Some (Some {| pf_url := ex_offer; finalUrl := ex_offer; status := 200; score := 47;
                  reasons := ["url:offer"; "tracking:1"; "forms:1"; "cta:2"; "lowLinks:2"];
                  title := Some "Offer";
                  ctaLinks := [ex_checkout]; allOutLinks := [ex_checkout] |}).
Proof. vm_compute. reflexivity. Qed.

Lemma checkPage_kept_witness :
  isAllowedByRobots ex_home no_rules ex_offer = Some true
  ∧ ex_offer = ex_offer ∧ ex_offer = st_finalUrl (example_status ex_offer)
  ∧ 200 ≠ 0 ∧ ¬ (400 ≤ 200 < 600)
  ∧ NoDup [ex_checkout] ∧ NoDup [ex_checkout]
  ∧ (∀ l, l ∈ [ex_checkout] → l ∈ [ex_checkout])
  ∧ ∀ l, l ∈ [ex_checkout] →
         sameOrigin ex_home l = Some true ∧ looksExcluded l = Some false.
Proof.
  apply (checkPage_kept (H := RefUrl) example_document example_status
           (λ _, Some example_html) ex_home no_rules ex_offer
           {| pf_url := ex_offer; finalUrl := ex_offer; status := 200; score := 47;
              reasons := ["url:offer"; "tracking:1"; "forms:1"; "cta:2"; "lowLinks:2"];
              title := Some "Offer";
              ctaLinks := [ex_checkout]; allOutLinks := [ex_checkout] |}).
  vm_compute. reflexivity.
Defined.

(** Two discovered URLs that differ in a tracking parameter give the same
    candidate twice. *)
Lemma example_candidates :
  select_candidates (H := RefUrl) ex_home
    [ "https://shop.example/offer?utm_source=a"; "https://shop.example/blog/post";
      "https://other.example/offer" ]
    [ "https://shop.example/offer"; "https://shop.example/offer?utm_source=a" ]
  = Some ([ex_offer; "https://shop.example/blog/post"; ex_offer],
          [ex_offer; ex_offer], ["https://shop.example/blog/post"]).
Proof. vm_compute. reflexivity. Qed.

(** ** More on the funnels *)

Lemma is_path_prefix `{UrlApi} (adj : gmap string (list string)) (from : string)
    (l l' : list string) :
  is_path adj from (l ++ l') → is_path adj from l.
Proof.
  revert from. induction l as [|x l IH]; intros from; simpl; [done |].
  intros [Hx Hl]. split; [done | by apply IH].
Qed.

(** X27.  The conversion page of a funnel is the only page of its chain
    that matches the conversion heuristic: no step before the last one
    does. *)
Theorem buildFunnels_single_conversion `{UrlApi} (adPages : list PageFinding)
    (fs : list FunnelPath) (f : FunnelPath) :
  URL_new "" = None →
  buildFunnels adPages = Done fs → f ∈ fs →
  ∃ mids, steps f = mids ++ [conversion f]
          ∧ ∀ m, m ∈ mids → isProbablyConversion m ≠ Some true.
Proof.
  intros Hempty Hb Hf.
  destruct (buildFunnels_from adPages fs f Hb Hf) as (start & Hs & Hfrom).
  pose proof (funnel_from_ok Hempty adPages start f Hs Hfrom) as Hok.
  pose proof (funnel_from_landing adPages _ _ Hfrom) as Hl.
  destruct (ok_last _ _ _ Hok) as [mids Hmids]. exists mids. split; [done |].
  intros m [l1 [l2 ->]]%list_elem_of_split Hconv.
  pose proof (ok_path _ _ _ Hok) as Hpath. pose proof (ok_length _ _ _ Hok) as Hlen.
  rewrite Hmids, Hl in Hpath. rewrite Hmids in Hlen.
  rewrite !length_app in Hlen. simpl in Hlen.
  destruct (funnel_from_found Hempty adPages start (l1 ++ [m]) m (Some f))
    as (f' & [= <-] & Hle); try done.
  - apply Hok.
  - rewrite <- Hl. apply Hok.
  - apply (is_path_prefix _ _ _ (l2 ++ [conversion f])).
    by rewrite <- !app_assoc in *.
  - apply last_snoc.
  - rewrite length_app. simpl. lia.
  - rewrite Hmids, !length_app in Hle. simpl in Hle. lia.
Qed.

Lemma buildFunnels_single_conversion_witness :
  ∃ mids, [ex_plan; ex_checkout] = mids ++ [ex_checkout]
          ∧ ∀ m, m ∈ mids → isProbablyConversion m ≠ Some true.
Proof.
  apply (buildFunnels_single_conversion (H := RefUrl) example_pages
           [example_funnel; example_funnel_direct] example_funnel).
  - reflexivity.
  - vm_compute. reflexivity.
  - apply list_elem_of_here.
Defined.

Section RunFacts.
Context `{UrlApi}.
Variable cheerio_load : string → document.
Variable fetchStatus : string → StatusResult.
Variable fetchHtml : string → option string.

Lemma is_path_targets (adj : gmap string (list string)) (from : string)
    (path : list string) (u : string) :
  is_path adj from path → u ∈ path → ∃ p, u ∈ default [] (adj !! p).
Proof.
  revert from. induction path as [|x path IH]; intros from; simpl;
    [by intros _ Hu%elem_of_nil |].
  intros [Hx Hpath] [-> | Hu]%elem_of_cons; [by exists from | by eapply IH].
Qed.

(** X28.  In a run, every step of a funnel (the conversion page too) is a
    link that was kept with a checked page: it is on the origin of the
    base URL and not excluded.  The landing URL is the final URL of a
    page, which a redirect may have led elsewhere. *)
Theorem report_steps_internal (baseUrl : string) (robots : RobotsRules)
    (checked pages : list PageFinding) (fs : list FunnelPath) (text : string)
    (f : FunnelPath) (u : string) :
  URL_new "" = None →
  (∀ p, p ∈ checked →
        ∃ url, checkPage cheerio_load fetchStatus fetchHtml baseUrl robots url
               = Some (Some p)) →
  report baseUrl checked = Done (pages, fs, text) → f ∈ fs → u ∈ steps f →
  sameOrigin baseUrl u = Some true ∧ looksExcluded u = Some false.
Proof.
  intros Hempty Hchecked (-> & Hb & _)%report_inv Hf Hu.
  destruct (buildFunnels_ok Hempty _ fs f Hb Hf) as (start & Hs & Hok).
  destruct (is_path_targets _ _ _ u (ok_path _ _ _ Hok) Hu) as [from Hfrom].
  destruct (make_adj (make_byUrl (classify checked)) (classify checked) !! from)
    as [l|] eqn:Hadj; simpl in Hfrom; [| by apply elem_of_nil in Hfrom].
  apply make_adj_lookup in Hadj as (p & Hp & _ & ->).
  apply classify_elem in Hp as [Hp _]. destruct (Hchecked p Hp) as [url Hcheck].
  apply (checkPage_links _ _ _ _ _ _ _ _ Hcheck).
  unfold out_edges in Hfrom.
  apply elem_of_app in Hfrom as [[_ Hl]%list_elem_of_filter | [_ Hl]%list_elem_of_filter];
    [by left | by right].
Qed.
End RunFacts.

Lemma example_site_run :
  (λ r : list PageFinding * list FunnelPath * string, (score <$> r.1.1, r.1.2))
    <$> report (H := RefUrl) ex_home example_site_checked
  = Done ([35; 29],
          [ {| landing := ex_offer; steps := [ex_checkout]; conversion := ex_checkout;
               confidence := 100 |} ]).
Proof. vm_compute. reflexivity. Qed.

Lemma report_steps_internal_witness :
  sameOrigin ex_home ex_checkout = Some true ∧ looksExcluded ex_checkout = Some false.
Proof.
  eapply (report_steps_internal (H := RefUrl) example_site_document example_status
            (λ u, Some u) ex_home no_rules example_site_checked _ _ _
            {| landing := ex_offer; steps := [ex_checkout]; conversion := ex_checkout;
               confidence := 100 |} ex_checkout).
  - reflexivity.
  - intros p Hp. vm_compute in Hp.
    apply elem_of_cons in Hp as [-> | Hp]; [exists ex_offer; vm_compute; reflexivity |].
    apply elem_of_cons in Hp as [-> | Hp]; [exists ex_checkout; vm_compute; reflexivity |].
    by apply elem_of_nil in Hp.
  - vm_compute. reflexivity.
  - apply list_elem_of_here.
  - apply list_elem_of_here.
Defined.

(** ** robots.ts: the sitemaps of robots.txt *)

Section ParseRobotsSitemaps.
Context `{UrlApi}.
Variable robotsUrl : string.


End ParseRobotsSitemaps.

